(** * go-tsk: the multi-account mail polling scheduler

    A shallow embedding of [internal/config/config.go] (packages [config]
    and [scheduler]), of [internal/email/gmail_client.go] and of
    [cmd/app/main.go], followed by their properties.

    Conventions of the embedding.
    - A Go [string] is a byte sequence: Rocq's [string].
    - [time.Time] is an integer count of clock units since Go's zero
      [time.Time]; the zero value is [0].
    - A pointer to a heap object is the object itself, stored in the
      map that owns it; a [*GmailClient] additionally carries a [handle]
      that stands for its address, so that two sessions can be told
      apart.
    - Everything the program does to the outside (the IMAP server, the
      log, the clock) goes through an explicit [World]; what the outside
      answers is an explicit environment argument.
    - A goroutine is a small state machine; the Go scheduler is a list of
      steps chosen from outside. *)

From Stdlib Require Import ZArith NArith Ascii String List Lia Bool.
From stdpp Require Import base option list strings gmap fin_maps.

Import ListNotations.
Local Open Scope string_scope.
Local Open Scope Z_scope.
Local Open Scope list_scope.

(** ** Go's [error] values and [strings] functions *)

(** [errors.New]/[fmt.Errorf] without [%w] build an [errorString];
  [fmt.Errorf("msg: %w", err)] wraps [err]. *)
Inductive error : Type :=
| errorString (msg : string)
| wrapError (msg : string) (err : error).

(** How a call ends: it returns its [error] result ([None] is [nil]), or
  the goroutine panics. *)
Inductive outcome : Type :=
| Returns (err : option error)
| Panics (msg : string).

#[global] Instance error_eq_dec : EqDecision error.
Proof. solve_decision. Defined.

(** How a call that computes a value ends: with the value, or in a
    panic. *)
Inductive result (A : Type) : Type :=
| Value (a : A)
| Panic (msg : string).

Arguments Value {A} a.
Arguments Panic {A} msg.

Module strings.

(** [strings.HasPrefix]. *)
Fixpoint HasPrefix (s prefix : string) {struct prefix} : bool :=
  match prefix, s with
  | EmptyString, _ => true
  | String _ _, EmptyString => false
  | String a prefix', String b s' => Ascii.eqb a b && HasPrefix s' prefix'
  end.

(** [strings.Contains]: [substr] starts at some byte offset of [s]. *)
Fixpoint Contains (s substr : string) : bool :=
  HasPrefix s substr ||
  match s with
  | EmptyString => false
  | String _ s' => Contains s' substr
  end.

(** The ASCII path of [strings.ToLower]: bytes ['A'..'Z'] are moved to
    ['a'..'z'], every other byte is kept. Go's [strings.ToLower]
    computes exactly this on strings that hold only ASCII bytes. *)
Definition lowerByte (c : ascii) : ascii :=
  let n := N_of_ascii c in
  if ((65 <=? n) && (n <=? 90))%N then ascii_of_N (n + 32) else c.

Fixpoint asciiToLower (s : string) : string :=
  match s with
  | EmptyString => EmptyString
  | String c s' => String (lowerByte c) (asciiToLower s')
  end.

(** Whether [s] holds ASCII bytes only. *)
Fixpoint isASCII (s : string) : bool :=
  match s with
  | EmptyString => true
  | String c s' => (N_of_ascii c <? 128)%N && isASCII s'
  end.

End strings.

Module time.

(** [time.NewTicker] as far as the caller can tell before the first
    tick: it panics, with this message, unless the interval is
    positive. *)
Definition NewTicker (d : Z) : option string :=
  if bool_decide (0 < d) then None
  else Some "non-positive interval for NewTicker".

End time.

(** ** Package [config] *)

Module config.

Record EmailAccount : Type := {
  ID : string;
  Name : string;
  Provider : string;
  ClientID : string;
  ClientSecret : string;
  Token : string;
  Enabled : bool
}.

Record Rule : Type := {
  SubjectContains : string;
  Action : string;
  Label : string
}.

(** [Interval] is a [time.Duration], in clock units. *)
Record PollConfig : Type := {
  Interval : Z;
  Rules : list Rule
}.

Record Config : Type := {
  EmailAccounts : list EmailAccount;
  Poll : PollConfig
}.

(** One minute in clock units (nanoseconds, as [time.Minute]). *)
Definition Minute : Z := 60 * 1000000000.

Definition DefaultConfig : Config := {|
  EmailAccounts := [
    {| ID := "primary"; Name := "Primary Gmail"; Provider := "gmail";
       ClientID := ""; ClientSecret := ""; Token := ""; Enabled := true |} ];
  Poll := {|
    Interval := 5 * Minute;
    Rules := [
      {| SubjectContains := "job opportunity"; Action := "label";
         Label := "imp" |} ]
  |}
|}.

End config.

(** ** The IMAP library's data

    The parts of [github.com/emersion/go-imap] the program reads. *)

Module imap.

(** [imap.Address]. *)
Record Address : Type := {
  PersonalName : string;
  MailboxName : string;
  HostName : string
}.

(** [imap.Envelope]. [From] is a slice of pointers: [None] is a nil
    pointer. *)
Record Envelope : Type := {
  Date : Z;
  Subject : string;
  From_ : list (option Address)
}.

(** [imap.Message]; the field [Envelope] is a pointer, nil when the
    server's answer held no envelope. *)
Record Message : Type := {
  Envelope_ : option Envelope;
  Flags : list string;
  Uid : N
}.

End imap.

(** ** Package [email] *)

Module email.

Record Email : Type := {
  UID : N;
  Subject : string;
  From_ : string;
  Date : Z;
  Flags : list string
}.

(** The connection [client.DialTLS] returns. *)
Record IMAPClient : Type := { server : string }.

(** [GmailClient]. [client] is [None] for the nil pointer, that is,
    until [Connect] has succeeded. [handle] is the address of the
    object. *)
Record GmailClient : Type := {
  handle : nat;
  client : option IMAPClient;
  oauth2Conf : string * string;
  token : string
}.

(** [NewGmailClient]: allocates the object at address [h]; its error
    result is always nil. *)
Definition NewGmailClient (clientID clientSecret tok : string) (h : nat)
  : GmailClient * option error :=
  ({| handle := h; client := None;
      oauth2Conf := (clientID, clientSecret); token := tok |}, None).

(** [Connect]; [dial] is what [client.DialTLS] answers. *)
Definition Connect (dial : option string) (g : GmailClient)
  : GmailClient * option error :=
  match dial with
  | Some e =>
      (g, Some (wrapError "failed to connect to IMAP server" (errorString e)))
  | None =>
      ({| handle := handle g;
          client := Some {| server := "imap.gmail.com:993" |};
          oauth2Conf := oauth2Conf g; token := token g |}, None)
  end.

(** [Authenticate]; [auth] is what the server answers. *)
Definition Authenticate (auth : option string) (g : GmailClient)
  : option error :=
  match client g with
  | None => Some (errorString "client not connected")
  | Some _ =>
      match auth with
      | Some e => Some (wrapError "authentication failed" (errorString e))
      | None => None
      end
  end.

(** [ApplyLabel]; [store] is what the server answers to the STORE. *)
Definition ApplyLabel (store : option string) (g : GmailClient)
    (uid : N) (label : string) : option error :=
  match client g with
  | None => Some (errorString "client not connected")
  | Some _ => errorString <$> store
  end.

(** [Close]; [logout] is what the server answers to the LOGOUT. *)
Definition Close (logout : option string) (g : GmailClient) : option error :=
  match client g with
  | None => None
  | Some _ => errorString <$> logout
  end.

(** [formatAddresses]: the first address of the list, with its display
    name when it has one. [fmt.Sprintf] with [%s] verbs concatenates. *)
Definition formatAddresses (addrs : list (option imap.Address))
  : result string :=
  match addrs with
  | [] => Value ""
  | None :: _ => Panic "nil pointer dereference"
  | Some addr :: _ =>
      if negb (String.eqb (imap.PersonalName addr) "") then
        Value (imap.PersonalName addr +:+ " <" +:+ imap.MailboxName addr +:+
               "@" +:+ imap.HostName addr +:+ ">")
      else Value (imap.MailboxName addr +:+ "@" +:+ imap.HostName addr)
  end.

(** The commands [FetchNewEmails] sends over the connection. *)
Inductive Command : Type :=
| CmdSelect (mailbox : string) (readOnly : bool)
| CmdSearch (since : Z)
| CmdFetch (seqs : list N).

(** What the server answers during one [FetchNewEmails]: to the SELECT,
    to the SEARCH (the numbers found), and to the FETCH (the messages it
    delivers on the channel before the channel is closed, and the error
    [client.Fetch] returns). *)
Record FetchEnv : Type := {
  selectErr : option string;
  searchAnswer : string + list N;
  fetchedMessages : list imap.Message;
  fetchErr : option string
}.

(** The body of the loop over the delivered messages. *)
Definition toEmail (msg : imap.Message) : result Email :=
  match imap.Envelope_ msg with
  | None => Panic "nil pointer dereference"
  | Some envelope =>
      match formatAddresses (imap.From_ envelope) with
      | Panic m => Panic m
      | Value from =>
          Value {| UID := imap.Uid msg; Subject := imap.Subject envelope;
                   From_ := from; Date := imap.Date envelope;
                   Flags := imap.Flags msg |}
      end
  end.

(** The loop [for msg := range messages]. *)
Fixpoint toEmails (messages : list imap.Message) : result (list Email) :=
  match messages with
  | [] => Value []
  | msg :: messages' =>
      match toEmail msg with
      | Panic m => Panic m
      | Value e =>
          match toEmails messages' with
          | Panic m => Panic m
          | Value emails => Value (e :: emails)
          end
      end
  end.

(** [FetchNewEmails] once the client is known to be connected: the
    select, search and fetch exchange with the server. The result is the
    pair the method returns ([nil, nil] is [inr []]) and the commands
    sent, in order. *)
Definition exchange (env : FetchEnv) (since : Z)
  : result (error + list Email) * list Command :=
  match selectErr env with
  | Some e =>
      (Value (inl (wrapError "failed to select inbox" (errorString e))),
       [CmdSelect "INBOX" false])
  | None =>
      match searchAnswer env with
      | inl e =>
          (Value (inl (wrapError "search failed" (errorString e))),
           [CmdSelect "INBOX" false; CmdSearch since])
      | inr [] => (Value (inr []), [CmdSelect "INBOX" false; CmdSearch since])
      | inr uids =>
          (match toEmails (fetchedMessages env) with
           | Panic m => Panic m
           | Value emails =>
               match fetchErr env with
               | Some e =>
                   Value (inl (wrapError "fetch failed" (errorString e)))
               | None => Value (inr emails)
               end
           end,
           [CmdSelect "INBOX" false; CmdSearch since; CmdFetch uids])
      end
  end.

(** [FetchNewEmails]: the pair it returns, or the panic it ends in, and
    the commands it has sent. The method never looks at its [ctx]
    argument, which is left out. *)
Definition FetchNewEmails (env : FetchEnv) (g : GmailClient) (since : Z)
  : result (error + list Email) * list Command :=
  match client g with
  | None => (Value (inl (errorString "client not connected")), [])
  | Some _ => exchange env since
  end.

End email.

(** ** Package [scheduler]: data *)

Module scheduler.

Import config email.

(** A [chan struct{}] nobody sends on: all that matters is whether it
    has been closed. *)
Inductive chan : Type := chanOpen | chanClosed.

#[global] Instance chan_eq_dec : EqDecision chan.
Proof. solve_decision. Defined.

Record AccountState : Type := {
  lastSync : Z;
  isActive : bool;
  stopChan : chan;
  client : option GmailClient
}.

(** [EmailPoller]. The map holds one heap object per key and is never
    changed after construction, so the pointer is identified with the
    object it points to. The mutex [mu] has no field: a block of code
    that holds it is one atomic step of the model. *)
Record EmailPoller : Type := {
  config : Config;
  accountState : gmap string AccountState
}.

(** The lines [log.Printf] writes. *)
Inductive LogLine : Type :=
| LogDisabled (id name : string)
| LogCloseError (err : error)
| LogInitialPollFailed (id : string) (err : error)
| LogPollFailed (id : string) (err : error)
| LogApplyFailed (uid : N) (err : error)
| LogApplied (label subject : string).

(** What the scheduler does to the outside, in program order: the
    methods of [GmailClient] it invokes, on the session at address [h],
    and the lines it logs. *)
Inductive Event : Type :=
| CallNewGmailClient (h : nat)
| CallConnect (h : nat)
| CallAuthenticate (h : nat)
| CallFetchNewEmails (h : nat) (since : Z)
| CallApplyLabel (h : nat) (uid : N) (label : string)
| CallClose (h : nat)
| Log (l : LogLine).

(** The outside: the events so far, the clock [time.Now] reads, and the
    next free address. *)
Record World : Type := {
  trace : list Event;
  clock : Z;
  nextHandle : nat
}.

(** What the outside answers during one poll cycle: to the dial, to
    the authentication, during [FetchNewEmails], and to the label
    requests ([storeErr i j] is the answer to the request for message
    [i] and rule [j]). [elapsed] is the time the cycle's network calls
    take, a duration that is not negative: the clock does not run
    backwards. *)
Record PollEnv : Type := {
  dialErr : option string;
  authErr : option string;
  fetch : FetchEnv;
  storeErr : nat -> nat -> option string;
  elapsed : N
}.

(** What the exchange of [FetchNewEmails] ends in under [env]; the
    [since] argument plays no part in it (it only shows in the SEARCH
    command). *)
Definition fetchAnswer (env : PollEnv) : result (error + list Email) :=
  (exchange (fetch env) 0).1.

(** What the outside answers during [Stop]: the LOGOUT answer for the
    session of each account. *)
Record StopEnv : Type := {
  logoutErr : string -> option string
}.

(** The case a [select] of the polling loop takes. [TickerC waited env]
    is a tick of the ticker after the loop has waited for [waited], with
    the answers [env] to the poll that follows. *)
Inductive selected : Type :=
| CtxDone (err : error)
| StopChan
| TickerC (waited : N) (env : PollEnv).

(** Whether a block of code falls through to the next statement or
    leaves the function. *)
Inductive flow : Type :=
| Continue
| Exit (o : outcome).

(** A goroutine [Start] spawned for [account], by how far it got in
    [pollAccount]. *)
Inductive Goroutine : Type :=
| Spawned (account : EmailAccount)
| Entered (account : EmailAccount)
| Waiting (account : EmailAccount)
| Exited (account : EmailAccount) (err : option error).

(** The process while [Start] runs. [ctxErr] is [ctx.Err()]; [errChan]
    holds the errors sent so far, oldest first; [panicked] is set when
    a goroutine panicked, which ends the process. *)
Record Machine : Type := {
  poller : EmailPoller;
  world : World;
  ctxErr : option error;
  goroutines : list Goroutine;
  errChan : list error;
  panicked : option string
}.

(** One step of the process: goroutine [i] runs its next block, or
    the signal handler calls [cancel], or some goroutine calls [Stop]. *)
Inductive Step : Type :=
| StepEnter (i : nat)
| StepInitialPoll (i : nat) (env : PollEnv)
| StepSelect (i : nat) (sel : selected)
| StepCancel
| StepStop (order : list string) (env : StopEnv).

(** *** Field updates *)

Definition set_lastSync (t : Z) (s : AccountState) : AccountState :=
  {| lastSync := t; isActive := isActive s; stopChan := stopChan s;
     client := client s |}.

Definition set_isActive (b : bool) (s : AccountState) : AccountState :=
  {| lastSync := lastSync s; isActive := b; stopChan := stopChan s;
     client := client s |}.

Definition set_stopChan (c : chan) (s : AccountState) : AccountState :=
  {| lastSync := lastSync s; isActive := isActive s; stopChan := c;
     client := client s |}.

Definition set_client (c : option GmailClient) (s : AccountState)
  : AccountState :=
  {| lastSync := lastSync s; isActive := isActive s; stopChan := stopChan s;
     client := c |}.

(** Writing through the pointer [p.accountState[id]]. *)
Definition setState (id : string) (s : AccountState) (p : EmailPoller)
  : EmailPoller :=
  {| config := config p; accountState := <[id := s]> (accountState p) |}.

Definition emit (evs : list Event) (w : World) : World :=
  {| trace := trace w ++ evs; clock := clock w; nextHandle := nextHandle w |}.

Definition advance (d : N) (w : World) : World :=
  {| trace := trace w; clock := clock w + Z.of_N d;
     nextHandle := nextHandle w |}.

Definition alloc (w : World) : World :=
  {| trace := trace w; clock := clock w; nextHandle := S (nextHandle w) |}.

(** [context.Canceled]. *)
Definition Canceled : error := errorString "context canceled".

(** *** Sample data *)

Definition acct (id : string) (on : bool) : EmailAccount :=
  {| ID := id; Name := id; Provider := "gmail"; ClientID := "";
     ClientSecret := ""; Token := ""; Enabled := on |}.

Definition threeAccounts : Config :=
  {| EmailAccounts := [acct "a" true; acct "b" true; acct "c" true];
     Poll := Poll DefaultConfig |}.

Definition twiceSame : Config :=
  {| EmailAccounts := [acct "a" true; acct "a" true];
     Poll := Poll DefaultConfig |}.

Definition mail (uid : N) (subject : string) : Email :=
  {| UID := uid; Subject := subject; From_ := "x@example.org"; Date := 0;
     Flags := [] |}.

Definition inbox : list Email :=
  [mail 7 "Job Opportunity at Acme"; mail 8 "Lunch plans"].

Definition world0 : World := {| trace := []; clock := 100; nextHandle := 0 |}.

(** The sender of the sample messages. *)
Definition sender : imap.Address :=
  {| imap.PersonalName := ""; imap.MailboxName := "x";
     imap.HostName := "example.org" |}.

(** The message the server holds for [e], from [sender]. *)
Definition letter (e : Email) : imap.Message :=
  {| imap.Envelope_ :=
       Some {| imap.Date := Date e; imap.Subject := Subject e;
               imap.From_ := [Some sender] |};
     imap.Flags := Flags e; imap.Uid := UID e |}.

(** A message that came without its envelope. *)
Definition bare (uid : N) : imap.Message :=
  {| imap.Envelope_ := None; imap.Flags := []; imap.Uid := uid |}.

(** The server finds and delivers [messages]. *)
Definition delivers (messages : list imap.Message) : FetchEnv :=
  {| selectErr := None; searchAnswer := inr (imap.Uid <$> messages);
     fetchedMessages := messages; fetchErr := None |}.

(** Every network call succeeds and the fetch returns [emails]. *)
Definition envOk (emails : list Email) (d : N) : PollEnv :=
  {| dialErr := None; authErr := None; fetch := delivers (letter <$> emails);
     storeErr := fun _ _ => None; elapsed := d |}.

(** The server cannot be reached. *)
Definition envNoDial (d : N) : PollEnv :=
  {| dialErr := Some "dial tcp: i/o timeout"; authErr := None;
     fetch := delivers []; storeErr := fun _ _ => None; elapsed := d |}.

(** The server refuses the credentials. *)
Definition envNoAuth (d : N) : PollEnv :=
  {| dialErr := None; authErr := Some "Invalid credentials";
     fetch := delivers []; storeErr := fun _ _ => None; elapsed := d |}.

(** The fetch fails: the SEARCH is answered by an error. *)
Definition envNoFetch (d : N) : PollEnv :=
  {| dialErr := None; authErr := None;
     fetch :=
       {| selectErr := None; searchAnswer := inl "i/o timeout";
          fetchedMessages := []; fetchErr := None |};
     storeErr := fun _ _ => None; elapsed := d |}.

(** The fetch returns [emails] and every label request fails. *)
Definition envNoStore (emails : list Email) (d : N) : PollEnv :=
  {| dialErr := None; authErr := None; fetch := delivers (letter <$> emails);
     storeErr := fun _ _ => Some "STORE failed"; elapsed := d |}.

(** The server delivers a message without its envelope. *)
Definition envBare (d : N) : PollEnv :=
  {| dialErr := None; authErr := None; fetch := delivers [bare 9];
     storeErr := fun _ _ => None; elapsed := d |}.

Definition stopEnvOk : StopEnv := {| logoutErr := fun _ => None |}.

Definition session0 : GmailClient :=
  {| handle := 0; email.client := Some {| server := "imap.gmail.com:993" |};
     oauth2Conf := ("", ""); token := "" |}.

Definition twoRules : list Rule :=
  [ {| SubjectContains := "job opportunity"; Action := "label"; Label := "imp" |};
    {| SubjectContains := ""; Action := "label"; Label := "all" |} ].

(** The account of [DefaultConfig]. *)
Definition primary : EmailAccount :=
  {| ID := "primary"; Name := "Primary Gmail"; Provider := "gmail";
     ClientID := ""; ClientSecret := ""; Token := ""; Enabled := true |}.

(** [DefaultConfig] with a second rule, whose fragment is empty. *)
Definition demoConfig : Config :=
  {| EmailAccounts := [primary];
     Poll := {| Interval := 5 * Minute; Rules := twoRules |} |}.

(** The poller of [DefaultConfig] after the loop of ["primary"] has
    started and its initial poll could not connect. *)
Definition activeNoSession : EmailPoller :=
  {| config := DefaultConfig;
     accountState :=
       {[ "primary" :=
            {| lastSync := 0; isActive := true; stopChan := chanOpen;
               client := None |} ]} |}.

(** The same after an initial poll that succeeded at time 105. *)
Definition activeWithSession : EmailPoller :=
  {| config := DefaultConfig;
     accountState :=
       {[ "primary" :=
            {| lastSync := 105; isActive := true; stopChan := chanOpen;
               client := Some session0 |} ]} |}.

(** Three loops start, poll once with success and wait; the context is
    cancelled; each loop takes the cancellation case. *)
Definition cancelThree : list Step :=
  [ StepEnter 0; StepEnter 1; StepEnter 2;
    StepInitialPoll 0 (envOk [] 1); StepInitialPoll 1 (envOk [] 1);
    StepInitialPoll 2 (envOk [] 1);
    StepCancel;
    StepSelect 0 (CtxDone Canceled); StepSelect 1 (CtxDone Canceled);
    StepSelect 2 (CtxDone Canceled) ].

(** The first seven steps of [cancelThree]: all three loops wait and the
    context has just been cancelled. *)
Definition cancelledWaiting : list Step := take 7 cancelThree.

(** What the first goroutine does between the two starts of ["a"]. *)
Definition firstLoopRuns : list Step :=
  [ StepInitialPoll 0 (envOk inbox 1);
    StepSelect 0 (TickerC 300 (envNoFetch 2)) ].

(** An enabled account and one that is not. *)
Definition oneOff : Config :=
  {| EmailAccounts := [acct "a" true; acct "off" false];
     Poll := Poll DefaultConfig |}.

(** The rule of [DefaultConfig] with another action. *)
Definition deleteConfig : Config :=
  {| EmailAccounts := [primary];
     Poll :=
       {| Interval := 5 * Minute;
          Rules :=
            [ {| SubjectContains := "job opportunity"; Action := "delete";
                 Label := "imp" |} ] |} |}.

(** A loop starts, polls once and waits. *)
Definition loopWaits : list Step :=
  [StepEnter 0; StepInitialPoll 0 (envOk inbox 5)].

(** The run of [main] that ends by a signal: the loop starts, polls and
    waits; the signal handler cancels the context; the loop takes the
    cancellation case. *)
Definition signalled : list Step :=
  loopWaits ++ [StepCancel; StepSelect 0 (CtxDone Canceled)].

(** Two ticks at which the server refuses the credentials. *)
Definition refusedTwice : list selected :=
  [TickerC 300 (envNoAuth 1); TickerC 300 (envNoAuth 1)].

(** ** Package [scheduler]: operations *)

Section Scheduler.

Set Default Proof Using "Type".

(** [strings.ToLower], from Go's standard library: on ASCII it is
    [strings.asciiToLower], elsewhere it follows the Unicode tables. The
    scheduler is embedded over any such function. *)
Variable ToLower : string -> string.

(** [containsIgnoreCase]. *)
Definition containsIgnoreCase (s substr : string) : bool :=
  strings.Contains (ToLower s) (ToLower substr).

(** [NewEmailPoller]: one fresh state per configured account; a later
    account with the same ID replaces the entry of an earlier one. *)
Definition NewEmailPoller (cfg : Config) : EmailPoller :=
  {| config := cfg;
     accountState :=
       fold_left
         (fun m account =>
            <[ID account :=
                {| lastSync := 0; isActive := false; stopChan := chanOpen;
                   client := None |}]> m)
         (EmailAccounts cfg) ∅ |}.

(** The inner loop of [poll] over the rules, for message number [i];
    [j] is the number of the first rule of [rules]. A failed label
    request is logged and the loop goes on with the next rule. *)
Fixpoint applyRules (env : PollEnv) (c : GmailClient) (i : nat) (e : Email)
    (j : nat) (rules : list Rule) : list Event :=
  match rules with
  | [] => []
  | rule :: rules' =>
      (if containsIgnoreCase (Subject e) (SubjectContains rule) then
         [ CallApplyLabel (handle c) (UID e) (Label rule);
           match ApplyLabel (storeErr env i j) c (UID e) (Label rule) with
           | Some err => Log (LogApplyFailed (UID e) err)
           | None => Log (LogApplied (Label rule) (Subject e))
           end ]
       else [])
      ++ applyRules env c i e (S j) rules'
  end.

(** The outer loop of [poll] over the fetched messages; [i] is the number
    of the first message of [emails]. *)
Fixpoint processEmails (env : PollEnv) (c : GmailClient) (i : nat)
    (emails : list Email) (rules : list Rule) : list Event :=
  match emails with
  | [] => []
  | e :: emails' =>
      applyRules env c i e 0 rules ++ processEmails env c (S i) emails' rules
  end.

(** The block "Initialize client if needed" of [poll], entered when
    [state.client] is nil: the session that was set up, or the error
    [poll] returns. *)
Definition initClient (account : EmailAccount) (env : PollEnv) (w : World)
  : (error + GmailClient) * World :=
  let '(c, err) :=
    NewGmailClient (ClientID account) (ClientSecret account) (Token account)
      (nextHandle w) in
  let w := emit [CallNewGmailClient (handle c)] (alloc w) in
  match err with
  | Some err => (inl (wrapError "failed to create Gmail client" err), w)
  | None =>
      let '(c, err) := Connect (dialErr env) c in
      let w := emit [CallConnect (handle c)] w in
      match err with
      | Some err => (inl (wrapError "failed to connect to Gmail" err), w)
      | None =>
          let w := emit [CallAuthenticate (handle c)] w in
          match Authenticate (authErr env) c with
          | Some err =>
              (inl (wrapError "failed to authenticate with Gmail" err), w)
          | None => (inr c, w)
          end
      end
  end.

(** [poll], from the fetch on; [state] is the account's state at this
    point and [c] the session in [state.client]. *)
Definition fetchAndProcess (account : EmailAccount) (env : PollEnv)
    (since : Z) (c : GmailClient) (state : AccountState) (p : EmailPoller)
    (w : World) : outcome * EmailPoller * World :=
  let w := emit [CallFetchNewEmails (handle c) since] w in
  match (FetchNewEmails (fetch env) c since).1 with
  | Panic msg => (Panics msg, p, advance (elapsed env) w)
  | Value (inl err) =>
      (Returns (Some (wrapError "failed to fetch emails" err)), p,
       advance (elapsed env) w)
  | Value (inr emails) =>
      let w := emit (processEmails env c 0 emails (Rules (Poll (config p)))) w in
      let w := advance (elapsed env) w in
      (Returns None, setState (ID account) (set_lastSync (clock w) state) p, w)
  end.

(** [poll]: one polling operation for one account. *)
Definition poll (account : EmailAccount) (env : PollEnv) (p : EmailPoller)
    (w : World) : outcome * EmailPoller * World :=
  match accountState p !! ID account with
  | None => (Panics "nil pointer dereference", p, w)
  | Some state =>
      let since := lastSync state in
      match client state with
      | Some c => fetchAndProcess account env since c state p w
      | None =>
          match initClient account env w with
          | (inl err, w) => (Returns (Some err), p, advance (elapsed env) w)
          | (inr c, w) =>
              let state := set_client (Some c) state in
              fetchAndProcess account env since c state
                (setState (ID account) state p) w
          end
      end
  end.

(** The body of the loop of [Stop], over the keys in the order the
    [range] visits them. Closing a closed channel panics. *)
Fixpoint stopStates (env : StopEnv) (order : list string)
    (m : gmap string AccountState) (w : World)
  : outcome * gmap string AccountState * World :=
  match order with
  | [] => (Returns None, m, w)
  | id :: order' =>
      match m !! id with
      | None => stopStates env order' m w
      | Some state =>
          if isActive state then
            let w :=
              match client state with
              | Some c =>
                  let w := emit [CallClose (handle c)] w in
                  match Close (logoutErr env id) c with
                  | Some err => emit [Log (LogCloseError err)] w
                  | None => w
                  end
              | None => w
              end in
            match stopChan state with
            | chanClosed => (Panics "close of closed channel", m, w)
            | chanOpen =>
                stopStates env order'
                  (<[id := set_isActive false (set_stopChan chanClosed state)]> m)
                  w
            end
          else stopStates env order' m w
      end
  end.

(** [Stop]. Go visits the keys of a map in an order it does not
    specify: [order] is that order. *)
Definition Stop (order : list string) (env : StopEnv) (p : EmailPoller)
    (w : World) : outcome * EmailPoller * World :=
  let '(o, m, w) := stopStates env order (accountState p) w in
  (o, {| config := config p; accountState := m |}, w).

(** The orders a [range] over the states can take: every key once. *)
Definition rangeOrder (order : list string) (p : EmailPoller) : Prop :=
  NoDup order /\ list_to_set order = dom (accountState p).

(** [pollAccount], the test and set of [isActive] under the mutex. *)
Definition enter (account : EmailAccount) (p : EmailPoller)
  : flow * EmailPoller :=
  match accountState p !! ID account with
  | None => (Exit (Panics "nil pointer dereference"), p)
  | Some state =>
      if isActive state then
        (Exit (Returns (Some (errorString
           ("polling already active for account " +:+ ID account)))), p)
      else (Continue, setState (ID account) (set_isActive true state) p)
  end.

(** [pollAccount], from the creation of the ticker to the end of the
    initial poll. [time.NewTicker] panics when the configured interval is
    not positive; a failure of the poll is logged, nothing more. *)
Definition initialPoll (account : EmailAccount) (env : PollEnv)
    (p : EmailPoller) (w : World) : flow * EmailPoller * World :=
  match time.NewTicker (Interval (Poll (config p))) with
  | Some msg => (Exit (Panics msg), p, w)
  | None =>
      match poll account env p w with
      | (Returns (Some err), p, w) =>
          (Continue, p, emit [Log (LogInitialPollFailed (ID account) err)] w)
      | (Returns None, p, w) => (Continue, p, w)
      | (Panics msg, p, w) => (Exit (Panics msg), p, w)
      end
  end.

(** [pollAccount], one round of the [for]/[select] that took the case
    [sel]. *)
Definition selectRound (account : EmailAccount) (sel : selected)
    (p : EmailPoller) (w : World) : flow * EmailPoller * World :=
  match sel with
  | CtxDone err => (Exit (Returns (Some err)), p, w)
  | StopChan => (Exit (Returns None), p, w)
  | TickerC waited env =>
      match poll account env p (advance waited w) with
      | (Returns (Some err), p, w) =>
          (Continue, p, emit [Log (LogPollFailed (ID account) err)] w)
      | (Returns None, p, w) => (Continue, p, w)
      | (Panics msg, p, w) => (Exit (Panics msg), p, w)
      end
  end.

(** [pollAccount], the [for] loop over the cases its selects take, in
    order; [Continue] when the loop is still waiting after them. *)
Fixpoint pollLoop (account : EmailAccount) (sels : list selected)
    (p : EmailPoller) (w : World) : flow * EmailPoller * World :=
  match sels with
  | [] => (Continue, p, w)
  | sel :: sels' =>
      match selectRound account sel p w with
      | (Continue, p, w) => pollLoop account sels' p w
      | (Exit o, p, w) => (Exit o, p, w)
      end
  end.

(** [pollAccount] run by one goroutine with nothing else interleaved. *)
Definition pollAccount (account : EmailAccount) (init : PollEnv)
    (sels : list selected) (p : EmailPoller) (w : World)
  : flow * EmailPoller * World :=
  match enter account p with
  | (Exit o, p) => (Exit o, p, w)
  | (Continue, p) =>
      match initialPoll account init p w with
      | (Exit o, p, w) => (Exit o, p, w)
      | (Continue, p, w) => pollLoop account sels p w
      end
  end.

(** *** [Start]: the goroutines and the error channel *)

(** The goroutines [Start] spawns, one per enabled account, in the order
    of the configuration. *)
Definition spawn (cfg : Config) : list Goroutine :=
  Spawned <$> filter (fun account => Enabled account = true) (EmailAccounts cfg).

(** The lines [Start] logs for the accounts it skips. *)
Definition skipped (cfg : Config) : list Event :=
  flat_map
    (fun account =>
       if Enabled account then []
       else [Log (LogDisabled (ID account) (Name account))])
    (EmailAccounts cfg).

(** The process right after the first loop of [Start]; [ctx] is
    [ctx.Err()] at that time. *)
Definition started (ctx : option error) (p : EmailPoller) (w : World)
  : Machine :=
  {| poller := p; world := emit (skipped (config p)) w; ctxErr := ctx;
     goroutines := spawn (config p); errChan := []; panicked := None |}.

(** Goroutine [i] has run a block of [pollAccount] that ended in [f].
    When [pollAccount] returns an error, the goroutine sends it, wrapped,
    on [errChan] (which is buffered: the send never blocks). *)
Definition settle (i : nat) (account : EmailAccount) (f : flow)
    (next : Goroutine) (p : EmailPoller) (w : World) (m : Machine) : Machine :=
  match f with
  | Continue =>
      {| poller := p; world := w; ctxErr := ctxErr m;
         goroutines := <[i := next]> (goroutines m); errChan := errChan m;
         panicked := panicked m |}
  | Exit (Returns err) =>
      {| poller := p; world := w; ctxErr := ctxErr m;
         goroutines := <[i := Exited account err]> (goroutines m);
         errChan :=
           errChan m ++
           match err with
           | Some err =>
               [wrapError ("error polling account " +:+ ID account) err]
           | None => []
           end;
         panicked := panicked m |}
  | Exit (Panics msg) =>
      {| poller := p; world := w; ctxErr := ctxErr m;
         goroutines := goroutines m; errChan := errChan m;
         panicked := Some msg |}
  end.

(** Whether the case [sel] of the select can be taken: [ctx.Done()] is
    closed and [ctx.Err()] is [err]; the stop channel is closed; the
    ticker has fired (which time alone decides). *)
Definition ready (sel : selected) (account : EmailAccount) (m : Machine)
  : bool :=
  match sel with
  | CtxDone err => bool_decide (ctxErr m = Some err)
  | StopChan =>
      match accountState (poller m) !! ID account with
      | Some state =>
          match stopChan state with chanClosed => true | chanOpen => false end
      | None => false
      end
  | TickerC _ _ => true
  end.

(** One step of the process; [None] when the step cannot be taken. A
    step runs one block of a goroutine's [pollAccount] (the test and set
    of [isActive]; the ticker and the initial poll; one round of the
    select, with its poll) or one call of [Stop], with nothing
    interleaved: the schedules of the process are the orders of these
    blocks. *)
Definition step (s : Step) (m : Machine) : option Machine :=
  match panicked m with
  | Some _ => None
  | None =>
      match s with
      | StepEnter i =>
          match goroutines m !! i with
          | Some (Spawned account) =>
              let '(f, p) := enter account (poller m) in
              Some (settle i account f (Entered account) p (world m) m)
          | _ => None
          end
      | StepInitialPoll i env =>
          match goroutines m !! i with
          | Some (Entered account) =>
              let '(f, p, w) := initialPoll account env (poller m) (world m) in
              Some (settle i account f (Waiting account) p w m)
          | _ => None
          end
      | StepSelect i sel =>
          match goroutines m !! i with
          | Some (Waiting account) =>
              if ready sel account m then
                let '(f, p, w) := selectRound account sel (poller m) (world m) in
                Some (settle i account f (Waiting account) p w m)
              else None
          | _ => None
          end
      | StepCancel =>
          Some {| poller := poller m; world := world m;
                  ctxErr :=
                    match ctxErr m with
                    | None => Some Canceled
                    | Some err => Some err
                    end;
                  goroutines := goroutines m; errChan := errChan m;
                  panicked := panicked m |}
      | StepStop order env =>
          if bool_decide (rangeOrder order (poller m)) then
            let '(o, p, w) := Stop order env (poller m) (world m) in
            Some {| poller := p; world := w; ctxErr := ctxErr m;
                    goroutines := goroutines m; errChan := errChan m;
                    panicked :=
                      match o with
                      | Panics msg => Some msg
                      | Returns _ => None
                      end |}
          else None
      end
  end.

(** A schedule: the steps the process takes, in order. *)
Fixpoint run (steps : list Step) (m : Machine) : option Machine :=
  match steps with
  | [] => Some m
  | s :: steps' =>
      match step s m with
      | Some m' => run steps' m'
      | None => None
      end
  end.

Definition exited (g : Goroutine) : bool :=
  match g with
  | Exited _ _ => true
  | _ => false
  end.

(** What [Start] returns in the process [m]: the first error on
    [errChan]; nil once every goroutine has returned and the channel was
    closed empty; [None] while [Start] is still blocked on the channel. *)
Definition StartResult (m : Machine) : option outcome :=
  match panicked m with
  | Some msg => Some (Panics msg)
  | None =>
      match errChan m with
      | err :: _ => Some (Returns (Some err))
      | [] =>
          if forallb exited (goroutines m) then Some (Returns None) else None
      end
  end.

(** [Start] under the schedule [steps]. *)
Definition Start (steps : list Step) (ctx : option error) (p : EmailPoller)
    (w : World) : option (outcome * EmailPoller * World) :=
  m ← run steps (started ctx p w);
  o ← StartResult m;
  Some (o, poller m, world m).

(** *** Observations used in the statements *)

(** The label requests in a trace, oldest first: session, message and
    label of each. *)
Definition labelRequests (evs : list Event) : list (nat * N * string) :=
  omap
    (fun ev =>
       match ev with
       | CallApplyLabel h uid label => Some (h, uid, label)
       | _ => None
       end) evs.

(** The sessions [Close] was invoked on in a trace, oldest first. *)
Definition closeCalls (evs : list Event) : list nat :=
  omap (fun ev => match ev with CallClose h => Some h | _ => None end) evs.

(** The sessions created in a trace, oldest first. *)
Definition sessionsCreated (evs : list Event) : list nat :=
  omap
    (fun ev => match ev with CallNewGmailClient h => Some h | _ => None end)
    evs.

(** The session a call goes to; [None] for a log line. *)
Definition callTarget (ev : Event) : option nat :=
  match ev with
  | CallNewGmailClient h | CallConnect h | CallAuthenticate h
  | CallFetchNewEmails h _ | CallApplyLabel h _ _ | CallClose h => Some h
  | Log _ => None
  end.

(** Every call in the trace goes to the session at address [h]. *)
Definition onlyOn (h : nat) (evs : list Event) : Prop :=
  Forall (fun ev => forall h', callTarget ev = Some h' -> h' = h) evs.

(** The [Close] calls a [Stop] that visits the keys in [order] owes:
    one for each account that is active and holds a session. *)
Definition closesOwed (m : gmap string AccountState) (order : list string)
  : list nat :=
  omap
    (fun id =>
       match m !! id with
       | Some state => if isActive state then handle <$> client state else None
       | None => None
       end) order.

(** The rules that match a message, in declaration order. *)
Definition matching (e : Email) (rules : list Rule) : list Rule :=
  List.filter
    (fun rule => containsIgnoreCase (Subject e) (SubjectContains rule)) rules.

(** The label requests a cycle owes for [emails] on session [c]: for
    each message in the order fetched, one per matching rule in
    declaration order. *)
Definition requestsFor (c : GmailClient) (emails : list Email)
    (rules : list Rule) : list (nat * N * string) :=
  flat_map
    (fun e => (fun rule => (handle c, UID e, Label rule)) <$> matching e rules)
    emails.

(** The session [poll] sets up for [account] at address [h]. *)
Definition connected (account : EmailAccount) (h : nat) : GmailClient :=
  {| handle := h; email.client := Some {| server := "imap.gmail.com:993" |};
     oauth2Conf := (ClientID account, ClientSecret account);
     token := Token account |}.

(** The session a cycle works on: the one held, or the one it sets up. *)
Definition sessionOf (account : EmailAccount) (state : AccountState)
    (w : World) : GmailClient :=
  match client state with
  | Some c => c
  | None => connected account (nextHandle w)
  end.

(** The calls a cycle makes to obtain its session. *)
Definition setupEvents (state : AccountState) (w : World) : list Event :=
  match client state with
  | Some _ => []
  | None =>
      [CallNewGmailClient (nextHandle w); CallConnect (nextHandle w);
       CallAuthenticate (nextHandle w)]
  end.

(** The error of [poll] comes from setting up the session. *)
Definition sessionError (err : error) : Prop :=
  exists cause,
    err = wrapError "failed to create Gmail client" cause \/
    err = wrapError "failed to connect to Gmail" cause \/
    err = wrapError "failed to authenticate with Gmail" cause.

(** The account's session can be used by this cycle: the one held is
    connected, or none is held and connecting and authenticating will
    succeed. *)
Definition sessionAvailable (env : PollEnv) (state : AccountState) : Prop :=
  match client state with
  | Some c => is_Some (email.client c)
  | None => dialErr env = None /\ authErr env = None
  end.

(** No checkpoint lies in the future. *)
Definition timely (p : EmailPoller) (w : World) : Prop :=
  forall id state, accountState p !! id = Some state -> lastSync state <= clock w.

(** How the scheduler's state and the outside can have moved on between
    two moments: the configuration and the set of accounts are the same,
    a session once stored is still stored, a checkpoint is unchanged or
    was read off the clock in between, the trace was only extended, and
    the clock did not go back. *)
Definition evolves (p : EmailPoller) (w : World) (p' : EmailPoller)
    (w' : World) : Prop :=
  config p' = config p /\
  (forall id,
     match accountState p !! id with
     | None => accountState p' !! id = None
     | Some state =>
         exists state',
           accountState p' !! id = Some state' /\
           (forall c, client state = Some c -> client state' = Some c) /\
           (lastSync state' = lastSync state \/
            clock w <= lastSync state' <= clock w')
     end) /\
  clock w <= clock w' /\
  exists evs, trace w' = trace w ++ evs.

(** Every error a goroutine's [pollAccount] returned was sent, wrapped,
    on the error channel. *)
Definition reported (m : Machine) : Prop :=
  forall i account err,
    goroutines m !! i = Some (Exited account (Some err)) ->
    wrapError ("error polling account " +:+ ID account) err ∈ errChan m.

(** The error [pollAccount] returns for an account that is polled
    already. *)
Definition alreadyActive (account : EmailAccount) : error :=
  errorString ("polling already active for account " +:+ ID account).

(** No active account has its stop signal asserted already. *)
Definition stoppable (p : EmailPoller) : Prop :=
  forall id state,
    accountState p !! id = Some state -> isActive state = true ->
    stopChan state = chanOpen.


Definition isStop (s : Step) : bool :=
  match s with
  | StepStop _ _ => true
  | _ => false
  end.

(** The state an account is left in by a [Stop] that found it active. *)
Definition stopped (state : AccountState) : AccountState :=
  set_isActive false (set_stopChan chanClosed state).

(** Whether the fetch of a cycle answered by [env] panics: a message it
    was delivered has no envelope, or a nil first sender. *)
Definition fetchPanics (env : PollEnv) : bool :=
  match fetchAnswer env with
  | Panic _ => true
  | Value _ => false
  end.





(** The answers of the outside to the poll a step runs, if it runs
    one. *)
Definition stepEnv (s : Step) : option PollEnv :=
  match s with
  | StepInitialPoll _ env => Some env
  | StepSelect _ (TickerC _ env) => Some env
  | _ => None
  end.

(** A step whose poll, if it runs one, does not panic in the fetch. *)
Definition quietStep (s : Step) : bool :=
  match stepEnv s with
  | Some env => negb (fetchPanics env)
  | None => true
  end.

(** The account a goroutine runs [pollAccount] for. *)
Definition accountOf (g : Goroutine) : EmailAccount :=
  match g with
  | Spawned account | Entered account | Waiting account | Exited account _ =>
      account
  end.

(** The accounts [Start] starts a loop for. *)
Definition enabledAccounts (cfg : Config) : list EmailAccount :=
  filter (fun account => Enabled account = true) (EmailAccounts cfg).

(** The [since] arguments of the fetches in a trace, oldest first. *)
Definition fetchWindows (evs : list Event) : list Z :=
  omap
    (fun ev =>
       match ev with
       | CallFetchNewEmails _ since => Some since
       | _ => None
       end) evs.

(** Whether a cycle gets as far as the fetch: the account holds a
    session, or none and connecting and authenticating succeed. *)
Definition attemptsFetch (env : PollEnv) (state : AccountState) : bool :=
  match client state with
  | Some _ => true
  | None =>
      match dialErr env, authErr env with
      | None, None => true
      | _, _ => false
      end
  end.

(** The errors a goroutine has sent on the error channel: one when its
    [pollAccount] has returned an error, none otherwise. *)
Definition sends (g : Goroutine) : nat :=
  match g with
  | Exited _ (Some _) => 1
  | _ => 0
  end.

(** The sessions [Connect] was invoked on in a trace, oldest first. *)
Definition connectCalls (evs : list Event) : list nat :=
  omap (fun ev => match ev with CallConnect h => Some h | _ => None end) evs.

(** A tick whose poll reaches the server and is refused at
    authentication. *)
Definition refusedTick (sel : selected) : bool :=
  match sel with
  | TickerC _ env =>
      match dialErr env, authErr env with
      | None, Some _ => true
      | _, _ => false
      end
  | _ => false
  end.

(** The schedule in which the goroutines [first], [first + 1], ...,
    [count] of them, each take the stop case of their select. *)
Definition stopAll (first count : nat) : list Step :=
  (fun i => StepSelect i StopChan) <$> seq first count.

(** Two rules that differ at most in their [Action]. *)
Definition sameButAction (r1 r2 : Rule) : Prop :=
  SubjectContains r1 = SubjectContains r2 /\ Label r1 = Label r2.

(** *** [main]

    [main] builds the poller of [DefaultConfig], has a signal handler
    cancel the context on SIGINT or SIGTERM (the step [StepCancel]) and
    calls [Start]; it never calls [Stop]. When [Start] returns an error
    the process exits with status 1; when it returns nil, [main] returns
    and the status is 0; a panic ends the process with status 2. The
    lines [main] itself writes to the log are not part of the
    scheduler's trace and are left out. [None]: [Start] has not returned,
    or the schedule is not one of [main]. *)
Definition exitStatus (o : outcome) : Z :=
  match o with
  | Returns None => 0
  | Returns (Some _) => 1
  | Panics _ => 2
  end.

Definition main (steps : list Step) (w : World) : option Z :=
  if forallb (fun s => negb (isStop s)) steps then
    '(o, _, _) ← Start steps None (NewEmailPoller DefaultConfig) w;
    Some (exitStatus o)
  else None.

(** ** Properties *)

(** *** Substring search *)

Lemma HasPrefix_spec (s prefix : string) :
  strings.HasPrefix s prefix = true <-> exists suf, s = prefix +:+ suf.
Proof.
  revert s; induction prefix as [|a prefix IH]; intros s; cbn.
  - split; [intros _; by exists s | done].
  - destruct s as [|b s]; cbn.
    + split; [done | by intros [suf ?]].
    + rewrite andb_true_iff, Ascii.eqb_eq, IH. split.
      * intros [-> [suf ->]]. by exists suf.
      * intros [suf [= -> ->]]. split; [done | by exists suf].
Qed.

Lemma Contains_spec (s substr : string) :
  strings.Contains s substr = true <->
  exists pre suf, s = pre +:+ substr +:+ suf.
Proof.
  induction s as [|a s IH]; cbn.
  - rewrite orb_false_r, HasPrefix_spec. split.
    + intros [suf ->]. by exists "", suf.
    + intros [[|c pre] [suf E]]; [by exists suf | done].
  - rewrite orb_true_iff, HasPrefix_spec, IH. split.
    + intros [[suf E] | (pre & suf & ->)].
      * by exists "", suf.
      * by exists (String a pre), suf.
    + intros [[|c pre] [suf E]]; cbn in E.
      * left. by exists suf.
      * injection E as -> ->. right. by exists pre, suf.
Qed.

Lemma Contains_empty (s : string) : strings.Contains s "" = true.
Proof. by destruct s. Qed.

(** *** Construction *)

(** [NewEmailPoller] gives every configured account a fresh state and
    no other key one. *)
Lemma NewEmailPoller_fresh cfg id :
  accountState (NewEmailPoller cfg) !! id =
  if bool_decide (id ∈ ID <$> EmailAccounts cfg) then
    Some {| lastSync := 0; isActive := false; stopChan := chanOpen;
            client := None |}
  else None.
Proof.
  unfold NewEmailPoller. cbn.
  assert (forall accounts (m : gmap string AccountState),
    fold_left
      (fun m account =>
         <[ID account :=
             {| lastSync := 0; isActive := false; stopChan := chanOpen;
                client := None |}]> m) accounts m !! id =
    if bool_decide (id ∈ ID <$> accounts) then
      Some {| lastSync := 0; isActive := false; stopChan := chanOpen;
              client := None |}
    else m !! id) as Hfold.
  { induction accounts as [|account accounts IH]; intros m; [done|].
    cbn [fold_left]. rewrite IH. cbn [fmap list_fmap].
    destruct (decide (id ∈ ID <$> accounts)) as [Hin|Hnin].
    - rewrite !bool_decide_true; [done| |done]. apply elem_of_cons. by right.
    - rewrite (bool_decide_false _ Hnin).
      destruct (decide (id = ID account)) as [->|Hne].
      + rewrite lookup_insert_eq, bool_decide_true; [done|].
        apply elem_of_cons. by left.
      + rewrite lookup_insert_ne by done. rewrite bool_decide_false; [done|].
        rewrite elem_of_cons. by intros [?|?]. }
  rewrite Hfold. by destruct (bool_decide _).
Qed.

(** A new poller is timely on any clock at or after the zero time, and
    no stop signal in it is asserted. *)
Lemma NewEmailPoller_timely cfg w :
  0 <= clock w -> timely (NewEmailPoller cfg) w /\ stoppable (NewEmailPoller cfg).
Proof.
  intros Hw. split.
  - intros id st. rewrite NewEmailPoller_fresh.
    destruct (bool_decide _); [|done]. by intros [= <-].
  - intros id st. rewrite NewEmailPoller_fresh.
    destruct (bool_decide _); [|done]. by intros [= <-].
Qed.

(** *** One poll cycle *)

Lemma initClient_inl account env w err w1 :
  initClient account env w = (inl err, w1) ->
  sessionError err /\
  (exists evs, trace w1 = trace w ++ CallNewGmailClient (nextHandle w) :: evs) /\
  clock w1 = clock w /\ nextHandle w1 = S (nextHandle w) /\
  (is_Some (dialErr env) \/ is_Some (authErr env)).
Proof.
  unfold initClient, NewGmailClient, Connect, Authenticate, sessionError.
  destruct (dialErr env) as [cause|] eqn:Hd; cbn.
  - intros [= <- <-]; cbn. rewrite <- app_assoc.
    split_and!; eauto.
  - destruct (authErr env) as [cause|] eqn:Ha; cbn; [|done].
    intros [= <- <-]; cbn. rewrite <- !app_assoc.
    split_and!; eauto.
Qed.

Lemma initClient_inr account env w c w1 :
  initClient account env w = (inr c, w1) ->
  c = connected account (nextHandle w) /\
  trace w1 =
    trace w ++ [CallNewGmailClient (nextHandle w); CallConnect (nextHandle w);
                CallAuthenticate (nextHandle w)] /\
  clock w1 = clock w /\ nextHandle w1 = S (nextHandle w) /\
  dialErr env = None /\ authErr env = None.
Proof.
  unfold initClient, NewGmailClient, Connect, Authenticate.
  destruct (dialErr env) as [cause|] eqn:Hd; cbn; [done|].
  destruct (authErr env) as [cause|] eqn:Ha; cbn; [done|].
  intros [= <- <-]; cbn. by rewrite <- !app_assoc.
Qed.

Lemma initClient_ok account env w :
  dialErr env = None -> authErr env = None ->
  exists w1, initClient account env w = (inr (connected account (nextHandle w)), w1).
Proof.
  intros Hd Ha. unfold initClient, NewGmailClient, Connect, Authenticate.
  rewrite Hd; cbn. rewrite Ha. eauto.
Qed.

(** Splits the hypothesis [H], an equation on [poll] for an account
    whose state [Hst] gives, into the ways a cycle can go. *)
Ltac poll_split Hst H :=
  unfold poll in H; rewrite Hst in H;
  let Hc := fresh "Hc" in
  let Hi := fresh "Hi" in
  let Hf := fresh "Hf" in
  let c := fresh "c" in
  let msg := fresh "msg" in
  let err := fresh "err" in
  let w1 := fresh "w1" in
  let emails := fresh "emails" in
  match type of H with
  | context [client ?state] =>
      destruct (client state) as [c|] eqn:Hc;
      [| destruct (initClient _ _ _) as [[err|c] w1] eqn:Hi ]
  end;
  unfold fetchAndProcess in H;
  try (destruct (FetchNewEmails _ _ _).1 as [[err|emails]|msg] eqn:Hf);
  first [discriminate H | simplify_eq].

Lemma setState_same id state p :
  accountState p !! id = Some state -> setState id state p = p.
Proof.
  intros H. destruct p as [cfg m]; unfold setState; cbn in *.
  by rewrite insert_id.
Qed.

Lemma poll_missing account env p w :
  accountState p !! ID account = None ->
  poll account env p w = (Panics "nil pointer dereference", p, w).
Proof. intros H. unfold poll. by rewrite H. Qed.

(** What a cycle leaves alone, whatever its outcome. *)
Lemma poll_frame account env p w o p' w' :
  poll account env p w = (o, p', w') ->
  config p' = config p /\
  (forall id, id <> ID account -> accountState p' !! id = accountState p !! id) /\
  (forall state, accountState p !! ID account = Some state ->
     exists state',
       accountState p' !! ID account = Some state' /\
       isActive state' = isActive state /\
       stopChan state' = stopChan state /\
       (forall c, client state = Some c -> client state' = Some c) /\
       (lastSync state' = lastSync state \/
        o = Returns None /\ lastSync state' = clock w')) /\
  (accountState p !! ID account = None -> accountState p' = accountState p) /\
  (exists evs, trace w' = trace w ++ evs) /\
  clock w <= clock w' /\ (nextHandle w <= nextHandle w')%nat.
Proof.
  intros Hpoll.
  destruct (accountState p !! ID account) as [state|] eqn:Hst.
  2:{ rewrite poll_missing in Hpoll by done. injection Hpoll as <- <- <-.
      split_and!; try done. by exists []; rewrite app_nil_r. }
  poll_split Hst Hpoll; cbn [trace clock nextHandle emit advance alloc
    config accountState setState].
  all: try (apply initClient_inl in Hi as (_ & [evs0 Htr] & Hck & Hnh & _)).
  all: try (apply initClient_inr in Hi as (-> & Htr & Hck & Hnh & _ & _)).
  all: try rewrite Htr; try rewrite Hck; try rewrite Hnh.
  all: repeat apply conj.
  all: try reflexivity.
  all: try lia.
  all: try (intros; discriminate).
  all: try (rewrite <- ?app_assoc; eexists; reflexivity).
  all: try (intros id Hne; rewrite ?lookup_insert_ne by auto; reflexivity).
  all: intros ? [= <-]; eexists;
    (split; [first [exact Hst | rewrite lookup_insert_eq; reflexivity] |]);
    cbn; repeat apply conj; try reflexivity; try congruence; auto.
Qed.

(** What [FetchNewEmails] ends in: on a client that is not connected
    the "not connected" error, on a connected one what the exchange ends
    in, whatever the [since]. *)
Lemma exchange_since fenv since1 since2 :
  (exchange fenv since1).1 = (exchange fenv since2).1.
Proof.
  unfold exchange. destruct (selectErr fenv); [done|].
  by destruct (searchAnswer fenv) as [e|[|uid uids]].
Qed.

Lemma FetchNewEmails_connected env c since :
  is_Some (email.client c) ->
  (FetchNewEmails (fetch env) c since).1 = fetchAnswer env.
Proof.
  intros [conn Hc]. unfold FetchNewEmails, fetchAnswer. rewrite Hc.
  apply exchange_since.
Qed.

Lemma FetchNewEmails_unconnected fenv c since :
  email.client c = None ->
  (FetchNewEmails fenv c since).1 =
  Value (inl (errorString "client not connected")).
Proof. intros Hc. unfold FetchNewEmails. by rewrite Hc. Qed.

Lemma connected_is_Some account h : is_Some (email.client (connected account h)).
Proof. cbn. eauto. Qed.

(** A cycle panics only inside the fetch. *)
Lemma poll_panics account env p w state msg :
  accountState p !! ID account = Some state ->
  (poll account env p w).1.1 = Panics msg ->
  fetchAnswer env = Panic msg.
Proof.
  intros Hst Hpoll.
  destruct (poll account env p w) as [[o p'] w'] eqn:H. cbn in Hpoll. subst o.
  poll_split Hst H.
  - destruct (email.client c) as [conn|] eqn:Hconn.
    + rewrite FetchNewEmails_connected in Hf by eauto. done.
    + by rewrite FetchNewEmails_unconnected in Hf.
  - apply initClient_inr in Hi as (-> & _).
    by rewrite FetchNewEmails_connected in Hf by apply connected_is_Some.
Qed.

Lemma poll_returns account env p w state :
  accountState p !! ID account = Some state ->
  (forall msg, fetchAnswer env <> Panic msg) ->
  exists err, (poll account env p w).1.1 = Returns err.
Proof.
  intros Hst Hquiet.
  destruct (poll account env p w).1.1 as [err|msg] eqn:Ho; [eauto|].
  by apply (poll_panics _ _ _ _ _ _ Hst), Hquiet in Ho.
Qed.

(** A cycle whose session is available and whose fetch succeeds: what
    it returns and what it leaves behind. *)
Lemma poll_ok account env p w state emails :
  accountState p !! ID account = Some state ->
  sessionAvailable env state ->
  fetchAnswer env = Value (inr emails) ->
  let c := sessionOf account state w in
  exists p' w',
    poll account env p w = (Returns None, p', w') /\
    config p' = config p /\
    accountState p' =
      <[ID account :=
          set_lastSync (clock w + Z.of_N (elapsed env))
            (set_client (Some c) state)]> (accountState p) /\
    trace w' =
      trace w ++ setupEvents state w ++
      CallFetchNewEmails (handle c) (lastSync state) ::
      processEmails env c 0 emails (Rules (Poll (config p))) /\
    clock w' = clock w + Z.of_N (elapsed env).
Proof.
  intros Hst Hav Hfetch c. subst c.
  unfold sessionAvailable, sessionOf, setupEvents in *.
  unfold poll. rewrite Hst.
  destruct (client state) as [c|] eqn:Hc.
  - unfold fetchAndProcess. rewrite FetchNewEmails_connected, Hfetch by done.
    do 2 eexists. split; [reflexivity|]. cbn.
    split_and!; try reflexivity.
    + f_equal. destruct state; cbn in *; by subst.
    + by rewrite <- app_assoc.
  - destruct Hav as [Hd Ha].
    destruct (initClient_ok account env w Hd Ha) as [w1 Hi]. rewrite Hi.
    apply initClient_inr in Hi as (_ & Htr & Hck & Hnh & _).
    unfold fetchAndProcess.
    rewrite FetchNewEmails_connected, Hfetch by apply connected_is_Some.
    do 2 eexists. split; [reflexivity|]. cbn.
    rewrite Htr, Hck. split_and!; try reflexivity.
    + by rewrite insert_insert_eq.
    + by rewrite <- !app_assoc.
Qed.

(** Conversely, a cycle returns nil only that way. *)
Lemma poll_ok_inv account env p w state p' w' :
  accountState p !! ID account = Some state ->
  poll account env p w = (Returns None, p', w') ->
  sessionAvailable env state /\ exists emails, fetchAnswer env = Value (inr emails).
Proof.
  intros Hst Hpoll. unfold sessionAvailable.
  unfold poll in Hpoll. rewrite Hst in Hpoll.
  destruct (client state) as [c|] eqn:Hc.
  - unfold fetchAndProcess in Hpoll.
    destruct (email.client c) as [conn|] eqn:Hconn.
    + rewrite FetchNewEmails_connected in Hpoll by eauto.
      destruct (fetchAnswer env) as [[err|emails]|msg]; try done. eauto.
    + by rewrite FetchNewEmails_unconnected in Hpoll.
  - destruct (initClient account env w) as [[err|c] w1] eqn:Hi; [done|].
    apply initClient_inr in Hi as (-> & _ & _ & _ & Hd & Ha).
    unfold fetchAndProcess in Hpoll.
    rewrite FetchNewEmails_connected in Hpoll by apply connected_is_Some.
    destruct (fetchAnswer env) as [[err|emails]|msg]; try done. eauto.
Qed.

(** A cycle whose session is available and whose fetch fails. *)
Lemma poll_fetch_failed account env p w state err :
  accountState p !! ID account = Some state ->
  sessionAvailable env state ->
  fetchAnswer env = Value (inl err) ->
  exists p' w',
    poll account env p w =
      (Returns (Some (wrapError "failed to fetch emails" err)), p', w') /\
    accountState p' =
      <[ID account := set_client (Some (sessionOf account state w)) state]>
        (accountState p) /\
    clock w' = clock w + Z.of_N (elapsed env).
Proof.
  intros Hst Hav Hfetch.
  unfold sessionAvailable, sessionOf in *. unfold poll. rewrite Hst.
  destruct (client state) as [c|] eqn:Hc.
  - unfold fetchAndProcess. rewrite FetchNewEmails_connected, Hfetch by done.
    do 2 eexists. split; [reflexivity|]. cbn. split; [|done].
    rewrite insert_id; [done|]. rewrite Hst. f_equal.
    destruct state; cbn in *; by subst.
  - destruct Hav as [Hd Ha].
    destruct (initClient_ok account env w Hd Ha) as [w1 Hi]. rewrite Hi.
    apply initClient_inr in Hi as (_ & Htr & Hck & Hnh & _).
    unfold fetchAndProcess.
    rewrite FetchNewEmails_connected, Hfetch by apply connected_is_Some.
    do 2 eexists. split; [reflexivity|]. cbn. by rewrite Hck.
Qed.

(** A cycle whose session is available and whose fetch panics. *)
Lemma poll_fetch_panicked account env p w state msg :
  accountState p !! ID account = Some state ->
  sessionAvailable env state ->
  fetchAnswer env = Panic msg ->
  exists p' w',
    poll account env p w = (Panics msg, p', w') /\
    accountState p' =
      <[ID account := set_client (Some (sessionOf account state w)) state]>
        (accountState p).
Proof.
  intros Hst Hav Hfetch.
  unfold sessionAvailable, sessionOf in *. unfold poll. rewrite Hst.
  destruct (client state) as [c|] eqn:Hc.
  - unfold fetchAndProcess. rewrite FetchNewEmails_connected, Hfetch by done.
    do 2 eexists. split; [reflexivity|]. cbn.
    rewrite insert_id; [done|]. rewrite Hst. f_equal.
    destruct state; cbn in *; by subst.
  - destruct Hav as [Hd Ha].
    destruct (initClient_ok account env w Hd Ha) as [w1 Hi]. rewrite Hi.
    unfold fetchAndProcess.
    rewrite FetchNewEmails_connected, Hfetch by apply connected_is_Some.
    do 2 eexists. split; reflexivity.
Qed.

(** A cycle that returns an error failed in the session set-up, with
    nothing stored, or in the fetch. *)
Lemma poll_err account env p w state err p' w' :
  accountState p !! ID account = Some state ->
  poll account env p w = (Returns (Some err), p', w') ->
  (sessionError err /\ client state = None /\ p' = p /\
   nextHandle w' = S (nextHandle w) /\
   exists evs, trace w' = trace w ++ CallNewGmailClient (nextHandle w) :: evs)
  \/
  (exists cause, err = wrapError "failed to fetch emails" cause).
Proof.
  intros Hst Hpoll. poll_split Hst Hpoll; eauto.
  apply initClient_inl in Hi as (Herr & Htr & _ & Hnh & _).
  left. by split_and!.
Qed.

Lemma sessionError_not_fetch cause :
  ~ sessionError (wrapError "failed to fetch emails" cause).
Proof. intros [c [H|[H|H]]]; discriminate. Qed.

(** A cycle on an account that holds no session begins by creating one. *)
Lemma poll_creates account env p w state :
  accountState p !! ID account = Some state ->
  client state = None ->
  exists evs,
    trace (poll account env p w).2 =
    trace w ++ CallNewGmailClient (nextHandle w) :: evs.
Proof.
  intros Hst Hc. unfold poll. rewrite Hst, Hc.
  destruct (initClient account env w) as [[err|c] w1] eqn:Hi.
  - apply initClient_inl in Hi as (_ & Htr & _). exact Htr.
  - apply initClient_inr in Hi as (-> & Htr & _).
    unfold fetchAndProcess.
    destruct (FetchNewEmails _ _ _).1 as [[err|emails]|msg]; cbn;
      rewrite Htr, <- ?app_assoc; eexists; reflexivity.
Qed.

(** *** Rule evaluation *)

Lemma containsIgnoreCase_spec (s frag : string) :
  containsIgnoreCase s frag = true <->
  exists pre suf, ToLower s = pre +:+ ToLower frag +:+ suf.
Proof. apply Contains_spec. Qed.

Lemma labelRequests_app evs1 evs2 :
  labelRequests (evs1 ++ evs2) = labelRequests evs1 ++ labelRequests evs2.
Proof. apply omap_app. Qed.

Lemma sessionsCreated_app evs1 evs2 :
  sessionsCreated (evs1 ++ evs2) = sessionsCreated evs1 ++ sessionsCreated evs2.
Proof. apply omap_app. Qed.

Lemma closeCalls_app evs1 evs2 :
  closeCalls (evs1 ++ evs2) = closeCalls evs1 ++ closeCalls evs2.
Proof. apply omap_app. Qed.

Lemma applyRules_requests env c i e j rules :
  labelRequests (applyRules env c i e j rules) =
  (fun rule => (handle c, UID e, Label rule)) <$> matching e rules.
Proof.
  revert j. induction rules as [|rule rules IH]; intros j; [done|].
  cbn [applyRules]. rewrite labelRequests_app, IH. unfold matching. cbn.
  destruct (containsIgnoreCase (Subject e) (SubjectContains rule)); [|done].
  cbn. by destruct (ApplyLabel _ _ _ _).
Qed.

Lemma processEmails_requests env c i emails rules :
  labelRequests (processEmails env c i emails rules) =
  requestsFor c emails rules.
Proof.
  revert i. induction emails as [|e emails IH]; intros i; [done|].
  cbn [processEmails]. rewrite labelRequests_app, applyRules_requests, IH.
  done.
Qed.

Lemma applyRules_quiet env c i e j rules :
  sessionsCreated (applyRules env c i e j rules) = [] /\
  closeCalls (applyRules env c i e j rules) = [] /\
  onlyOn (handle c) (applyRules env c i e j rules).
Proof.
  revert j. induction rules as [|rule rules IH]; intros j.
  { split_and!; try done; constructor. }
  cbn [applyRules]. destruct (IH (S j)) as (H1 & H2 & H3).
  rewrite sessionsCreated_app, closeCalls_app, H1, H2. unfold onlyOn.
  rewrite Forall_app.
  destruct (containsIgnoreCase (Subject e) (SubjectContains rule)).
  - destruct (ApplyLabel _ _ _ _); cbn; split_and!; try done;
      repeat constructor; cbn; congruence.
  - split_and!; try done; constructor.
Qed.

Lemma processEmails_quiet env c i emails rules :
  sessionsCreated (processEmails env c i emails rules) = [] /\
  closeCalls (processEmails env c i emails rules) = [] /\
  onlyOn (handle c) (processEmails env c i emails rules).
Proof.
  revert i. induction emails as [|e emails IH]; intros i.
  { split_and!; try done; constructor. }
  cbn [processEmails]. destruct (IH (S i)) as (H1 & H2 & H3).
  destruct (applyRules_quiet env c i e 0 rules) as (G1 & G2 & G3).
  rewrite sessionsCreated_app, closeCalls_app, H1, H2, G1, G2.
  split_and!; try done. by apply Forall_app.
Qed.

Lemma setupEvents_requests state w : labelRequests (setupEvents state w) = [].
Proof. unfold setupEvents. by destruct (client state). Qed.

(** *** [Stop] *)

(** What [Stop] leaves alone, whatever its outcome and the order. *)
Lemma stopStates_frame env order m w o m' w' id :
  stopStates env order m w = (o, m', w') ->
  match m !! id with
  | None => m' !! id = None
  | Some state =>
      exists state',
        m' !! id = Some state' /\
        lastSync state' = lastSync state /\
        client state' = client state /\
        (isActive state = false -> state' = state) /\
        (state' = state \/ state' = stopped state)
  end.
Proof.
  revert m w. induction order as [|k order IH]; intros m w Hstop; cbn in Hstop.
  { injection Hstop as <- <- <-. destruct (m !! id); eauto 10. }
  destruct (m !! k) as [st|] eqn:Hk; [|by eapply IH].
  destruct (isActive st) eqn:Hact; [|by eapply IH].
  destruct (stopChan st) eqn:Hch.
  2:{ injection Hstop as <- <- <-. destruct (m !! id); eauto 10. }
  apply IH in Hstop. destruct (decide (k = id)) as [->|Hne].
  - rewrite lookup_insert_eq in Hstop. rewrite Hk.
    destruct Hstop as (st' & Hl & Hs & Hc & Hin & _).
    specialize (Hin eq_refl). subst st'.
    eexists; split_and!; eauto. congruence.
  - by rewrite lookup_insert_ne in Hstop.
Qed.

(** [Stop] neither reads the clock nor creates a session nor labels. *)
Lemma stopStates_world env order m w o m' w' :
  stopStates env order m w = (o, m', w') ->
  clock w' = clock w /\ nextHandle w' = nextHandle w /\
  exists evs,
    trace w' = trace w ++ evs /\ sessionsCreated evs = [] /\
    labelRequests evs = [].
Proof.
  revert m w. induction order as [|k order IH]; intros m w Hstop; cbn in Hstop.
  { injection Hstop as <- <- <-. split_and!; try done.
    exists []. by rewrite app_nil_r. }
  destruct (m !! k) as [st|] eqn:Hk; [|by eapply IH].
  destruct (isActive st) eqn:Hact; [|by eapply IH].
  set (w1 := match client st with Some c => _ | None => w end) in Hstop.
  assert (clock w1 = clock w /\ nextHandle w1 = nextHandle w /\
          exists evs1, trace w1 = trace w ++ evs1 /\
            sessionsCreated evs1 = [] /\ labelRequests evs1 = [])
    as (G1 & G2 & evs1 & G3 & G4 & G5).
  { subst w1. destruct (client st) as [c|]; cbn.
    - destruct (Close (logoutErr env k) c); cbn; split_and!; try done.
      + exists [CallClose (handle c); Log (LogCloseError e)].
        by rewrite <- app_assoc.
      + by exists [CallClose (handle c)].
    - split_and!; try done. exists []. by rewrite app_nil_r. }
  destruct (stopChan st).
  - apply IH in Hstop as (H1 & H2 & evs & H3 & H4 & H5).
    split_and!; try congruence. exists (evs1 ++ evs).
    rewrite H3, G3, app_assoc, sessionsCreated_app, labelRequests_app, G4, G5, H4, H5.
    done.
  - injection Hstop as <- <- <-. split_and!; try done. by exists evs1.
Qed.

Lemma closesOwed_insert m k st order :
  k ∉ order -> closesOwed (<[k := st]> m) order = closesOwed m order.
Proof.
  induction order as [|id order IH]; [done|].
  rewrite not_elem_of_cons. intros [Hne Hnin]. unfold closesOwed in *. cbn.
  rewrite lookup_insert_ne by done. by rewrite IH.
Qed.

Lemma bool_decide_cons_ne (id k : string) (order : list string) :
  id <> k -> bool_decide (id ∈ k :: order) = bool_decide (id ∈ order).
Proof.
  intros Hne. apply bool_decide_ext. rewrite elem_of_cons.
  split; [by intros [?|?] | by right].
Qed.

(** A [Stop] that meets no closed channel returns, and what it does. *)
Lemma stopStates_ok env order m w :
  NoDup order ->
  (forall id state,
     m !! id = Some state -> isActive state = true -> stopChan state = chanOpen) ->
  exists m' w' evs,
    stopStates env order m w = (Returns None, m', w') /\
    trace w' = trace w ++ evs /\
    clock w' = clock w /\ nextHandle w' = nextHandle w /\
    closeCalls evs = closesOwed m order /\
    sessionsCreated evs = [] /\ labelRequests evs = [] /\
    forall id,
      m' !! id =
      (fun state =>
         if isActive state && bool_decide (id ∈ order) then stopped state
         else state) <$> m !! id.
Proof.
  intros Hnd. revert m w. induction Hnd as [|k order Hnin Hnd IH]; intros m w Hopen.
  { exists m, w, []. cbn. rewrite app_nil_r. split_and!; try done.
    intros id. destruct (m !! id) as [st|]; cbn; [|done].
    by rewrite andb_false_r. }
  cbn [stopStates]. unfold closesOwed. cbn [omap list_omap].
  fold (closesOwed m order).
  destruct (m !! k) as [st|] eqn:Hk.
  2:{ destruct (IH m w Hopen) as (m' & w' & evs & H1 & H2 & H3 & H4 & H5 & H6 & H7 & H8).
      exists m', w', evs. split_and!; try done.
      intros id. rewrite H8. destruct (m !! id) as [st|] eqn:Hid; cbn; [|done].
      destruct (decide (id = k)) as [->|Hne]; [congruence|].
      by rewrite bool_decide_cons_ne. }
  destruct (isActive st) eqn:Hact.
  2:{ destruct (IH m w Hopen) as (m' & w' & evs & H1 & H2 & H3 & H4 & H5 & H6 & H7 & H8).
      exists m', w', evs. split_and!; try done.
      intros id. rewrite H8. destruct (m !! id) as [st'|] eqn:Hid; cbn; [|done].
      destruct (decide (id = k)) as [->|Hne].
      - simplify_eq. by rewrite Hact.
      - by rewrite bool_decide_cons_ne. }
  rewrite (Hopen k st Hk Hact).
  set (w1 := match client st with Some c => _ | None => w end).
  assert (exists evs1, trace w1 = trace w ++ evs1 /\ clock w1 = clock w /\
            nextHandle w1 = nextHandle w /\
            closeCalls evs1 = from_option (fun h => [h]) [] (handle <$> client st) /\
            sessionsCreated evs1 = [] /\ labelRequests evs1 = [])
    as (evs1 & G1 & G2 & G3 & G4 & G5 & G6).
  { subst w1. destruct (client st) as [c|]; cbn.
    - destruct (Close (logoutErr env k) c); cbn.
      + exists [CallClose (handle c); Log (LogCloseError e)].
        by rewrite <- app_assoc.
      + by exists [CallClose (handle c)].
    - exists []. by rewrite app_nil_r. }
  destruct (IH (<[k := set_isActive false (set_stopChan chanClosed st)]> m) w1)
    as (m' & w' & evs & H1 & H2 & H3 & H4 & H5 & H6 & H7 & H8).
  { intros id state. destruct (decide (k = id)) as [->|Hne].
    - rewrite lookup_insert_eq. by intros [= <-].
    - rewrite lookup_insert_ne by done. apply Hopen. }
  exists m', w', (evs1 ++ evs). rewrite H1. split_and!; try done.
  - by rewrite H2, G1, app_assoc.
  - congruence.
  - congruence.
  - rewrite closeCalls_app, G4, H5, closesOwed_insert by done.
    by destruct (client st).
  - by rewrite sessionsCreated_app, G5, H6.
  - by rewrite labelRequests_app, G6, H7.
  - intros id. rewrite H8. destruct (decide (k = id)) as [->|Hne].
    + rewrite lookup_insert_eq, Hk. cbn. rewrite Hact. cbn.
      rewrite bool_decide_true by (apply elem_of_cons; by left). done.
    + rewrite lookup_insert_ne by done.
      destruct (m !! id) as [st'|]; cbn; [|done].
      by rewrite bool_decide_cons_ne by done.
Qed.


Lemma rangeOrder_elem order p id :
  rangeOrder order p -> id ∈ order <-> is_Some (accountState p !! id).
Proof.
  intros [_ Hdom]. by rewrite <- elem_of_dom, <- Hdom, elem_of_list_to_set.
Qed.

(** *** How the state moves on *)

Lemma evolves_refl p w : evolves p w p w.
Proof.
  split_and!; try done.
  - intros id. destruct (accountState p !! id); eauto.
  - exists []. by rewrite app_nil_r.
Qed.

Lemma evolves_trans p1 w1 p2 w2 p3 w3 :
  evolves p1 w1 p2 w2 -> evolves p2 w2 p3 w3 -> evolves p1 w1 p3 w3.
Proof.
  intros (Hc1 & Hs1 & Hk1 & evs1 & Ht1) (Hc2 & Hs2 & Hk2 & evs2 & Ht2).
  split_and!.
  - congruence.
  - intros id. specialize (Hs1 id). specialize (Hs2 id).
    destruct (accountState p1 !! id) as [st1|].
    + destruct Hs1 as (st2 & Hl2 & Hcl1 & Hls1). rewrite Hl2 in Hs2.
      destruct Hs2 as (st3 & Hl3 & Hcl2 & Hls2).
      exists st3. split_and!; [done|auto|lia].
    + by rewrite Hs1 in Hs2.
  - lia.
  - exists (evs1 ++ evs2). by rewrite Ht2, Ht1, app_assoc.
Qed.

(** Along [evolves] a timely state stays timely and no checkpoint
    decreases. *)
Lemma evolves_timely p w p' w' :
  evolves p w p' w' -> timely p w ->
  timely p' w' /\
  forall id state state',
    accountState p !! id = Some state -> accountState p' !! id = Some state' ->
    lastSync state <= lastSync state'.
Proof.
  intros (_ & Hs & Hk & _) Ht. split.
  - intros id st' Hl'. specialize (Hs id).
    destruct (accountState p !! id) as [st|] eqn:Hl; [|congruence].
    destruct Hs as (st2 & Hl2 & _ & Hls). simplify_eq.
    specialize (Ht id st Hl). lia.
  - intros id st st' Hl Hl'. specialize (Hs id). rewrite Hl in Hs.
    destruct Hs as (st2 & Hl2 & _ & Hls). simplify_eq.
    specialize (Ht id st Hl). lia.
Qed.

Lemma poll_evolves account env p w o p' w' :
  poll account env p w = (o, p', w') -> evolves p w p' w'.
Proof.
  intros Hpoll.
  destruct (poll_frame _ _ _ _ _ _ _ Hpoll)
    as (Hcfg & Hother & Hself & Hnone & Htr & Hck & _).
  split_and!; try done. intros id.
  destruct (decide (id = ID account)) as [->|Hne].
  - destruct (accountState p !! ID account) as [st|] eqn:Hst.
    + destruct (Hself st eq_refl) as (st' & Hl & _ & _ & Hcl & Hls).
      exists st'. split_and!; [done..|].
      destruct Hls as [?|[_ ->]]; [by left|right; lia].
    + by rewrite Hnone.
  - rewrite Hother by done. destruct (accountState p !! id); eauto.
Qed.

Lemma emit_evolves p w p' w' evs :
  evolves p w p' w' -> evolves p w p' (emit evs w').
Proof.
  intros (Hc & Hs & Hk & evs0 & Ht). split_and!; try done.
  exists (evs0 ++ evs). cbn. by rewrite Ht, app_assoc.
Qed.

Lemma advance_evolves p w d : evolves p w p (advance d w).
Proof.
  split_and!; try done.
  - intros id. destruct (accountState p !! id); eauto.
  - cbn. lia.
  - exists []. cbn. by rewrite app_nil_r.
Qed.

Lemma enter_evolves account p f p' w :
  enter account p = (f, p') -> evolves p w p' w.
Proof.
  unfold enter. intros Henter.
  destruct (accountState p !! ID account) as [st|] eqn:Hst.
  2:{ injection Henter as <- <-. apply evolves_refl. }
  destruct (isActive st).
  { injection Henter as <- <-. apply evolves_refl. }
  injection Henter as <- <-. split_and!; try done.
  - intros id. cbn. destruct (decide (id = ID account)) as [->|Hne].
    + rewrite Hst, lookup_insert_eq. eauto.
    + rewrite lookup_insert_ne by done. destruct (accountState p !! id); eauto.
  - exists []. by rewrite app_nil_r.
Qed.

Lemma initialPoll_evolves account env p w f p' w' :
  initialPoll account env p w = (f, p', w') -> evolves p w p' w'.
Proof.
  unfold initialPoll. intros H.
  destruct (time.NewTicker _) as [tmsg|].
  { injection H as <- <- <-. apply evolves_refl. }
  destruct (poll account env p w) as [[o p1] w1] eqn:Hpoll.
  apply poll_evolves in Hpoll.
  destruct o as [[err|]|msg]; injection H as <- <- <-; try done.
  by apply emit_evolves.
Qed.

Lemma selectRound_evolves account sel p w f p' w' :
  selectRound account sel p w = (f, p', w') -> evolves p w p' w'.
Proof.
  unfold selectRound. intros H. destruct sel as [err| |waited env].
  - injection H as <- <- <-. apply evolves_refl.
  - injection H as <- <- <-. apply evolves_refl.
  - destruct (poll account env p (advance waited w)) as [[o p1] w1] eqn:Hpoll.
    apply poll_evolves in Hpoll.
    eapply evolves_trans; [apply advance_evolves|].
    destruct o as [[err|]|msg]; injection H as <- <- <-; try done.
    by apply emit_evolves.
Qed.

Lemma Stop_evolves order env p w o p' w' :
  Stop order env p w = (o, p', w') -> evolves p w p' w'.
Proof.
  unfold Stop. intros H.
  destruct (stopStates env order (accountState p) w) as [[o1 m1] w1] eqn:Hs.
  injection H as <- <- <-. split_and!; try done.
  - intros id. pose proof (stopStates_frame _ _ _ _ _ _ _ id Hs) as Hf.
    cbn. destruct (accountState p !! id) as [st|]; [|done].
    destruct Hf as (st' & Hl & Hls & Hcl & _). exists st'.
    split_and!; [done| |by left]. intros c. by rewrite Hcl.
  - apply stopStates_world in Hs as (-> & _). done.
  - apply stopStates_world in Hs as (_ & _ & evs & Ht & _). by exists evs.
Qed.

(** *** The process *)

Lemma settle_poller i account f next p w m :
  poller (settle i account f next p w m) = p /\
  world (settle i account f next p w m) = w /\
  ctxErr (settle i account f next p w m) = ctxErr m.
Proof. by destruct f as [|[err|msg]]. Qed.

(** Splits the hypothesis [H : step s m = Some m'] by the step taken. *)
Ltac step_inv H :=
  let Hpan := fresh "Hpan" in
  let Hg := fresh "Hg" in
  let Hblock := fresh "Hblock" in
  let Hready := fresh "Hready" in
  let Hro := fresh "Hro" in
  unfold step in H;
  match type of H with
  | context [panicked ?m] => destruct (panicked m) eqn:Hpan; [discriminate|]
  end;
  match type of H with
  | context [match ?s with StepEnter _ => _ | _ => _ end] =>
      destruct s as [?i|?i ?env|?i ?sel| |?order ?env]
  end;
  [ destruct (goroutines _ !! _) as [[?account|?account|?account|?account ?err]|]
      eqn:Hg; try discriminate;
    destruct (enter _ _) as [?f ?p1] eqn:Hblock
  | destruct (goroutines _ !! _) as [[?account|?account|?account|?account ?err]|]
      eqn:Hg; try discriminate;
    destruct (initialPoll _ _ _ _) as [[?f ?p1] ?w1] eqn:Hblock
  | destruct (goroutines _ !! _) as [[?account|?account|?account|?account ?err]|]
      eqn:Hg; try discriminate;
    destruct (ready _ _ _) eqn:Hready; try discriminate;
    destruct (selectRound _ _ _ _) as [[?f ?p1] ?w1] eqn:Hblock
  |
  | destruct (bool_decide _) eqn:Hro; try discriminate;
    destruct (Stop _ _ _ _) as [[?o ?p1] ?w1] eqn:Hblock ];
  injection H as <-.

Lemma step_evolves s m m' :
  step s m = Some m' -> evolves (poller m) (world m) (poller m') (world m').
Proof.
  intros H. step_inv H.
  - destruct (settle_poller i account f (Entered account) p1 (world m) m)
      as (-> & -> & _). by eapply enter_evolves.
  - destruct (settle_poller i account f (Waiting account) p1 w1 m)
      as (-> & -> & _). by eapply initialPoll_evolves.
  - destruct (settle_poller i account f (Waiting account) p1 w1 m)
      as (-> & -> & _). by eapply selectRound_evolves.
  - apply evolves_refl.
  - cbn. by eapply Stop_evolves.
Qed.

Lemma run_evolves steps m m' :
  run steps m = Some m' -> evolves (poller m) (world m) (poller m') (world m').
Proof.
  revert m. induction steps as [|s steps IH]; intros m H; cbn in H.
  - injection H as <-. apply evolves_refl.
  - destruct (step s m) as [m1|] eqn:Hs; [|done].
    eapply evolves_trans; [by eapply step_evolves | by apply IH].
Qed.

Lemma run_app steps1 steps2 m :
  run (steps1 ++ steps2) m = run steps1 m ≫= run steps2.
Proof.
  revert m. induction steps1 as [|s steps1 IH]; intros m; cbn; [done|].
  destruct (step s m); cbn; [apply IH|done].
Qed.

Lemma enter_active account p state :
  accountState p !! ID account = Some state -> isActive state = true ->
  enter account p = (Exit (Returns (Some (alreadyActive account))), p).
Proof. intros Hst Hact. unfold enter. by rewrite Hst, Hact. Qed.

Lemma enter_inactive account p state :
  accountState p !! ID account = Some state -> isActive state = false ->
  enter account p =
  (Continue, setState (ID account) (set_isActive true state) p).
Proof. intros Hst Hact. unfold enter. by rewrite Hst, Hact. Qed.

(** [poll] never touches an active flag or a stop channel. *)
Lemma poll_flags account env p w o p' w' id state :
  poll account env p w = (o, p', w') ->
  accountState p !! id = Some state ->
  exists state',
    accountState p' !! id = Some state' /\
    isActive state' = isActive state /\ stopChan state' = stopChan state.
Proof.
  intros Hpoll Hst.
  destruct (poll_frame _ _ _ _ _ _ _ Hpoll) as (_ & Hother & Hself & _).
  destruct (decide (id = ID account)) as [->|Hne].
  - destruct (Hself state Hst) as (st' & ? & ? & ? & _). eauto.
  - rewrite <- Hother in Hst by done. eauto.
Qed.

Lemma settle_goroutines i account f next p w m j g :
  goroutines (settle i account f next p w m) !! j = Some g ->
  goroutines m !! j = Some g /\ (j <> i \/ exists msg, f = Exit (Panics msg)) \/
  j = i /\ (f = Continue /\ g = next \/
            exists err, f = Exit (Returns err) /\ g = Exited account err).
Proof.
  destruct f as [|[err|msg]]; cbn.
  - rewrite list_lookup_insert_Some. intros [(-> & <- & _)|[? ?]]; eauto 10.
  - rewrite list_lookup_insert_Some. intros [(-> & <- & _)|[? ?]]; eauto 10.
  - eauto 10.
Qed.

Lemma settle_errChan i account f next p w m :
  exists more, errChan (settle i account f next p w m) = errChan m ++ more.
Proof.
  destruct f as [|[[err|]|msg]]; cbn; eauto; exists []; by rewrite app_nil_r.
Qed.

Lemma settle_reported i account f next p w m :
  exited next = false -> reported m ->
  reported (settle i account f next p w m).
Proof.
  intros Hnext Hrep j a e Hj.
  destruct (settle_errChan i account f next p w m) as [more Hmore].
  apply settle_goroutines in Hj as [[Hj _]|[-> [[-> Hg]|[err [-> Hg]]]]].
  - rewrite Hmore, elem_of_app. left. by eapply Hrep.
  - by subst next.
  - injection Hg as <- <-. cbn. rewrite elem_of_app. right.
    by apply list_elem_of_singleton.
Qed.

Lemma step_errChan s m m' :
  step s m = Some m' -> exists more, errChan m' = errChan m ++ more.
Proof.
  intros H. step_inv H; try apply settle_errChan;
    cbn; exists []; by rewrite app_nil_r.
Qed.

Lemma run_errChan steps m m' :
  run steps m = Some m' -> exists more, errChan m' = errChan m ++ more.
Proof.
  revert m. induction steps as [|s steps IH]; intros m H; cbn in H.
  - injection H as <-. exists []. by rewrite app_nil_r.
  - destruct (step s m) as [m1|] eqn:Hs; [|done].
    apply step_errChan in Hs as [more1 H1]. apply IH in H as [more2 H2].
    exists (more1 ++ more2). by rewrite H2, H1, app_assoc.
Qed.

Lemma step_reported s m m' : step s m = Some m' -> reported m -> reported m'.
Proof.
  intros H Hrep. step_inv H; try by apply settle_reported.
  - exact Hrep.
  - exact Hrep.
Qed.

Lemma started_reported ctx p w : reported (started ctx p w).
Proof.
  intros i account err. unfold started, spawn. cbn.
  rewrite list_lookup_fmap. by destruct (_ !! i).
Qed.

Lemma run_reported steps m m' :
  run steps m = Some m' -> reported m -> reported m'.
Proof.
  revert m. induction steps as [|s steps IH]; intros m H Hrep; cbn in H.
  - by injection H as <-.
  - destruct (step s m) as [m1|] eqn:Hs; [|done].
    eapply IH; [done|]. by eapply step_reported.
Qed.

(** No step makes a goroutine that has begun [pollAccount] start over. *)
Lemma step_spawned_back s m m' j account :
  step s m = Some m' ->
  goroutines m' !! j = Some (Spawned account) ->
  goroutines m !! j = Some (Spawned account).
Proof.
  intros H Hj. step_inv H; try done.
  all: apply settle_goroutines in Hj as [[? _]|[_ [[_ ?]|[? [_ ?]]]]]; done.
Qed.

Lemma run_spawned_back steps m m' j account :
  run steps m = Some m' ->
  goroutines m' !! j = Some (Spawned account) ->
  goroutines m !! j = Some (Spawned account).
Proof.
  revert m. induction steps as [|s steps IH]; intros m H Hj; cbn in H.
  - by injection H as <-.
  - destruct (step s m) as [m1|] eqn:Hs; [|done].
    eapply step_spawned_back; [done|]. by eapply IH.
Qed.

(** Only [Stop] clears an active flag. *)
Lemma step_keeps_active s m m' id state :
  step s m = Some m' -> isStop s = false ->
  accountState (poller m) !! id = Some state -> isActive state = true ->
  exists state',
    accountState (poller m') !! id = Some state' /\ isActive state' = true.
Proof.
  intros H Hns Hst Hact. step_inv H; try done.
  - destruct (settle_poller i account f (Entered account) p1 (world m) m)
      as (-> & _). unfold enter in Hblock.
    destruct (accountState (poller m) !! ID account) as [st|] eqn:Hl.
    2:{ injection Hblock as <- <-. eauto. }
    destruct (isActive st) eqn:Ha; injection Hblock as <- <-; [eauto|].
    cbn. destruct (decide (id = ID account)) as [->|Hne].
    + rewrite lookup_insert_eq. eauto.
    + rewrite lookup_insert_ne by done. eauto.
  - destruct (settle_poller i account f (Waiting account) p1 w1 m)
      as (-> & _). unfold initialPoll in Hblock.
    destruct (time.NewTicker _) as [tmsg|];
      [injection Hblock as <- <- <-; eauto|].
    destruct (poll account env (poller m) (world m)) as [[o p2] w2] eqn:Hpoll.
    destruct (poll_flags _ _ _ _ _ _ _ _ _ Hpoll Hst) as (st' & Hl & Ha & _).
    exists st'. rewrite Ha.
    by destruct o as [[e|]|msg]; injection Hblock as <- <- <-.
  - destruct (settle_poller i account f (Waiting account) p1 w1 m)
      as (-> & _). unfold selectRound in Hblock.
    destruct sel as [e| |waited env]; try (injection Hblock as <- <- <-; by eauto).
    destruct (poll account env (poller m) (advance waited (world m)))
      as [[o p2] w2] eqn:Hpoll.
    destruct (poll_flags _ _ _ _ _ _ _ _ _ Hpoll Hst) as (st' & Hl & Ha & _).
    exists st'. rewrite Ha.
    by destruct o as [[e|]|msg]; injection Hblock as <- <- <-.
  - cbn. eauto.
Qed.

Lemma run_keeps_active steps m m' id state :
  run steps m = Some m' ->
  Forall (fun s => isStop s = false) steps ->
  accountState (poller m) !! id = Some state -> isActive state = true ->
  exists state',
    accountState (poller m') !! id = Some state' /\ isActive state' = true.
Proof.
  intros H Hns. revert m state H.
  induction Hns as [|s steps Hs Hns IH]; intros m state H Hst Hact; cbn in H.
  - injection H as <-. eauto.
  - destruct (step s m) as [m1|] eqn:Hstep; [|done].
    destruct (step_keeps_active _ _ _ _ _ Hstep Hs Hst Hact) as (st1 & Hl1 & Ha1).
    by eapply IH.
Qed.

Lemma run_lastSync_monotone steps m m' id state state' :
  timely (poller m) (world m) -> run steps m = Some m' ->
  accountState (poller m) !! id = Some state ->
  accountState (poller m') !! id = Some state' ->
  lastSync state <= lastSync state'.
Proof.
  intros Ht Hrun. apply run_evolves in Hrun.
  destruct (evolves_timely _ _ _ _ Hrun Ht) as [_ Hmono]. apply Hmono.
Qed.

(** Every state the process reaches from a new poller, started at or
    after the zero time, is timely. *)
Lemma reachable_timely cfg ctx w steps m :
  0 <= clock w ->
  run steps (started ctx (NewEmailPoller cfg) w) = Some m ->
  timely (poller m) (world m).
Proof.
  intros Hw Hrun. apply run_evolves in Hrun.
  apply (evolves_timely _ _ _ _ Hrun). cbn.
  by apply NewEmailPoller_timely.
Qed.

(** A cycle on an account that holds a session works on that session
    only and creates none. *)
Lemma poll_reuses account env p w state c :
  accountState p !! ID account = Some state -> client state = Some c ->
  exists o p' w' evs state',
    poll account env p w = (o, p', w') /\
    trace w' = trace w ++ evs /\
    sessionsCreated evs = [] /\ onlyOn (handle c) evs /\
    nextHandle w' = nextHandle w /\
    accountState p' !! ID account = Some state' /\
    client state' = Some c.
Proof.
  intros Hst Hc. unfold poll. rewrite Hst, Hc. unfold fetchAndProcess.
  destruct (FetchNewEmails _ _ _).1 as [[err|emails]|msg].
  - do 5 eexists. split; [reflexivity|]. cbn. split_and!; try done.
    repeat constructor. cbn. congruence.
  - destruct (processEmails_quiet env c 0 emails (Rules (Poll (config p))))
      as (Q1 & Q2 & Q3).
    eexists _, _, _,
      (CallFetchNewEmails (handle c) (lastSync state) ::
       processEmails env c 0 emails (Rules (Poll (config p)))),
      (set_lastSync (clock w + Z.of_N (elapsed env)) state).
    split; [reflexivity|]. cbn. rewrite <- app_assoc.
    split_and!; try done.
    + constructor; [cbn; congruence | done].
    + by rewrite lookup_insert_eq.
  - do 5 eexists. split; [reflexivity|]. cbn. split_and!; try done.
    repeat constructor. cbn. congruence.
Qed.

(** *** The claims about one poll cycle *)

(** C4. Whenever [poll] returns an error, the account's [lastSync] is
    what it was before the cycle; and when the error comes from session
    creation, connecting or authenticating, nothing at all was stored:
    the session is still absent, so that the next cycle begins by
    creating a session again. *)
Theorem poll_error_keeps_lastSync account env p w state err p' w' :
  accountState p !! ID account = Some state ->
  poll account env p w = (Returns (Some err), p', w') ->
  exists state',
    accountState p' !! ID account = Some state' /\
    lastSync state' = lastSync state /\
    (sessionError err ->
     p' = p /\ client state' = None /\
     forall env2, exists evs,
       trace (poll account env2 p' w').2 =
       trace w' ++ CallNewGmailClient (nextHandle w') :: evs).
Proof.
  intros Hst Hpoll.
  destruct (poll_frame _ _ _ _ _ _ _ Hpoll) as (_ & _ & Hself & _).
  destruct (Hself state Hst) as (state' & Hl & _ & _ & _ & Hls).
  exists state'. split_and!; [done| |].
  - by destruct Hls as [?|[[=] _]].
  - intros Hse.
    destruct (poll_err _ _ _ _ _ _ _ _ Hst Hpoll)
      as [(_ & Hc & -> & _ & _)|[cause ->]].
    + assert (state' = state) as -> by congruence.
      split_and!; [done..|]. intros env2. by eapply poll_creates.
    + by apply sessionError_not_fetch in Hse.
Qed.

(** C5. In a cycle whose fetch succeeds the label requests issued are
    exactly these, in this order: for each fetched message in the order
    the provider returned them, for each configured rule in declaration
    order whose fragment is a case-insensitive substring of the subject,
    one request on the account's session. The answers to the requests play
    no part: a failed request stops neither the rules nor the messages
    that follow. *)
Theorem rules_applied_in_order account env p w state emails :
  accountState p !! ID account = Some state ->
  sessionAvailable env state ->
  fetchAnswer env = Value (inr emails) ->
  (forall s frag,
     containsIgnoreCase s frag = true <->
     exists pre suf, ToLower s = pre +:+ ToLower frag +:+ suf) /\
  exists p' w',
    poll account env p w = (Returns None, p', w') /\
    labelRequests (trace w') =
    labelRequests (trace w) ++
    requestsFor (sessionOf account state w) emails (Rules (Poll (config p))).
Proof.
  intros Hst Hav Hfetch. split; [apply containsIgnoreCase_spec|].
  destruct (poll_ok _ _ _ w _ _ Hst Hav Hfetch) as (p' & w' & Hp & _ & _ & Htr & _).
  exists p', w'. split; [done|].
  rewrite Htr, !labelRequests_app, setupEvents_requests. cbn.
  by rewrite processEmails_requests.
Qed.

(** C9. [containsIgnoreCase s ""] is true for every [s] (given that
    lowering the empty string gives the empty string); so a rule whose
    fragment is empty matches every message, and in every cycle whose
    fetch succeeds its label is requested for every fetched message. *)
Theorem empty_fragment_matches_all account env p w state emails rule :
  ToLower "" = "" ->
  accountState p !! ID account = Some state ->
  sessionAvailable env state ->
  fetchAnswer env = Value (inr emails) ->
  rule ∈ Rules (Poll (config p)) ->
  SubjectContains rule = "" ->
  (forall s, containsIgnoreCase s "" = true) /\
  exists p' w' evs,
    poll account env p w = (Returns None, p', w') /\
    trace w' = trace w ++ evs /\
    forall e, e ∈ emails ->
      (handle (sessionOf account state w), UID e, Label rule) ∈ labelRequests evs.
Proof.
  intros Hlow Hst Hav Hfetch Hrule Hfrag.
  assert (forall s, containsIgnoreCase s "" = true) as Hall.
  { intros s. unfold containsIgnoreCase. rewrite Hlow. apply Contains_empty. }
  split; [done|].
  destruct (poll_ok _ _ _ w _ _ Hst Hav Hfetch) as (p' & w' & Hp & _ & _ & Htr & _).
  do 3 eexists. split; [done|]. split; [done|].
  intros e He. rewrite labelRequests_app, setupEvents_requests. cbn.
  rewrite processEmails_requests. unfold requestsFor.
  apply list_elem_of_In, in_flat_map. exists e. split; [by apply list_elem_of_In|].
  apply list_elem_of_In, list_elem_of_fmap. exists rule. split; [done|].
  unfold matching. apply list_elem_of_In, filter_In.
  split; [by apply list_elem_of_In|]. by rewrite Hfrag.
Qed.

(** C3. A cycle whose fetch succeeds, whatever number of messages it
    returned, ends by setting [lastSync] to the clock as read at the end
    of the cycle, that is, after the fetch. With a clock that does not run
    backwards that value is at least the time the cycle started and at
    least the previous checkpoint; and from then on, whatever the process
    does, the account's checkpoint never falls below it. *)
Theorem lastSync_advances account env p w state emails :
  accountState p !! ID account = Some state ->
  timely p w ->
  sessionAvailable env state ->
  fetchAnswer env = Value (inr emails) ->
  exists p' w' state',
    poll account env p w = (Returns None, p', w') /\
    accountState p' !! ID account = Some state' /\
    lastSync state' = clock w' /\
    clock w' = clock w + Z.of_N (elapsed env) /\
    clock w <= lastSync state' /\
    lastSync state <= lastSync state' /\
    forall m steps m',
      poller m = p' -> world m = w' -> run steps m = Some m' ->
      exists state'',
        accountState (poller m') !! ID account = Some state'' /\
        lastSync state' <= lastSync state''.
Proof.
  intros Hst Ht Hav Hfetch.
  destruct (poll_ok _ _ _ w _ _ Hst Hav Hfetch)
    as (p' & w' & Hp & _ & Hacc & _ & Hck).
  pose proof (poll_evolves _ _ _ _ _ _ _ Hp) as Hev.
  destruct (evolves_timely _ _ _ _ Hev Ht) as [Ht' _].
  eexists p', w', _. split; [done|].
  rewrite Hacc, lookup_insert_eq. split; [done|]. cbn.
  specialize (Ht _ _ Hst).
  split_and!; try lia.
  intros m steps m' <- <- Hrun.
  pose proof (run_evolves _ _ _ Hrun) as (_ & Hs & _).
  specialize (Hs (ID account)). rewrite Hacc, lookup_insert_eq in Hs.
  destruct Hs as (st2 & Hl2 & _).
  exists st2. split; [done|].
  assert (accountState (poller m) !! ID account =
          Some (set_lastSync (clock w + Z.of_N (elapsed env))
                  (set_client (Some (sessionOf account state w)) state)))
    as Hl by (by rewrite Hacc, lookup_insert_eq).
  exact (run_lastSync_monotone steps m m' (ID account) _ st2 Ht' Hrun Hl Hl2).
Qed.





(** *** The claims about [Stop] *)





(** C10. [Stop] never changes a [lastSync]: whatever the order of the
    visit, the answers of the server and the outcome, every account has
    after the call the checkpoint and the session handle it had before;
    an account that was not active is left exactly as it was, an active
    one changes at most in its active flag and its stop signal; no
    account appears or disappears. *)
Theorem Stop_keeps_lastSync order env p w id :
  match accountState p !! id with
  | Some state =>
      exists state',
        accountState (Stop order env p w).1.2 !! id = Some state' /\
        lastSync state' = lastSync state /\
        client state' = client state /\
        (isActive state = false -> state' = state) /\
        (state' = state \/ state' = stopped state)
  | None => accountState (Stop order env p w).1.2 !! id = None
  end.
Proof.
  unfold Stop.
  destruct (stopStates env order (accountState p) w) as [[o m'] w'] eqn:Hs.
  cbn. exact (stopStates_frame _ _ _ _ _ _ _ id Hs).
Qed.


(** *** The claims about the polling loop *)

Lemma fetchPanics_false env :
  fetchPanics env = false <-> forall msg, fetchAnswer env <> Panic msg.
Proof.
  unfold fetchPanics. destruct (fetchAnswer env) as [a|m]; split; try done.
  intros H. by destruct (H m).
Qed.


Lemma poll_keeps_state account env p w state :
  accountState p !! ID account = Some state ->
  is_Some (accountState (poll account env p w).1.2 !! ID account) /\
  config (poll account env p w).1.2 = config p.
Proof.
  intros Hst. destruct (poll account env p w) as [[o p'] w'] eqn:H.
  destruct (poll_frame _ _ _ _ _ _ _ H) as (Hcfg & _ & Hself & _).
  destruct (Hself state Hst) as (st' & Hl & _). cbn. eauto.
Qed.

(** The initial poll and a tick, by what the poll ends in. *)
Lemma initialPoll_returns account env p w err :
  0 < Interval (Poll (config p)) ->
  (poll account env p w).1.1 = Returns err ->
  initialPoll account env p w =
  (Continue, (poll account env p w).1.2,
   match err with
   | Some e =>
       emit [Log (LogInitialPollFailed (ID account) e)]
         (poll account env p w).2
   | None => (poll account env p w).2
   end).
Proof.
  intros Hpos Herr. unfold initialPoll, time.NewTicker.
  rewrite bool_decide_eq_true_2 by done.
  destruct (poll account env p w) as [[o p1] w1]. cbn in *. subst o.
  by destruct err.
Qed.


Lemma initialPoll_continues account env p w state :
  accountState p !! ID account = Some state ->
  0 < Interval (Poll (config p)) ->
  fetchPanics env = false ->
  exists p' w' state',
    initialPoll account env p w = (Continue, p', w') /\
    accountState p' !! ID account = Some state' /\
    config p' = config p.
Proof.
  intros Hst Hpos Hquiet.
  destruct (poll_returns account env p w state Hst) as [err Herr].
  { by apply fetchPanics_false. }
  rewrite (initialPoll_returns _ _ _ _ _ Hpos Herr).
  destruct (poll_keeps_state account env p w state Hst) as [[st' Hl] Hcfg].
  eauto 10.
Qed.









(** *** The claims about starting *)

(** C2. Starting a polling loop on an account whose [isActive] flag is
    set returns the "already active" error at once and does nothing: the
    poller and the outside (no session, no event) are what they were.
    And of two goroutines that start a loop for the same account, found
    inactive, the one whose test-and-set runs first sets the flag and
    goes on; the other, whatever any goroutine does in between short of
    a [Stop], finds the flag set and returns the error, leaving the
    poller and the outside as they were, and the error goes on the
    error channel. *)
Theorem second_start_fails :
  (forall account init sels p w state,
     accountState p !! ID account = Some state -> isActive state = true ->
     pollAccount account init sels p w =
     (Exit (Returns (Some (alreadyActive account))), p, w)) /\
  (forall m1 m2 m3 m4 i j a1 a2 state between,
     i <> j ->
     goroutines m1 !! i = Some (Spawned a1) ->
     goroutines m1 !! j = Some (Spawned a2) ->
     ID a1 = ID a2 ->
     accountState (poller m1) !! ID a1 = Some state ->
     isActive state = false ->
     step (StepEnter i) m1 = Some m2 ->
     run between m2 = Some m3 ->
     Forall (fun s => isStop s = false) between ->
     step (StepEnter j) m3 = Some m4 ->
     goroutines m2 !! i = Some (Entered a1) /\
     accountState (poller m2) !! ID a1 = Some (set_isActive true state) /\
     goroutines m4 !! j = Some (Exited a2 (Some (alreadyActive a2))) /\
     poller m4 = poller m3 /\ world m4 = world m3 /\
     errChan m4 =
       errChan m3 ++
       [wrapError ("error polling account " +:+ ID a2) (alreadyActive a2)]).
Proof.
  split.
  - intros account init sels p w state Hst Hact. unfold pollAccount.
    by rewrite (enter_active account p state Hst Hact).
  - intros m1 m2 m3 m4 i j a1 a2 state between Hij Hgi Hgj Hid Hst Hact
      Hstep1 Hrun Hns Hstep2.
    unfold step in Hstep1.
    destruct (panicked m1) eqn:Hpan1; [done|]. rewrite Hgi in Hstep1.
    rewrite (enter_inactive a1 _ state Hst Hact) in Hstep1.
    injection Hstep1 as <-. cbn in Hrun |- *.
    assert (accountState
              (setState (ID a1) (set_isActive true state) (poller m1))
            !! ID a1 = Some (set_isActive true state)) as Hst2
      by (cbn; by rewrite lookup_insert_eq).
    set (m2 := {| poller := setState (ID a1) (set_isActive true state) (poller m1);
                  world := world m1; ctxErr := ctxErr m1;
                  goroutines := <[i := Entered a1]> (goroutines m1);
                  errChan := errChan m1; panicked := panicked m1 |}) in *.
    destruct (run_keeps_active between m2 m3 (ID a1) _ Hrun Hns Hst2 eq_refl)
      as (st3 & Hst3 & Hact3).
    unfold step in Hstep2.
    destruct (panicked m3) eqn:Hpan3; [done|].
    destruct (goroutines m3 !! j) as [[a'| | |]|] eqn:Hgj3; try done.
    pose proof (run_spawned_back _ _ _ _ _ Hrun Hgj3) as Hback. cbn in Hback.
    rewrite list_lookup_insert_ne in Hback by done.
    assert (a' = a2) as -> by congruence.
    rewrite Hid in Hst3.
    rewrite (enter_active a2 _ st3 Hst3 Hact3) in Hstep2.
    injection Hstep2 as <-. cbn.
    split_and!; try done.
    + apply list_lookup_insert_eq. by eapply lookup_lt_Some.
    + apply list_lookup_insert_eq. by eapply lookup_lt_Some.
Qed.

Lemma StartResult_sent m e l :
  errChan m = e :: l ->
  StartResult m <> Some (Returns None) /\ is_Some (StartResult m).
Proof.
  intros He. unfold StartResult. rewrite He.
  destruct (panicked m); split; eauto; discriminate.
Qed.

(** C1, as the code has it. In any process [Start] has set going: a
    goroutine waiting in its loop once the context is done can take the
    cancellation case, and then its [pollAccount] returns the context's
    error, no state and no event changing; that error is sent on the
    error channel like any other, so [Start] returns an error, and goes
    on returning one whatever happens next. [Start] has an error or a
    panic to return as soon as some [pollAccount] returned an error, and
    returns nil only when every goroutine's [pollAccount] returned nil. *)
Theorem Start_cancellation_is_error steps ctx p w m :
  run steps (started ctx p w) = Some m ->
  (forall i account err,
     panicked m = None ->
     goroutines m !! i = Some (Waiting account) ->
     ctxErr m = Some err ->
     exists m',
       step (StepSelect i (CtxDone err)) m = Some m' /\
       goroutines m' !! i = Some (Exited account (Some err)) /\
       poller m' = poller m /\ world m' = world m /\
       (exists e, StartResult m' = Some (Returns (Some e))) /\
       forall more m'',
         run more m' = Some m'' -> StartResult m'' <> Some (Returns None)) /\
  (forall i account err,
     goroutines m !! i = Some (Exited account (Some err)) ->
     StartResult m <> Some (Returns None) /\ is_Some (StartResult m)) /\
  (StartResult m = Some (Returns None) ->
   Forall (fun g => exists account, g = Exited account None) (goroutines m)).
Proof.
  intros Hrun.
  pose proof (run_reported _ _ _ Hrun (started_reported ctx p w)) as Hrep.
  split_and!.
  - intros i account err Hpan Hw Hctx. unfold step.
    rewrite Hpan, Hw. cbn [ready selectRound]. rewrite Hctx.
    rewrite bool_decide_true by done.
    eexists. split; [reflexivity|]. cbn. split_and!; try done.
    + apply list_lookup_insert_eq. by eapply lookup_lt_Some.
    + unfold StartResult. cbn. rewrite Hpan. destruct (errChan m); cbn; eauto.
    + intros more m'' Hmore. apply run_errChan in Hmore as [l Hl].
      cbn in Hl. destruct (errChan m) as [|e0 l0]; cbn in Hl;
        by eapply StartResult_sent.
  - intros i account err Hex. specialize (Hrep i account err Hex).
    destruct (errChan m) as [|e l] eqn:He; [by apply elem_of_nil in Hrep|].
    by eapply StartResult_sent.
  - unfold StartResult. destruct (panicked m); [done|].
    destruct (errChan m) eqn:He; [|done].
    destruct (forallb exited (goroutines m)) eqn:Hall; [|done]. intros _.
    apply Forall_lookup. intros i g Hg.
    rewrite forallb_forall in Hall.
    specialize (Hall g ltac:(apply list_elem_of_In; by eapply list_elem_of_lookup_2)).
    destruct g as [a|a|a|a [err|]]; try done; [|eauto].
    specialize (Hrep i a err Hg). rewrite He in Hrep.
    by apply elem_of_nil in Hrep.
Qed.

(** ** Further properties of the scheduler *)

(** *** Construction and starting *)

(** X1. [NewEmailPoller] keeps the configuration and builds a state map
    whose keys are exactly the IDs of the configured accounts, enabled
    or not; every state in it is fresh: checkpoint at the zero time, not
    active, stop channel open, no session. Accounts that share an ID
    share one state. *)
Theorem NewEmailPoller_states cfg :
  config (NewEmailPoller cfg) = cfg /\
  dom (accountState (NewEmailPoller cfg)) = list_to_set (ID <$> EmailAccounts cfg) /\
  (forall account,
     account ∈ EmailAccounts cfg ->
     accountState (NewEmailPoller cfg) !! ID account =
     Some {| lastSync := 0; isActive := false; stopChan := chanOpen;
             client := None |}) /\
  (forall id state,
     accountState (NewEmailPoller cfg) !! id = Some state ->
     id ∈ ID <$> EmailAccounts cfg /\
     state = {| lastSync := 0; isActive := false; stopChan := chanOpen;
                client := None |}).
Proof.
  split; [reflexivity|]. split; [|split].
  - apply set_eq. intros id.
    rewrite elem_of_dom, NewEmailPoller_fresh, elem_of_list_to_set.
    case_bool_decide as Hin; split; intros H; try done; by destruct H.
  - intros account Hin. rewrite NewEmailPoller_fresh.
    rewrite bool_decide_eq_true_2; [done|].
    apply list_elem_of_fmap. by exists account.
  - intros id state. rewrite NewEmailPoller_fresh.
    case_bool_decide as Hin; [|done]. intros [= <-]. done.
Qed.

Lemma settle_accounts i account f next p w m g :
  goroutines m !! i = Some g -> accountOf g = account ->
  accountOf next = account ->
  accountOf <$> goroutines (settle i account f next p w m) =
  accountOf <$> goroutines m.
Proof.
  intros Hg Hacc Hnext.
  assert (forall g', accountOf g' = account ->
            accountOf <$> <[i := g']> (goroutines m) =
            accountOf <$> goroutines m) as Hins.
  { intros g' Hg'. rewrite list_fmap_insert. apply list_insert_id.
    rewrite list_lookup_fmap, Hg. cbn. congruence. }
  destruct f as [|[err|msg]]; cbn [settle goroutines]; auto.
Qed.

Lemma step_accounts s m m' :
  step s m = Some m' ->
  accountOf <$> goroutines m' = accountOf <$> goroutines m.
Proof.
  intros H. step_inv H; cbn [goroutines]; try reflexivity;
    eapply settle_accounts; eauto.
Qed.

Lemma run_accounts steps m m' :
  run steps m = Some m' ->
  accountOf <$> goroutines m' = accountOf <$> goroutines m.
Proof.
  revert m. induction steps as [|s steps IH]; intros m H; cbn in H.
  - by injection H as <-.
  - destruct (step s m) as [m1|] eqn:Hs; [|discriminate].
    rewrite (IH _ H). by apply (step_accounts s).
Qed.

Lemma started_accounts ctx p w :
  accountOf <$> goroutines (started ctx p w) = enabledAccounts (config p).
Proof.
  unfold started, spawn, enabledAccounts. cbn [goroutines].
  rewrite <- list_fmap_compose. apply list_fmap_id.
Qed.

(** A step leaves alone the state of an inactive account that no
    goroutine runs for. *)
Lemma step_untouched s m m' id state :
  step s m = Some m' ->
  id ∉ ID <$> (accountOf <$> goroutines m) ->
  accountState (poller m) !! id = Some state -> isActive state = false ->
  accountState (poller m') !! id = Some state.
Proof.
  intros H Hnot Hst Hin.
  assert (forall i g, goroutines m !! i = Some g -> ID (accountOf g) <> id)
    as Hne.
  { intros i g Hg Heq. apply Hnot. apply list_elem_of_fmap.
    exists (accountOf g). split; [done|]. apply list_elem_of_fmap.
    exists g. split; [done|]. by eapply list_elem_of_lookup_2. }
  step_inv H.
  - apply Hne in Hg. cbn in Hg.
    destruct (settle_poller i account f (Entered account) p1 (world m) m)
      as (-> & _ & _).
    unfold enter in Hblock.
    destruct (accountState (poller m) !! ID account) as [st|];
      [destruct (isActive st)|]; injection Hblock as <- <-; try done.
    cbn [setState accountState]. by rewrite lookup_insert_ne.
  - apply Hne in Hg. cbn in Hg.
    destruct (settle_poller i account f (Waiting account) p1 w1 m)
      as (-> & _ & _).
    unfold initialPoll in Hblock.
    destruct (time.NewTicker _) as [tmsg|];
      [by injection Hblock as <- <- <-|].
    destruct (poll account env (poller m) (world m)) as [[o p2] w2] eqn:Hp.
    apply poll_frame in Hp as (_ & Hother & _).
    assert (p1 = p2) as -> by (destruct o as [[e|]|msg]; by injection Hblock).
    rewrite Hother; [done|congruence].
  - apply Hne in Hg. cbn in Hg.
    destruct (settle_poller i account f (Waiting account) p1 w1 m)
      as (-> & _ & _).
    unfold selectRound in Hblock.
    destruct sel as [e| |waited env]; try (injection Hblock as <- <- <-; done).
    destruct (poll account env (poller m) (advance waited (world m)))
      as [[o p2] w2] eqn:Hp.
    apply poll_frame in Hp as (_ & Hother & _).
    assert (p1 = p2) as -> by (destruct o as [[e|]|msg]; by injection Hblock).
    rewrite Hother; [done|congruence].
  - done.
  - cbn [poller]. unfold Stop in Hblock.
    destruct (stopStates env order (accountState (poller m)) (world m))
      as [[o' m1] w2] eqn:Hs.
    injection Hblock as <- <- <-. cbn [accountState].
    pose proof (stopStates_frame _ _ _ _ _ _ _ id Hs) as Hf.
    rewrite Hst in Hf. destruct Hf as (st' & -> & _ & _ & Hsame & _).
    by rewrite Hsame.
Qed.

Lemma run_untouched steps m m' id state :
  run steps m = Some m' ->
  id ∉ ID <$> (accountOf <$> goroutines m) ->
  accountState (poller m) !! id = Some state -> isActive state = false ->
  accountState (poller m') !! id = Some state.
Proof.
  revert m. induction steps as [|s steps IH]; intros m H Hnot Hst Hin;
    cbn in H.
  - by injection H as <-.
  - destruct (step s m) as [m1|] eqn:Hs; [|discriminate].
    apply (IH m1); [done| |by eapply step_untouched|done].
    by rewrite (step_accounts _ _ _ Hs).
Qed.

Lemma skipped_spec cfg ev :
  ev ∈ skipped cfg <->
  exists account,
    account ∈ EmailAccounts cfg /\ Enabled account = false /\
    ev = Log (LogDisabled (ID account) (Name account)).
Proof.
  unfold skipped. rewrite list_elem_of_In, in_flat_map. split.
  - intros (account & Hin & Hev). exists account.
    apply list_elem_of_In in Hin. destruct (Enabled account); cbn in Hev.
    + done.
    + destruct Hev as [<-|[]]. done.
  - intros (account & Hin & Hoff & ->). exists account.
    apply list_elem_of_In in Hin. split; [done|]. rewrite Hoff. by left.
Qed.

(** X2. [Start] leaves the accounts that are not enabled alone. It runs
    one loop for each enabled entry of the configuration, in order, and
    none besides; for each entry that is not enabled it logs a line and
    goes on; and whatever the loops and [Stop] do afterwards, an account
    that was inactive and whose ID no enabled entry bears keeps the very
    state it had: it is never polled and never becomes active. *)
Theorem Start_skips_disabled steps ctx p w m id state :
  run steps (started ctx p w) = Some m ->
  id ∉ ID <$> enabledAccounts (config p) ->
  accountState p !! id = Some state -> isActive state = false ->
  accountState (poller m) !! id = Some state /\
  accountOf <$> goroutines m = enabledAccounts (config p) /\
  (forall account,
     account ∈ EmailAccounts (config p) -> Enabled account = false ->
     Log (LogDisabled (ID account) (Name account)) ∈ trace (world m)).
Proof.
  intros Hrun Hnot Hst Hin. split; [|split].
  - eapply run_untouched; eauto. by rewrite started_accounts.
  - rewrite (run_accounts _ _ _ Hrun). apply started_accounts.
  - intros account Hacc Hoff.
    apply run_evolves in Hrun as (_ & _ & _ & evs & ->).
    cbn [started world emit trace].
    apply elem_of_app. left. apply elem_of_app. right.
    apply skipped_spec. by exists account.
Qed.

Lemma forallb_exited_spawned (l : list EmailAccount) :
  forallb exited (Spawned <$> l) = match l with [] => true | _ => false end.
Proof. by destruct l. Qed.

(** X3. With no enabled account [Start] starts no loop and returns nil
    at once, having logged one line per account and changed nothing
    else; with at least one enabled account it does not return before a
    loop has run. *)
Theorem Start_nothing_enabled ctx p w :
  Start [] ctx p w =
  match enabledAccounts (config p) with
  | [] => Some (Returns None, p, emit (skipped (config p)) w)
  | _ :: _ => None
  end /\
  (enabledAccounts (config p) = [] ->
   skipped (config p) =
   (fun account => Log (LogDisabled (ID account) (Name account))) <$>
   EmailAccounts (config p)).
Proof.
  split.
  - unfold Start. cbn [run mbind option_bind]. unfold StartResult, started.
    cbn [panicked errChan goroutines poller world]. unfold spawn.
    fold (enabledAccounts (config p)). rewrite forallb_exited_spawned.
    by destruct (enabledAccounts (config p)).
  - unfold enabledAccounts, skipped.
    induction (EmailAccounts (config p)) as [|account l IH]; [done|].
    rewrite filter_cons. destruct (decide (Enabled account = true)) as [Hon|Hoff].
    + discriminate.
    + intros Hnil. cbn [flat_map fmap list_fmap].
      destruct (Enabled account); [done|]. cbn. f_equal. by apply IH.
Qed.

(** X4. [Start] returns the first error that was sent on the error
    channel: once one is there, nothing the process does afterwards
    changes which error [Start] has to return (only a panic can still
    come first). *)
Theorem Start_returns_first_error m more m' err :
  StartResult m = Some (Returns (Some err)) ->
  run more m = Some m' ->
  head (errChan m) = Some err /\
  head (errChan m') = Some err /\
  (StartResult m' = Some (Returns (Some err)) \/
   exists msg, StartResult m' = Some (Panics msg)).
Proof.
  intros Hres Hrun. unfold StartResult in Hres.
  destruct (panicked m) as [msg|]; [discriminate|].
  destruct (errChan m) as [|e l] eqn:Hch.
  { destruct (forallb exited (goroutines m)); discriminate. }
  injection Hres as ->.
  apply run_errChan in Hrun as [extra Hch']. rewrite Hch in Hch'.
  split; [done|]. split; [by rewrite Hch'|].
  unfold StartResult. destruct (panicked m') as [msg|]; [right; eauto|].
  left. by rewrite Hch'.
Qed.

(** *** Stopping and starting again *)

Lemma stopStates_closed_panics env order m w id state :
  id ∈ order -> m !! id = Some state -> isActive state = true ->
  stopChan state = chanClosed ->
  (stopStates env order m w).1.1 = Panics "close of closed channel".
Proof.
  revert m w. induction order as [|k order IH]; intros m w Hin Hst Hact Hcl.
  { by apply elem_of_nil in Hin. }
  cbn [stopStates]. destruct (decide (k = id)) as [->|Hne].
  { rewrite Hst, Hact, Hcl. done. }
  apply elem_of_cons in Hin as [->|Hin]; [done|].
  destruct (m !! k) as [st|] eqn:Hk; [|by apply IH].
  destruct (isActive st); [|by apply IH].
  destruct (stopChan st); [|done].
  apply IH; try done. by rewrite lookup_insert_ne.
Qed.

(** X5. [Stop] cannot be used twice on an account whose loop was
    started again in between. After a [Stop] that found the account
    active, the account is inactive and its stop channel is closed; a
    new [pollAccount] passes the active test and sets the flag again,
    the channel staying closed; and the next [Stop] that visits the
    account, in whatever order and with whatever answers, ends in the
    panic of closing a closed channel. *)
Theorem Stop_after_restart_panics order env p w account state :
  rangeOrder order p -> stoppable p ->
  accountState p !! ID account = Some state -> isActive state = true ->
  exists p1 w1 p2,
    Stop order env p w = (Returns None, p1, w1) /\
    accountState p1 !! ID account = Some (stopped state) /\
    enter account p1 = (Continue, p2) /\
    accountState p2 !! ID account = Some (set_stopChan chanClosed state) /\
    forall order2 env2 w2,
      ID account ∈ order2 ->
      (Stop order2 env2 p2 w2).1.1 = Panics "close of closed channel".
Proof.
  intros Hro Hstop Hst Hact.
  destruct (stopStates_ok env order (accountState p) w) as
    (m' & w' & evs & Hs & _ & _ & _ & _ & _ & _ & Hm'); [apply Hro|done|].
  assert (m' !! ID account = Some (stopped state)) as Hst1.
  { rewrite Hm', Hst. cbn. rewrite Hact, bool_decide_eq_true_2; [done|].
    by apply (rangeOrder_elem _ p). }
  exists {| config := config p; accountState := m' |}, w'.
  eexists. split; [by unfold Stop; rewrite Hs|]. split; [done|].
  split; [by eapply enter_inactive|].
  assert (set_isActive true (stopped state) = set_stopChan chanClosed state)
    as Heq.
  { destruct state. cbn in Hact. by subst. }
  split.
  { cbn [setState accountState]. by rewrite lookup_insert_eq, Heq. }
  intros order2 env2 w2 Hro2. unfold Stop. cbn [setState accountState config].
  assert ((stopStates env2 order2
             (<[ID account := set_isActive true (stopped state)]> m') w2).1.1
          = Panics "close of closed channel") as Hp.
  { apply stopStates_closed_panics
      with (id := ID account) (state := set_isActive true (stopped state)).
    - done.
    - apply lookup_insert_eq.
    - done.
    - done. }
  destruct (stopStates env2 order2 _ w2) as [[o m2] w3]. exact Hp.
Qed.

Lemma step_keeps_closed s m m' id state :
  step s m = Some m' ->
  accountState (poller m) !! id = Some state -> stopChan state = chanClosed ->
  exists state',
    accountState (poller m') !! id = Some state' /\
    stopChan state' = chanClosed.
Proof.
  intros H Hst Hcl. step_inv H.
  - destruct (settle_poller i account f (Entered account) p1 (world m) m)
      as (-> & _ & _).
    unfold enter in Hblock.
    destruct (accountState (poller m) !! ID account) as [st|] eqn:Ha;
      [destruct (isActive st)|]; injection Hblock as <- <-; eauto.
    cbn [setState accountState].
    destruct (decide (id = ID account)) as [->|Hne].
    + rewrite lookup_insert_eq. eexists. split; [done|].
      rewrite Hst in Ha. injection Ha as <-. done.
    + rewrite lookup_insert_ne by done. eauto.
  - destruct (settle_poller i account f (Waiting account) p1 w1 m)
      as (-> & _ & _).
    unfold initialPoll in Hblock.
    destruct (time.NewTicker _) as [tmsg|];
      [injection Hblock as <- <- <-; eauto|].
    destruct (poll account env (poller m) (world m)) as [[o p2] w2] eqn:Hp.
    destruct (poll_flags _ _ _ _ _ _ _ _ _ Hp Hst) as (st' & Hst' & _ & Hch).
    assert (p1 = p2) as -> by (destruct o as [[e|]|msg]; by injection Hblock).
    exists st'. split; [done|congruence].
  - destruct (settle_poller i account f (Waiting account) p1 w1 m)
      as (-> & _ & _).
    unfold selectRound in Hblock.
    destruct sel as [e| |waited env];
      try (injection Hblock as <- <- <-; eauto; fail).
    destruct (poll account env (poller m) (advance waited (world m)))
      as [[o p2] w2] eqn:Hp.
    destruct (poll_flags _ _ _ _ _ _ _ _ _ Hp Hst) as (st' & Hst' & _ & Hch).
    assert (p1 = p2) as -> by (destruct o as [[e|]|msg]; by injection Hblock).
    exists st'. split; [done|congruence].
  - eauto.
  - cbn [poller]. unfold Stop in Hblock.
    destruct (stopStates env order (accountState (poller m)) (world m))
      as [[o' m1] w2] eqn:Hs.
    injection Hblock as <- <- <-. cbn [accountState].
    pose proof (stopStates_frame _ _ _ _ _ _ _ id Hs) as Hf.
    rewrite Hst in Hf. destruct Hf as (st' & Hst' & _ & _ & _ & [->| ->]);
      eauto.
Qed.

Lemma run_keeps_closed steps m m' id state :
  run steps m = Some m' ->
  accountState (poller m) !! id = Some state -> stopChan state = chanClosed ->
  exists state',
    accountState (poller m') !! id = Some state' /\
    stopChan state' = chanClosed.
Proof.
  revert m state. induction steps as [|s steps IH]; intros m state H Hst Hcl;
    cbn in H.
  - injection H as <-. eauto.
  - destruct (step s m) as [m1|] eqn:Hs; [|discriminate].
    destruct (step_keeps_closed _ _ _ _ _ Hs Hst Hcl) as (st1 & Hst1 & Hcl1).
    by eapply IH.
Qed.

(** A goroutine waiting on an account whose stop channel is closed can
    take the stop case: its [pollAccount] returns nil, and nothing else
    changes. *)
Lemma waiting_takes_stop m i account state :
  panicked m = None ->
  goroutines m !! i = Some (Waiting account) ->
  accountState (poller m) !! ID account = Some state ->
  stopChan state = chanClosed ->
  step (StepSelect i StopChan) m =
  Some {| poller := poller m; world := world m; ctxErr := ctxErr m;
          goroutines := <[i := Exited account None]> (goroutines m);
          errChan := errChan m; panicked := None |}.
Proof.
  intros Hpan Hg Hst Hcl. unfold step. rewrite Hpan, Hg.
  unfold ready. rewrite Hst, Hcl. cbn [selectRound settle].
  by rewrite app_nil_r, Hpan.
Qed.

(** X6. No code reopens a stop channel: once an account's stop channel
    is closed it is closed for good, whatever the loops, the polls and
    later calls of [Stop] do. So from then on every loop that waits on
    that account, also one started afterwards, can take the stop case at
    once and have its [pollAccount] return nil. *)
Theorem stop_signal_is_permanent steps m m' id state :
  run steps m = Some m' ->
  accountState (poller m) !! id = Some state -> stopChan state = chanClosed ->
  exists state',
    accountState (poller m') !! id = Some state' /\
    stopChan state' = chanClosed /\
    forall i account,
      panicked m' = None ->
      goroutines m' !! i = Some (Waiting account) -> ID account = id ->
      exists m'',
        step (StepSelect i StopChan) m' = Some m'' /\
        goroutines m'' !! i = Some (Exited account None) /\
        poller m'' = poller m' /\ world m'' = world m'.
Proof.
  intros Hrun Hst Hcl.
  destruct (run_keeps_closed _ _ _ _ _ Hrun Hst Hcl) as (st' & Hst' & Hcl').
  exists st'. split; [done|]. split; [done|].
  intros i account Hpan Hg <-. eexists. split.
  { by eapply waiting_takes_stop. }
  cbn [goroutines poller world]. split; [|done].
  apply list_lookup_insert_eq. by eapply lookup_lt_Some.
Qed.

Lemma pollLoop_flags account sels p w f p' w' id state :
  pollLoop account sels p w = (f, p', w') ->
  accountState p !! id = Some state ->
  exists state',
    accountState p' !! id = Some state' /\
    isActive state' = isActive state /\ stopChan state' = stopChan state.
Proof.
  revert p w state. induction sels as [|sel sels IH]; intros p w state H Hst;
    cbn [pollLoop] in H.
  { injection H as <- <- <-. eauto. }
  destruct (selectRound account sel p w) as [[f1 p1] w1] eqn:Hr.
  assert (exists st1, accountState p1 !! id = Some st1 /\
            isActive st1 = isActive state /\ stopChan st1 = stopChan state)
    as (st1 & Hst1 & Ha1 & Hc1).
  { unfold selectRound in Hr. destruct sel as [e| |waited env];
      try (injection Hr as <- <- <-; eauto; fail).
    destruct (poll account env p (advance waited w)) as [[o p2] w2] eqn:Hp.
    destruct (poll_flags _ _ _ _ _ _ _ _ _ Hp Hst) as (st' & Hst' & Ha & Hch).
    assert (p1 = p2) as -> by (destruct o as [[e|]|msg]; by injection Hr).
    eauto. }
  destruct f1 as [|o].
  - destruct (IH _ _ _ H Hst1) as (st' & Hst' & Ha & Hc).
    exists st'. split; [done|]. split; congruence.
  - injection H as <- <- <-. eauto.
Qed.

(** X7. [pollAccount] sets [isActive] and never clears it: when it has
    found the account inactive, then however far it gets, also when its
    loop has returned because the context was cancelled or the stop
    channel closed, the account is marked active afterwards, with its
    stop channel as it was. Only [Stop] clears the flag; until then every
    further [pollAccount] for the account returns the "already active"
    error at once. *)
Theorem pollAccount_leaves_active account init sels p w state f p' w' :
  accountState p !! ID account = Some state -> isActive state = false ->
  pollAccount account init sels p w = (f, p', w') ->
  (exists state',
     accountState p' !! ID account = Some state' /\
     isActive state' = true /\ stopChan state' = stopChan state) /\
  forall init2 sels2 w2,
    pollAccount account init2 sels2 p' w2 =
    (Exit (Returns (Some (alreadyActive account))), p', w2).
Proof.
  intros Hst Hina H.
  assert (exists state',
            accountState p' !! ID account = Some state' /\
            isActive state' = true /\ stopChan state' = stopChan state)
    as (st' & Hst' & Ha' & Hc').
  { unfold pollAccount in H. rewrite (enter_inactive _ _ _ Hst Hina) in H.
    set (p0 := setState (ID account) (set_isActive true state) p) in *.
    assert (accountState p0 !! ID account = Some (set_isActive true state))
      as Hst0 by apply lookup_insert_eq.
    unfold initialPoll in H.
    destruct (time.NewTicker _) as [tmsg|].
    { injection H as <- <- <-. eauto. }
    destruct (poll account init p0 w) as [[o p1] w1] eqn:Hp.
    destruct (poll_flags _ _ _ _ _ _ _ _ _ Hp Hst0) as (st1 & Hst1 & Ha1 & Hc1).
    cbn in Ha1, Hc1.
    destruct o as [[e|]|msg].
    - destruct (pollLoop_flags _ _ _ _ _ _ _ _ _ H Hst1)
        as (st2 & Hst2 & Ha2 & Hc2).
      exists st2. split; [done|]. split; congruence.
    - destruct (pollLoop_flags _ _ _ _ _ _ _ _ _ H Hst1)
        as (st2 & Hst2 & Ha2 & Hc2).
      exists st2. split; [done|]. split; congruence.
    - injection H as <- <- <-. exists st1. split; [done|]. split; congruence. }
  split; [eauto|]. intros init2 sels2 w2. unfold pollAccount.
  by rewrite (enter_active _ _ _ Hst' Ha').
Qed.

Lemma stopAll_runs gs : forall m finished,
  panicked m = None -> errChan m = [] ->
  goroutines m = finished ++ gs ->
  Forall (fun g => exited g = true) finished ->
  Forall
    (fun g =>
       exists account state,
         g = Waiting account /\
         accountState (poller m) !! ID account = Some state /\
         stopChan state = chanClosed) gs ->
  exists m',
    run (stopAll (length finished) (length gs)) m = Some m' /\
    poller m' = poller m /\ world m' = world m /\
    StartResult m' = Some (Returns None).
Proof.
  induction gs as [|g gs IH]; intros m finished Hpan Hch Hgs Hfin Hwait.
  { exists m. split; [done|]. split; [done|]. split; [done|].
    unfold StartResult. rewrite Hpan, Hch, Hgs, app_nil_r.
    rewrite (proj2 (forallb_forall _ _)); [done|].
    intros g Hin. apply list_elem_of_In in Hin.
    by apply (proj1 (Forall_forall _ _) Hfin). }
  apply Forall_cons in Hwait as [(account & state & -> & Hst & Hcl) Hwait].
  assert (goroutines m !! length finished = Some (Waiting account)) as Hg.
  { rewrite Hgs. by apply list_lookup_middle. }
  pose proof (waiting_takes_stop _ _ _ _ Hpan Hg Hst Hcl) as Hstep.
  set (m1 := {| poller := poller m; world := world m; ctxErr := ctxErr m;
                goroutines :=
                  <[length finished := Exited account None]> (goroutines m);
                errChan := errChan m; panicked := None |}) in *.
  destruct (IH m1 (finished ++ [Exited account None])) as (m' & Hrun & Hp & Hw & Hres).
  - done.
  - done.
  - cbn [m1 goroutines]. rewrite Hgs.
    rewrite insert_app_r_alt, Nat.sub_diag by lia. cbn.
    by rewrite <- app_assoc.
  - apply Forall_app. split; [done|]. by apply Forall_singleton.
  - done.
  - exists m'. split; [|done].
    unfold stopAll in *. cbn [length seq fmap list_fmap run].
    rewrite Hstep. rewrite length_app in Hrun. cbn [length] in Hrun.
    by rewrite Nat.add_1_r in Hrun.
Qed.

(** X13. Stopping ends [Start] with nil. In a process in which no error
    was sent, every loop is waiting in its select on an active account
    and no stop channel of an active account is closed yet, a [Stop]
    followed by each loop taking the stop case is a schedule the process
    can run; after it every account is inactive, every [pollAccount] has
    returned nil, and [Start] returns nil. *)
Theorem Stop_ends_Start_with_nil m order env :
  panicked m = None -> errChan m = [] ->
  rangeOrder order (poller m) -> stoppable (poller m) ->
  Forall
    (fun g =>
       exists account state,
         g = Waiting account /\
         accountState (poller m) !! ID account = Some state /\
         isActive state = true) (goroutines m) ->
  exists m',
    run (StepStop order env :: stopAll 0 (length (goroutines m))) m = Some m' /\
    StartResult m' = Some (Returns None) /\
    (forall id state,
       accountState (poller m') !! id = Some state -> isActive state = false) /\
    config (poller m') = config (poller m).
Proof.
  intros Hpan Hch Hro Hstop Hwait.
  destruct (stopStates_ok env order (accountState (poller m)) (world m)) as
    (m1 & w1 & evs & Hs & _ & _ & _ & _ & _ & _ & Hm1); [apply Hro|done|].
  set (ms := {| poller := {| config := config (poller m); accountState := m1 |};
                world := w1; ctxErr := ctxErr m; goroutines := goroutines m;
                errChan := errChan m; panicked := None |}).
  assert (step (StepStop order env) m = Some ms) as Hstep.
  { unfold step. rewrite Hpan, bool_decide_eq_true_2 by done.
    unfold Stop. by rewrite Hs. }
  destruct (stopAll_runs (goroutines m) ms []) as (m' & Hrun & Hp & Hw & Hres).
  - done.
  - done.
  - done.
  - constructor.
  - eapply Forall_impl; [exact Hwait|]. cbn beta.
    intros g (account & state & -> & Hst & Hact).
    exists account, (stopped state). split; [done|]. split; [|done].
    cbn [ms poller accountState]. rewrite Hm1, Hst. cbn.
    rewrite Hact, bool_decide_eq_true_2; [done|].
    by apply (rangeOrder_elem _ (poller m)).
  - exists m'. split; [by cbn [run]; rewrite Hstep|]. split; [done|].
    rewrite Hp. cbn [ms poller accountState config]. split; [|done].
    intros id state. rewrite Hm1.
    destruct (accountState (poller m) !! id) as [st|] eqn:Hst; [|done].
    cbn. intros [= <-]. destruct (isActive st) eqn:Hact; [|done].
    rewrite bool_decide_eq_true_2; [done|].
    by apply (rangeOrder_elem _ (poller m)).
Qed.

(** *** What one poll cycle does and does not do *)

Lemma fetchWindows_app evs1 evs2 :
  fetchWindows (evs1 ++ evs2) = fetchWindows evs1 ++ fetchWindows evs2.
Proof. apply omap_app. Qed.

Lemma connectCalls_app evs1 evs2 :
  connectCalls (evs1 ++ evs2) = connectCalls evs1 ++ connectCalls evs2.
Proof. apply omap_app. Qed.

Lemma applyRules_no_fetch env c i e j rules :
  fetchWindows (applyRules env c i e j rules) = [].
Proof.
  revert j. induction rules as [|rule rules IH]; intros j; [done|].
  cbn [applyRules]. rewrite fetchWindows_app, IH.
  destruct (containsIgnoreCase _ _); [destruct (ApplyLabel _ _ _ _)|];
    reflexivity.
Qed.

Lemma processEmails_no_fetch env c i emails rules :
  fetchWindows (processEmails env c i emails rules) = [].
Proof.
  revert i. induction emails as [|e emails IH]; intros i; [done|].
  cbn [processEmails]. by rewrite fetchWindows_app, IH, applyRules_no_fetch.
Qed.

(** The events of one cycle on an account that has a state. *)
Lemma poll_events account env p w state o p' w' :
  accountState p !! ID account = Some state ->
  poll account env p w = (o, p', w') ->
  exists evs,
    trace w' = trace w ++ evs /\
    closeCalls evs = [] /\
    sessionsCreated evs =
      match client state with Some _ => [] | None => [nextHandle w] end /\
    (o <> Returns None -> labelRequests evs = []) /\
    fetchWindows evs =
      (if attemptsFetch env state then [lastSync state] else []).
Proof.
  intros Hst H. unfold attemptsFetch. poll_split Hst H.
  - eexists. cbn [trace emit advance]. split; [reflexivity|]. done.
  - eexists. cbn [trace emit advance]. rewrite <- app_assoc.
    split; [reflexivity|].
    destruct (processEmails_quiet env c 0 emails (Rules (Poll (config p))))
      as (Hs & Hc' & _).
    pose proof (processEmails_no_fetch env c 0 emails (Rules (Poll (config p))))
      as Hf'.
    rewrite closeCalls_app, sessionsCreated_app, fetchWindows_app, Hs, Hc', Hf'.
    done.
  - eexists. cbn [trace emit advance]. split; [reflexivity|]. done.
  - unfold initClient, NewGmailClient, Connect, Authenticate in Hi.
    destruct (dialErr env) as [e|]; cbn in Hi.
    { injection Hi as <- <-. eexists. cbn [trace emit advance alloc].
      rewrite <- app_assoc. split; [reflexivity|]. done. }
    destruct (authErr env) as [e|]; cbn in Hi; [|discriminate].
    injection Hi as <- <-. eexists. cbn [trace emit advance alloc].
    rewrite <- !app_assoc. split; [reflexivity|]. done.
  - apply initClient_inr in Hi as (-> & Htr & _ & _ & -> & ->).
    eexists. cbn [trace emit advance]. rewrite Htr, <- app_assoc.
    split; [reflexivity|]. done.
  - apply initClient_inr in Hi as (-> & Htr & _ & _ & -> & ->).
    eexists. cbn [trace emit advance]. rewrite Htr, <- !app_assoc.
    split; [reflexivity|].
    set (c := connected account (nextHandle w)).
    destruct (processEmails_quiet env c 0 emails (Rules (Poll (config p))))
      as (Hs & Hc' & _).
    pose proof (processEmails_no_fetch env c 0 emails (Rules (Poll (config p))))
      as Hf'.
    cbn [setState config].
    rewrite !closeCalls_app, !sessionsCreated_app, !fetchWindows_app.
    rewrite Hs, Hc', Hf'. done.
  - apply initClient_inr in Hi as (-> & Htr & _ & _ & -> & ->).
    eexists. cbn [trace emit advance]. rewrite Htr, <- app_assoc.
    split; [reflexivity|]. done.
Qed.

(** X9. A poll cycle never closes a session: no [Close] is among its
    calls, whatever it returns. It creates at most one session and sends
    at most one fetch; and a cycle that does not return nil has issued
    no label request. *)
Theorem poll_never_closes account env p w o p' w' :
  poll account env p w = (o, p', w') ->
  exists evs,
    trace w' = trace w ++ evs /\
    closeCalls evs = [] /\
    (length (sessionsCreated evs) <= 1)%nat /\
    (length (fetchWindows evs) <= 1)%nat /\
    (o <> Returns None -> labelRequests evs = []).
Proof.
  intros H. destruct (accountState p !! ID account) as [state|] eqn:Hst.
  - destruct (poll_events _ _ _ _ _ _ _ _ Hst H)
      as (evs & Htr & Hcl & Hs & Hl & Hf).
    exists evs. rewrite Hs, Hf. split_and!; try done.
    + destruct (client state); cbn; lia.
    + destruct (attemptsFetch env state); cbn; lia.
  - rewrite (poll_missing _ _ _ _ Hst) in H. injection H as <- <- <-.
    exists []. rewrite app_nil_r. split_and!; try done; cbn; lia.
Qed.

(** X8. The window a cycle fetches. A cycle that gets as far as the
    fetch asks for the messages since the account's [lastSync], once.
    The cycle after it, whenever it runs, asks since the clock reading
    at the end of the first when the first returned nil, and since the
    same [lastSync] again when the first failed at the fetch: a failed
    window is retried, a successful one is not fetched again. *)
Theorem fetch_window account env1 env2 p w w2 state :
  accountState p !! ID account = Some state ->
  sessionAvailable env1 state ->
  exists o1 p1 w1 evs1 o2 p2 w3 evs2,
    poll account env1 p w = (o1, p1, w1) /\
    trace w1 = trace w ++ evs1 /\
    fetchWindows evs1 = [lastSync state] /\
    poll account env2 p1 w2 = (o2, p2, w3) /\
    trace w3 = trace w2 ++ evs2 /\
    fetchWindows evs2 =
      [match o1 with
       | Returns None => clock w1
       | _ => lastSync state
       end].
Proof.
  intros Hst Hav.
  assert (attemptsFetch env1 state = true) as Hatt.
  { unfold attemptsFetch, sessionAvailable in *.
    destruct (client state); [done|]. by destruct Hav as [-> ->]. }
  assert (exists o1 p1 w1 st1,
            poll account env1 p w = (o1, p1, w1) /\
            accountState p1 !! ID account = Some st1 /\
            is_Some (client st1) /\
            lastSync st1 =
              match o1 with
              | Returns None => clock w1
              | _ => lastSync state
              end) as (o1 & p1 & w1 & st1 & Hp1 & Hst1 & Hc1 & Hl1).
  { destruct (fetchAnswer env1) as [[err|emails]|msg] eqn:Hf.
    - destruct (poll_fetch_failed _ _ p w _ _ Hst Hav Hf)
        as (p1 & w1 & Hp & Hacc & _).
      do 4 eexists. split; [exact Hp|]. rewrite Hacc, lookup_insert_eq.
      split; [done|]. cbn. eauto.
    - destruct (poll_ok _ _ p w _ _ Hst Hav Hf)
        as (p1 & w1 & Hp & _ & Hacc & _ & Hck).
      do 4 eexists. split; [exact Hp|]. rewrite Hacc, lookup_insert_eq.
      split; [done|]. cbn. rewrite Hck. eauto.
    - destruct (poll_fetch_panicked _ _ p w _ _ Hst Hav Hf)
        as (p1 & w1 & Hp & Hacc).
      do 4 eexists. split; [exact Hp|]. rewrite Hacc, lookup_insert_eq.
      split; [done|]. cbn. eauto. }
  destruct (poll_events _ _ _ _ _ _ _ _ Hst Hp1) as (evs1 & Htr1 & _ & _ & _ & Hf1).
  destruct (poll account env2 p1 w2) as [[o2 p2] w3] eqn:Hp2.
  destruct (poll_events _ _ _ _ _ _ _ _ Hst1 Hp2) as (evs2 & Htr2 & _ & _ & _ & Hf2).
  exists o1, p1, w1, evs1, o2, p2, w3, evs2.
  rewrite Hatt in Hf1. unfold attemptsFetch in Hf2.
  destruct Hc1 as [c1 Hc1]. rewrite Hc1, Hl1 in Hf2. done.
Qed.

Lemma refusedTick_round account sel p w state :
  accountState p !! ID account = Some state -> client state = None ->
  refusedTick sel = true ->
  exists w' evs,
    selectRound account sel p w = (Continue, p, w') /\
    trace w' = trace w ++ evs /\
    sessionsCreated evs = [nextHandle w] /\
    connectCalls evs = [nextHandle w] /\
    closeCalls evs = [] /\
    nextHandle w' = S (nextHandle w).
Proof.
  intros Hst Hc Hsel. destruct sel as [e| |waited env]; try discriminate.
  cbn in Hsel. destruct (dialErr env) eqn:Hd; [discriminate|].
  destruct (authErr env) as [e|] eqn:Ha; [|discriminate].
  unfold selectRound, poll. rewrite Hst, Hc.
  unfold initClient, NewGmailClient, Connect, Authenticate. rewrite Hd, Ha.
  cbn. do 2 eexists. split; [reflexivity|]. cbn.
  rewrite <- !app_assoc. split; [reflexivity|]. done.
Qed.

(** X10. When the server accepts the connection and refuses the
    credentials, the cycle neither closes the connection it opened nor
    stores the session. Over any number of such ticks the poller is left
    exactly as it was, every tick creates and connects a new session, and
    none of these connections is ever closed. *)
Theorem refused_logins_leak_connections account sels p w state :
  accountState p !! ID account = Some state -> client state = None ->
  Forall (fun sel => refusedTick sel = true) sels ->
  exists w' evs,
    pollLoop account sels p w = (Continue, p, w') /\
    trace w' = trace w ++ evs /\
    sessionsCreated evs = seq (nextHandle w) (length sels) /\
    connectCalls evs = seq (nextHandle w) (length sels) /\
    closeCalls evs = [].
Proof.
  intros Hst Hc Hall. revert w.
  induction Hall as [|sel sels Hsel Hall IH]; intros w.
  { exists w, []. by rewrite app_nil_r. }
  destruct (refusedTick_round account sel p w state Hst Hc Hsel)
    as (w1 & evs1 & Hr & Htr1 & Hs1 & Hc1 & Hcl1 & Hn1).
  destruct (IH w1) as (w' & evs & Hl & Htr & Hs & Hcn & Hcl).
  exists w', (evs1 ++ evs). cbn [pollLoop]. rewrite Hr.
  split; [done|]. split; [by rewrite Htr, Htr1, app_assoc|].
  rewrite sessionsCreated_app, connectCalls_app, closeCalls_app.
  rewrite Hs1, Hc1, Hcl1, Hs, Hcn, Hcl, Hn1. done.
Qed.

Lemma applyRules_sameButAction env c i e j rules rules' :
  Forall2 sameButAction rules rules' ->
  applyRules env c i e j rules = applyRules env c i e j rules'.
Proof.
  intros H. revert j.
  induction H as [|r r' rules rules' [Hs Hl] _ IH]; intros j; [done|].
  cbn [applyRules]. by rewrite Hs, Hl, IH.
Qed.

Lemma processEmails_sameButAction env c i emails rules rules' :
  Forall2 sameButAction rules rules' ->
  processEmails env c i emails rules = processEmails env c i emails rules'.
Proof.
  intros H. revert i. induction emails as [|e emails IH]; intros i; [done|].
  cbn [processEmails].
  by rewrite IH, (applyRules_sameButAction _ _ _ _ _ _ _ H).
Qed.

(** X11. The [Action] of a rule is never looked at. Two pollers with the
    same account states whose rules agree, one by one, in fragment and
    label give, for every cycle, the same outcome, the same calls and
    log lines and the same states: a matching rule leads to a label
    request whatever its action says. *)
Theorem rule_action_is_ignored account env p q w :
  accountState p = accountState q ->
  Forall2 sameButAction (Rules (Poll (config p))) (Rules (Poll (config q))) ->
  (poll account env p w).1.1 = (poll account env q w).1.1 /\
  (poll account env p w).2 = (poll account env q w).2 /\
  accountState (poll account env p w).1.2 =
  accountState (poll account env q w).1.2.
Proof.
  intros Hacc Hrules. unfold poll. rewrite <- Hacc.
  destruct (accountState p !! ID account) as [state|]; [|done].
  assert (forall c st p1 q1 w1,
            accountState p1 = accountState q1 ->
            config p1 = config p -> config q1 = config q ->
            (fetchAndProcess account env (lastSync state) c st p1 w1).1.1 =
            (fetchAndProcess account env (lastSync state) c st q1 w1).1.1 /\
            (fetchAndProcess account env (lastSync state) c st p1 w1).2 =
            (fetchAndProcess account env (lastSync state) c st q1 w1).2 /\
            accountState
              (fetchAndProcess account env (lastSync state) c st p1 w1).1.2 =
            accountState
              (fetchAndProcess account env (lastSync state) c st q1 w1).1.2)
    as Hfp.
  { intros c st p1 q1 w1 Ha Hcp Hcq. unfold fetchAndProcess.
    destruct (FetchNewEmails (fetch env) c (lastSync state)).1
      as [[err|emails]|msg]; [done| |done].
    rewrite Hcp, Hcq, (processEmails_sameButAction _ _ _ _ _ _ Hrules).
    cbn. by rewrite Ha. }
  destruct (client state) as [c|]; [by apply Hfp|].
  destruct (initClient account env w) as [[err|c] w1]; [by cbn|].
  apply Hfp; [|done|done]. cbn. by rewrite Hacc.
Qed.

(** X12. A poll cycle touches one account. It changes neither the
    configuration nor the set of accounts nor the state of any account
    other than its own; and of its own account's state it changes
    neither the active flag nor the stop channel, and never drops a
    session the account holds. *)
Theorem poll_touches_one_account account env p w :
  config (poll account env p w).1.2 = config p /\
  dom (accountState (poll account env p w).1.2) = dom (accountState p) /\
  (forall id,
     id <> ID account ->
     accountState (poll account env p w).1.2 !! id = accountState p !! id) /\
  (forall state,
     accountState p !! ID account = Some state ->
     exists state',
       accountState (poll account env p w).1.2 !! ID account = Some state' /\
       isActive state' = isActive state /\
       stopChan state' = stopChan state /\
       (forall c, client state = Some c -> client state' = Some c)).
Proof.
  destruct (poll account env p w) as [[o p'] w'] eqn:H. cbn [fst snd].
  destruct (poll_frame _ _ _ _ _ _ _ H)
    as (Hcfg & Hother & Hself & Hnone & _).
  split; [done|]. split; [|split; [done|]].
  - apply set_eq. intros id. rewrite !elem_of_dom.
    destruct (decide (id = ID account)) as [->|Hne].
    + destruct (accountState p !! ID account) as [st|] eqn:Hst.
      * destruct (Hself st eq_refl) as (st' & -> & _). split; eauto.
      * by rewrite (Hnone eq_refl), Hst.
    + by rewrite (Hother id Hne).
  - intros state Hst. destruct (Hself state Hst)
      as (st' & Hst' & Ha & Hc & Hcl & _). eauto.
Qed.

(** *** Invariants of a running process *)

(** X14. In every process [Start] has set going on a new poller, at any
    time: the checkpoint of an account is either still the zero time or
    a reading of the clock taken since the start, and it never lies in
    the future. *)
Theorem lastSync_is_a_past_clock_reading cfg ctx w steps m id state :
  0 <= clock w ->
  run steps (started ctx (NewEmailPoller cfg) w) = Some m ->
  accountState (poller m) !! id = Some state ->
  (lastSync state = 0 \/ clock w <= lastSync state) /\
  lastSync state <= clock (world m).
Proof.
  intros Hw Hrun Hst.
  pose proof (reachable_timely _ _ _ _ _ Hw Hrun) as Htimely.
  split; [|by apply (Htimely id)].
  apply run_evolves in Hrun as (_ & Hstates & _).
  specialize (Hstates id). cbn [started poller world emit clock] in Hstates.
  rewrite NewEmailPoller_fresh in Hstates.
  case_bool_decide.
  - destruct Hstates as (st' & Hst' & _ & Hl). rewrite Hst in Hst'.
    injection Hst' as <-. cbn in Hl. destruct Hl as [?|[? _]]; auto.
  - congruence.
Qed.

Lemma closesOwed_elem m order id state c :
  id ∈ order -> m !! id = Some state -> isActive state = true ->
  client state = Some c -> handle c ∈ closesOwed m order.
Proof.
  intros Hin Hst Hact Hc. unfold closesOwed. apply list_elem_of_omap.
  exists id. split; [done|]. by rewrite Hst, Hact, Hc.
Qed.

(** X15. [Stop] closes an account's session and leaves it in place:
    after a [Stop] that found the account active with the session [c],
    [Close] has been invoked on [c] and the account still holds [c]. So
    a later cycle for that account sets up no new session: it sends its
    fetch, for the window that was pending, to the closed session, and
    every call it makes goes there. *)
Theorem Stop_leaves_closed_session_in_place order env p w account state c :
  rangeOrder order p -> stoppable p ->
  accountState p !! ID account = Some state -> isActive state = true ->
  client state = Some c ->
  exists p1 w1 evs1,
    Stop order env p w = (Returns None, p1, w1) /\
    trace w1 = trace w ++ evs1 /\
    handle c ∈ closeCalls evs1 /\
    accountState p1 !! ID account = Some (stopped state) /\
    forall env2 w2, exists o p2 w3 evs2,
      poll account env2 p1 w2 = (o, p2, w3) /\
      trace w3 = trace w2 ++ evs2 /\
      sessionsCreated evs2 = [] /\
      fetchWindows evs2 = [lastSync state] /\
      onlyOn (handle c) evs2.
Proof.
  intros Hro Hstop Hst Hact Hc.
  assert (ID account ∈ order) as Hin by by apply (rangeOrder_elem _ p).
  destruct (stopStates_ok env order (accountState p) w) as
    (m' & w' & evs & Hs & Htr & _ & _ & Hcl & _ & _ & Hm'); [apply Hro|done|].
  assert (m' !! ID account = Some (stopped state)) as Hst1.
  { rewrite Hm', Hst. cbn. by rewrite Hact, bool_decide_eq_true_2. }
  exists {| config := config p; accountState := m' |}, w', evs.
  split; [by unfold Stop; rewrite Hs|]. split; [done|].
  split; [rewrite Hcl; by eapply closesOwed_elem|]. split; [done|].
  intros env2 w2.
  destruct (poll_reuses account env2 {| config := config p; accountState := m' |}
              w2 (stopped state) c Hst1 Hc)
    as (o & p2 & w3 & evs2 & st' & Hp & Htr2 & Hs2 & Hon & _).
  destruct (poll_events account env2
              {| config := config p; accountState := m' |} w2 (stopped state)
              o p2 w3 Hst1 Hp)
    as (evs3 & Htr3 & _ & _ & _ & Hf3).
  rewrite Htr2 in Htr3. apply app_inv_head in Htr3 as <-.
  exists o, p2, w3, evs2. split_and!; try done.
  rewrite Hf3. unfold attemptsFetch. cbn. by rewrite Hc.
Qed.

Lemma NewTicker_Some d msg :
  time.NewTicker d = Some msg ->
  msg = "non-positive interval for NewTicker" /\ d <= 0.
Proof.
  unfold time.NewTicker. case_bool_decide; [done|]. intros [= <-].
  split; [done|lia].
Qed.

(** How the two blocks that poll can end: they go on, or the goroutine
    panics, in [time.NewTicker] or inside the fetch. *)
Lemma initialPoll_flow account env p w state f p' w' :
  accountState p !! ID account = Some state ->
  initialPoll account env p w = (f, p', w') ->
  f = Continue \/
  exists msg,
    f = Exit (Panics msg) /\
    ((msg = "non-positive interval for NewTicker" /\
      Interval (Poll (config p)) <= 0) \/
     fetchAnswer env = Panic msg).
Proof.
  intros Hst H. unfold initialPoll in H.
  destruct (time.NewTicker _) as [tmsg|] eqn:Htick.
  { injection H as <- <- <-. apply NewTicker_Some in Htick. eauto. }
  destruct (poll account env p w).1.1 as [err|msg] eqn:Ho.
  - destruct (poll account env p w) as [[o p1] w1]. cbn in Ho. subst o.
    destruct err; injection H as <- <- <-; by left.
  - pose proof (poll_panics _ _ _ _ _ _ Hst Ho) as Hpanic.
    destruct (poll account env p w) as [[o p1] w1]. cbn in Ho. subst o.
    injection H as <- <- <-. eauto.
Qed.

Lemma selectRound_flow account waited env p w state f p' w' :
  accountState p !! ID account = Some state ->
  selectRound account (TickerC waited env) p w = (f, p', w') ->
  f = Continue \/
  exists msg, f = Exit (Panics msg) /\ fetchAnswer env = Panic msg.
Proof.
  intros Hst H. unfold selectRound in H.
  destruct (poll account env p (advance waited w)).1.1 as [err|msg] eqn:Ho.
  - destruct (poll account env p (advance waited w)) as [[o p1] w1].
    cbn in Ho. subst o. destruct err; injection H as <- <- <-; by left.
  - pose proof (poll_panics _ _ _ _ _ _ Hst Ho) as Hpanic.
    destruct (poll account env p (advance waited w)) as [[o p1] w1].
    cbn in Ho. subst o. injection H as <- <- <-. eauto.
Qed.

(** While [Stop] is not called: every goroutine's account has a state,
    every stop channel is open, no [pollAccount] has returned nil, and a
    panic is [time.NewTicker]'s or one inside a fetch. *)
Lemma step_without_Stop s m m' :
  step s m = Some m' -> isStop s = false ->
  (forall g, g ∈ goroutines m ->
     is_Some (accountState (poller m) !! ID (accountOf g))) ->
  (forall id state,
     accountState (poller m) !! id = Some state -> stopChan state = chanOpen) ->
  (forall account, Exited account None ∉ goroutines m) ->
  (forall msg,
     panicked m' = Some msg ->
     (msg = "non-positive interval for NewTicker" /\
      Interval (Poll (config (poller m))) <= 0) \/
     exists env, stepEnv s = Some env /\ fetchAnswer env = Panic msg) /\
  (forall g, g ∈ goroutines m' ->
     is_Some (accountState (poller m') !! ID (accountOf g))) /\
  (forall id state,
     accountState (poller m') !! id = Some state -> stopChan state = chanOpen) /\
  (forall account, Exited account None ∉ goroutines m').
Proof.
  intros H Hns Hdom Hopen Hnil.
  assert (forall g, g ∈ goroutines m' ->
            is_Some (accountState (poller m') !! ID (accountOf g))) as Hdom'.
  { intros g Hg.
    assert (accountOf g ∈ accountOf <$> goroutines m) as Hin.
    { rewrite <- (step_accounts _ _ _ H). apply list_elem_of_fmap. eauto. }
    apply list_elem_of_fmap in Hin as (g0 & Heq & Hg0).
    destruct (Hdom g0 Hg0) as [st Hst]. rewrite Heq.
    apply step_evolves in H as (_ & Hstates & _).
    specialize (Hstates (ID (accountOf g0))). rewrite Hst in Hstates.
    destruct Hstates as (st' & -> & _). eauto. }
  assert (forall id state,
            accountState (poller m') !! id = Some state ->
            stopChan state = chanOpen) as Hopen'.
  { intros id st' Hst'.
    pose proof (step_evolves _ _ _ H) as (_ & Hstates & _).
    specialize (Hstates id).
    destruct (accountState (poller m) !! id) as [st|] eqn:Hst; [|congruence].
    pose proof (Hopen _ _ Hst) as Hch.
    destruct (stopChan st') eqn:Hch'; [done|]. exfalso.
    clear Hstates Hdom' Hdom Hnil.
    step_inv H; try discriminate.
    - destruct (settle_poller i account f (Entered account) p1 (world m) m)
        as (Hp & _ & _). rewrite Hp in Hst'.
      unfold enter in Hblock.
      destruct (accountState (poller m) !! ID account) as [st0|] eqn:Ha;
        [destruct (isActive st0)|]; injection Hblock as <- <-;
        try congruence.
      cbn [setState accountState] in Hst'.
      destruct (decide (id = ID account)) as [->|Hne].
      + rewrite lookup_insert_eq in Hst'. injection Hst' as <-.
        cbn in Hch'. rewrite Hst in Ha. injection Ha as <-. congruence.
      + rewrite lookup_insert_ne in Hst' by done. congruence.
    - destruct (settle_poller i account f (Waiting account) p1 w1 m)
        as (Hp & _ & _). rewrite Hp in Hst'.
      unfold initialPoll in Hblock.
      destruct (time.NewTicker _) as [tmsg|];
        [injection Hblock as <- <- <-; congruence|].
      destruct (poll account env (poller m) (world m)) as [[o p2] w2] eqn:Hpoll.
      destruct (poll_flags _ _ _ _ _ _ _ _ _ Hpoll Hst) as (st2 & Hst2 & _ & Hc2).
      assert (p1 = p2) as -> by (destruct o as [[e|]|msg]; by injection Hblock).
      congruence.
    - destruct (settle_poller i account f (Waiting account) p1 w1 m)
        as (Hp & _ & _). rewrite Hp in Hst'.
      unfold selectRound in Hblock.
      destruct sel as [e| |waited env];
        try (injection Hblock as <- <- <-; congruence).
      destruct (poll account env (poller m) (advance waited (world m)))
        as [[o p2] w2] eqn:Hpoll.
      destruct (poll_flags _ _ _ _ _ _ _ _ _ Hpoll Hst) as (st2 & Hst2 & _ & Hc2).
      assert (p1 = p2) as -> by (destruct o as [[e|]|msg]; by injection Hblock).
      congruence.
    - cbn [poller] in Hst'. congruence. }
  assert (forall i account, goroutines m !! i = Some account ->
            is_Some (accountState (poller m) !! ID (accountOf account))) as Hdomi.
  { intros i g Hg. apply Hdom. by eapply list_elem_of_lookup_2. }
  assert (forall i account f next p w,
            panicked m = None ->
            (f = Continue \/ (exists err, f = Exit (Returns (Some err))) \/
             exists msg, f = Exit (Panics msg)) ->
            exited next = false ->
            (forall msg,
               panicked (settle i account f next p w m) = Some msg ->
               f = Exit (Panics msg)) /\
            forall a, Exited a None ∉ goroutines (settle i account f next p w m))
    as Hsettle.
  { intros i account f next p w Hpan Hf Hnext.
    destruct Hf as [->|[[err ->]|[msg ->]]]; cbn [settle panicked goroutines].
    - split; [intros msg; congruence|].
      intros a Hin. apply list_elem_of_lookup_1 in Hin as [j Hj].
      apply list_lookup_insert_Some in Hj as [(_ & Heq & _)|[_ Hj]];
        [by rewrite Heq in Hnext|]. by eapply Hnil, list_elem_of_lookup_2.
    - split; [intros msg; congruence|].
      intros a Hin. apply list_elem_of_lookup_1 in Hin as [j Hj].
      apply list_lookup_insert_Some in Hj as [(_ & Heq & _)|[_ Hj]];
        [done|]. by eapply Hnil, list_elem_of_lookup_2.
    - split; [by intros msg' [= ->]|]. apply Hnil. }
  assert ((forall msg,
             panicked m' = Some msg ->
             (msg = "non-positive interval for NewTicker" /\
              Interval (Poll (config (poller m))) <= 0) \/
             exists env, stepEnv s = Some env /\ fetchAnswer env = Panic msg) /\
          forall account, Exited account None ∉ goroutines m')
    as [Hpan' Hnil'].
  { clear Hdom' Hopen'. step_inv H; try discriminate.
    - destruct (Hdomi _ _ Hg) as [st Hst]. cbn in Hst.
      edestruct (Hsettle i account f (Entered account) p1 (world m))
        as [Hp Hn]; [done| |done|].
      { unfold enter in Hblock. rewrite Hst in Hblock.
        destruct (isActive st); injection Hblock as <- <-; eauto. }
      split; [|done]. intros msg Hmsg. apply Hp in Hmsg.
      unfold enter in Hblock. rewrite Hst in Hblock.
      destruct (isActive st); injection Hblock as <- <-; discriminate.
    - destruct (Hdomi _ _ Hg) as [st Hst]. cbn in Hst.
      pose proof (initialPoll_flow _ _ _ _ _ _ _ _ Hst Hblock) as Hflow.
      edestruct (Hsettle i account f (Waiting account) p1 w1)
        as [Hp Hn]; [done| |done|].
      { destruct Hflow as [->|(msg & -> & _)]; eauto. }
      split; [|done]. intros msg Hmsg. apply Hp in Hmsg. subst f.
      destruct Hflow as [?|(msg' & [= <-] & [?|?])]; [done|by left|].
      right. exists env. done.
    - destruct (Hdomi _ _ Hg) as [st Hst]. cbn in Hst.
      destruct sel as [e| |waited env].
      + cbn [selectRound] in Hblock. injection Hblock as <- <- <-.
        edestruct (Hsettle i account (Exit (Returns (Some e)))
                     (Waiting account) (poller m) (world m))
          as [Hp Hn]; [done|eauto|done|].
        split; [|done]. intros msg Hmsg. by apply Hp in Hmsg.
      + unfold ready in Hready. rewrite Hst, (Hopen _ _ Hst) in Hready.
        discriminate.
      + pose proof (selectRound_flow _ _ _ _ _ _ _ _ _ Hst Hblock) as Hflow.
        edestruct (Hsettle i account f (Waiting account) p1 w1)
          as [Hp Hn]; [done| |done|].
        { destruct Hflow as [->|(msg & -> & _)]; eauto. }
        split; [|done]. intros msg Hmsg. apply Hp in Hmsg. subst f.
        destruct Hflow as [?|(msg' & [= <-] & ?)]; [done|].
        right. exists env. done.
    - cbn [panicked goroutines]. split; [|done]. intros msg. congruence. }
  done.
Qed.

Lemma run_without_Stop steps : forall m m',
  run steps m = Some m' ->
  Forall (fun s => isStop s = false) steps ->
  panicked m = None ->
  (forall g, g ∈ goroutines m ->
     is_Some (accountState (poller m) !! ID (accountOf g))) ->
  (forall id state,
     accountState (poller m) !! id = Some state -> stopChan state = chanOpen) ->
  (forall account, Exited account None ∉ goroutines m) ->
  (forall msg,
     panicked m' = Some msg ->
     (msg = "non-positive interval for NewTicker" /\
      Interval (Poll (config (poller m))) <= 0) \/
     exists s env,
       s ∈ steps /\ stepEnv s = Some env /\ fetchAnswer env = Panic msg) /\
  (forall account, Exited account None ∉ goroutines m').
Proof.
  induction steps as [|s steps IH]; intros m m' H Hns Hpan Hdom Hopen Hnil;
    cbn in H.
  { injection H as <-. split; [|done]. intros msg. congruence. }
  destruct (step s m) as [m1|] eqn:Hs; [|discriminate].
  apply Forall_cons in Hns as [Hs1 Hns].
  destruct (step_without_Stop _ _ _ Hs Hs1 Hdom Hopen Hnil)
    as (Hpan1 & Hdom1 & Hopen1 & Hnil1).
  pose proof (step_evolves _ _ _ Hs) as (Hcfg & _).
  destruct (panicked m1) as [msg1|] eqn:Hp1.
  - destruct steps as [|s2 steps].
    + injection H as <-. split; [|done]. intros msg Hmsg.
      rewrite Hp1 in Hmsg. injection Hmsg as <-.
      destruct (Hpan1 msg1 eq_refl) as [?|(env & ? & ?)]; [by left|].
      right. exists s, env. split; [|done]. apply elem_of_cons. by left.
    + cbn in H. unfold step in H. by rewrite Hp1 in H.
  - destruct (IH m1 m' H Hns Hp1 Hdom1 Hopen1 Hnil1) as [Hpan' Hnil'].
    split; [|done]. intros msg Hmsg.
    destruct (Hpan' msg Hmsg) as [[? ?]|(s' & env & ? & ? & ?)].
    + left. split; [done|]. by rewrite <- Hcfg.
    + right. exists s', env. split; [|done]. apply elem_of_cons. by right.
Qed.

Lemma started_without_Stop cfg ctx w steps m :
  run steps (started ctx (NewEmailPoller cfg) w) = Some m ->
  Forall (fun s => isStop s = false) steps ->
  (forall msg,
     panicked m = Some msg ->
     (msg = "non-positive interval for NewTicker" /\
      Interval (Poll cfg) <= 0) \/
     exists s env,
       s ∈ steps /\ stepEnv s = Some env /\ fetchAnswer env = Panic msg) /\
  (forall account, Exited account None ∉ goroutines m).
Proof.
  intros Hrun Hns.
  apply (run_without_Stop steps (started ctx (NewEmailPoller cfg) w));
    try done.
  - intros g Hg. cbn [started goroutines poller] in *. unfold spawn in Hg.
    apply list_elem_of_fmap in Hg as (account & -> & Hin).
    apply list_elem_of_filter in Hin as [_ Hin].
    change (is_Some (accountState (NewEmailPoller cfg) !! ID account)).
    rewrite NewEmailPoller_fresh, bool_decide_eq_true_2; [eauto|].
    apply list_elem_of_fmap. eauto.
  - intros id state.
    change (accountState (NewEmailPoller cfg) !! id = Some state ->
            stopChan state = chanOpen).
    rewrite NewEmailPoller_fresh.
    case_bool_decide; [|done]. by intros [= <-].
  - intros account Hin. cbn [started goroutines] in Hin. unfold spawn in Hin.
    by apply list_elem_of_fmap in Hin as (a & ? & _).
Qed.

(** With a positive interval and no fetch panicking, nothing panics. *)
Lemma quiet_no_panic (steps : list Step) (d : Z) (panic : option string) :
  0 < d ->
  Forall (fun s => quietStep s = true) steps ->
  (forall msg,
     panic = Some msg ->
     (msg = "non-positive interval for NewTicker" /\ d <= 0) \/
     exists s env,
       s ∈ steps /\ stepEnv s = Some env /\ fetchAnswer env = Panic msg) ->
  panic = None.
Proof.
  intros Hpos Hquiet Hpan. destruct panic as [msg|]; [|done]. exfalso.
  destruct (Hpan msg eq_refl) as [[_ ?]|(s & env & Hin & Henv & Hf)]; [lia|].
  apply (proj1 (Forall_forall _ _) Hquiet) in Hin.
  unfold quietStep, fetchPanics in Hin. rewrite Henv, Hf in Hin. done.
Qed.

Lemma StartResult_nil_all_exited m :
  StartResult m = Some (Returns None) ->
  reported m ->
  forall g, g ∈ goroutines m -> exists account, g = Exited account None.
Proof.
  unfold StartResult. intros H Hrep g Hg.
  destruct (panicked m); [discriminate|].
  destruct (errChan m) as [|e l] eqn:Hch; [|discriminate].
  destruct (forallb exited (goroutines m)) eqn:Hall; [|discriminate].
  pose proof (proj1 (forallb_forall _ _) Hall g) as Hex.
  rewrite <- list_elem_of_In in Hex. specialize (Hex Hg).
  destruct g as [a|a|a|a [err|]]; try discriminate; [|eauto].
  apply list_elem_of_lookup_1 in Hg as [i Hi].
  apply Hrep in Hi. rewrite Hch in Hi. by apply elem_of_nil in Hi.
Qed.

Lemma poll_no_close account env p w o p' w' :
  poll account env p w = (o, p', w') ->
  exists evs, trace w' = trace w ++ evs /\ closeCalls evs = [].
Proof.
  intros H. destruct (accountState p !! ID account) as [state|] eqn:Hst.
  - destruct (poll_events _ _ _ _ _ _ _ _ Hst H) as (evs & Htr & Hcl & _).
    eauto.
  - rewrite (poll_missing _ _ _ _ Hst) in H. injection H as <- <- <-.
    exists []. by rewrite app_nil_r.
Qed.

Lemma step_no_close s m m' :
  step s m = Some m' -> isStop s = false ->
  exists evs, trace (world m') = trace (world m) ++ evs /\ closeCalls evs = [].
Proof.
  intros H Hns. step_inv H; try discriminate.
  - destruct (settle_poller i account f (Entered account) p1 (world m) m)
      as (_ & -> & _). exists []. by rewrite app_nil_r.
  - destruct (settle_poller i account f (Waiting account) p1 w1 m)
      as (_ & -> & _).
    unfold initialPoll in Hblock.
    destruct (time.NewTicker _) as [tmsg|].
    { injection Hblock as <- <- <-. exists []. by rewrite app_nil_r. }
    destruct (poll account env (poller m) (world m)) as [[o p2] w2] eqn:Hp.
    destruct (poll_no_close _ _ _ _ _ _ _ Hp) as (evs & Htr & Hcl).
    destruct o as [[e|]|msg]; injection Hblock as <- <- <-; eauto.
    eexists. cbn [emit trace]. rewrite Htr, <- app_assoc.
    split; [reflexivity|]. by rewrite closeCalls_app, Hcl.
  - destruct (settle_poller i account f (Waiting account) p1 w1 m)
      as (_ & -> & _).
    unfold selectRound in Hblock.
    destruct sel as [e| |waited env];
      try (injection Hblock as <- <- <-; exists []; by rewrite app_nil_r).
    destruct (poll account env (poller m) (advance waited (world m)))
      as [[o p2] w2] eqn:Hp.
    destruct (poll_no_close _ _ _ _ _ _ _ Hp) as (evs & Htr & Hcl).
    cbn [advance trace] in Htr.
    destruct o as [[e|]|msg]; injection Hblock as <- <- <-; eauto.
    eexists. cbn [emit trace]. rewrite Htr, <- app_assoc.
    split; [reflexivity|]. by rewrite closeCalls_app, Hcl.
  - exists []. by rewrite app_nil_r.
Qed.

(** X22. Only [Stop] closes sessions. In a process in which [Stop] is
    not called, whatever the loops do and whether or not the context is
    cancelled, no [Close] is invoked: the sessions the polls have set up
    stay open, also when the loops have returned. *)
Theorem only_Stop_closes_sessions steps m m' :
  run steps m = Some m' ->
  Forall (fun s => isStop s = false) steps ->
  exists evs,
    trace (world m') = trace (world m) ++ evs /\ closeCalls evs = [].
Proof.
  revert m. induction steps as [|s steps IH]; intros m H Hns; cbn in H.
  { injection H as <-. exists []. by rewrite app_nil_r. }
  destruct (step s m) as [m1|] eqn:Hs; [|discriminate].
  apply Forall_cons in Hns as [Hs1 Hns].
  destruct (step_no_close _ _ _ Hs Hs1) as (evs1 & Htr1 & Hcl1).
  destruct (IH _ H Hns) as (evs & Htr & Hcl).
  exists (evs1 ++ evs). rewrite Htr, Htr1, <- app_assoc.
  split; [done|]. by rewrite closeCalls_app, Hcl1, Hcl.
Qed.

Lemma sum_sends_insert (gs : list Goroutine) i g g' :
  gs !! i = Some g ->
  (sum_list (sends <$> <[i := g']> gs) + sends g =
   sum_list (sends <$> gs) + sends g')%nat.
Proof.
  revert i. induction gs as [|g0 gs IH]; intros [|i] Hg; try done.
  - injection Hg as ->. cbn. lia.
  - specialize (IH i Hg).
    change (sends g0 + sum_list (sends <$> <[i := g']> gs) + sends g =
            sends g0 + sum_list (sends <$> gs) + sends g')%nat.
    lia.
Qed.

Lemma sum_sends_bound (gs : list Goroutine) :
  (sum_list (sends <$> gs) <= length gs)%nat.
Proof.
  induction gs as [|g gs IH]; cbn; [lia|].
  destruct g as [a|a|a|a [e|]]; cbn; lia.
Qed.

Lemma step_sends s m m' :
  step s m = Some m' ->
  length (errChan m) = sum_list (sends <$> goroutines m) ->
  length (errChan m') = sum_list (sends <$> goroutines m').
Proof.
  intros H Hinv.
  assert (forall i account f next p w g,
            goroutines m !! i = Some g -> sends g = 0%nat ->
            sends next = 0%nat ->
            length (errChan (settle i account f next p w m)) =
            sum_list (sends <$> goroutines (settle i account f next p w m)))
    as Hsettle.
  { intros i account f next p w g Hg Hg0 Hn0.
    destruct f as [|[[err|]|msg]]; cbn [settle errChan goroutines];
      try done.
    - pose proof (sum_sends_insert _ i g next Hg). lia.
    - pose proof (sum_sends_insert _ i g (Exited account (Some err)) Hg).
      rewrite length_app. cbn in *. lia.
    - pose proof (sum_sends_insert _ i g (Exited account None) Hg).
      rewrite app_nil_r. cbn in *. lia. }
  step_inv H; cbn [errChan goroutines]; try done;
    eapply Hsettle; eauto.
Qed.

Lemma run_sends steps m m' :
  run steps m = Some m' ->
  length (errChan m) = sum_list (sends <$> goroutines m) ->
  length (errChan m') = sum_list (sends <$> goroutines m').
Proof.
  revert m. induction steps as [|s steps IH]; intros m H Hinv; cbn in H.
  { by injection H as <-. }
  destruct (step s m) as [m1|] eqn:Hs; [|discriminate].
  apply (IH m1 H). by apply (step_sends s m).
Qed.

(** X23. The error channel never overflows. In every process [Start]
    has set going, at any time, the errors sent on the channel are one
    for each loop whose [pollAccount] has returned an error, so at most
    one per enabled account, which is within the capacity [Start] gave
    the channel, the number of configured accounts: no send blocks. *)
Theorem errChan_within_capacity steps ctx p w m :
  run steps (started ctx p w) = Some m ->
  length (errChan m) = sum_list (sends <$> goroutines m) /\
  (length (errChan m) <= length (enabledAccounts (config p)))%nat /\
  (length (enabledAccounts (config p)) <= length (EmailAccounts (config p)))%nat.
Proof.
  intros Hrun.
  assert (length (errChan m) = sum_list (sends <$> goroutines m)) as Hinv.
  { apply (run_sends _ _ _ Hrun). cbn [started errChan goroutines].
    unfold spawn. induction (filter _ _) as [|a l IH]; [done|]. cbn in *. lia. }
  split; [done|]. split.
  - rewrite Hinv, <- (started_accounts ctx p w), <- (run_accounts _ _ _ Hrun).
    rewrite length_fmap. apply sum_sends_bound.
  - apply length_filter.
Qed.

(** A cycle stores only a session it has connected. *)
Lemma poll_sessions account env p w o p' w' id st' c :
  poll account env p w = (o, p', w') ->
  accountState p' !! id = Some st' -> client st' = Some c ->
  (exists st, accountState p !! id = Some st /\ client st = Some c) \/
  is_Some (email.client c).
Proof.
  intros H Hl Hc.
  destruct (accountState p !! ID account) as [state|] eqn:Hst.
  2:{ rewrite (poll_missing _ _ _ _ Hst) in H. injection H as <- <- <-. eauto. }
  destruct (decide (id = ID account)) as [->|Hne].
  2:{ destruct (poll_frame _ _ _ _ _ _ _ H) as (_ & Hother & _).
      rewrite (Hother id Hne) in Hl. eauto. }
  destruct (client state) as [c0|] eqn:Hc0.
  - destruct (poll_frame _ _ _ _ _ _ _ H) as (_ & _ & Hself & _).
    destruct (Hself state Hst) as (st1 & Hl1 & _ & _ & Hkeep & _).
    rewrite Hl in Hl1. injection Hl1 as <-.
    rewrite (Hkeep c0 Hc0) in Hc. injection Hc as <-. eauto.
  - unfold poll in H. rewrite Hst, Hc0 in H.
    destruct (initClient account env w) as [[err|c1] w1] eqn:Hi.
    + injection H as <- <- <-. rewrite Hst in Hl. injection Hl as <-.
      congruence.
    + apply initClient_inr in Hi as (-> & _).
      assert (accountState
                (setState (ID account)
                   (set_client (Some (connected account (nextHandle w))) state)
                   p) !! ID account =
              Some (set_client (Some (connected account (nextHandle w))) state))
        as Hst1 by apply lookup_insert_eq.
      change (fetchAndProcess account env (lastSync state)
                (connected account (nextHandle w))
                (set_client (Some (connected account (nextHandle w))) state)
                (setState (ID account)
                   (set_client (Some (connected account (nextHandle w))) state)
                   p) w1 = (o, p', w')) in H.
      unfold fetchAndProcess in H.
      destruct (FetchNewEmails _ _ _).1 as [[err|emails]|msg];
        injection H as <- <- <-.
      * rewrite Hst1 in Hl. injection Hl as <-. cbn in Hc.
        injection Hc as <-. right. apply connected_is_Some.
      * cbn [setState accountState] in Hl.
        rewrite lookup_insert_eq in Hl. injection Hl as <-. cbn in Hc.
        injection Hc as <-. right. apply connected_is_Some.
      * rewrite Hst1 in Hl. injection Hl as <-. cbn in Hc.
        injection Hc as <-. right. apply connected_is_Some.
Qed.

Lemma step_sessions s m m' id st' c :
  step s m = Some m' ->
  accountState (poller m') !! id = Some st' -> client st' = Some c ->
  (exists st, accountState (poller m) !! id = Some st /\ client st = Some c) \/
  is_Some (email.client c).
Proof.
  intros H Hl Hc. step_inv H.
  - destruct (settle_poller i account f (Entered account) p1 (world m) m)
      as (Hp & _ & _). rewrite Hp in Hl.
    unfold enter in Hblock.
    destruct (accountState (poller m) !! ID account) as [st0|] eqn:Ha;
      [destruct (isActive st0)|]; injection Hblock as <- <-; eauto.
    cbn [setState accountState] in Hl.
    destruct (decide (id = ID account)) as [->|Hne].
    + rewrite lookup_insert_eq in Hl. injection Hl as <-. cbn in Hc. eauto.
    + rewrite lookup_insert_ne in Hl by done. eauto.
  - destruct (settle_poller i account f (Waiting account) p1 w1 m)
      as (Hp & _ & _). rewrite Hp in Hl.
    unfold initialPoll in Hblock.
    destruct (time.NewTicker _) as [tmsg|];
      [injection Hblock as <- <- <-; eauto|].
    destruct (poll account env (poller m) (world m)) as [[o p2] w2] eqn:Hpoll.
    assert (p1 = p2) as -> by (destruct o as [[e|]|msg]; by injection Hblock).
    by eapply poll_sessions.
  - destruct (settle_poller i account f (Waiting account) p1 w1 m)
      as (Hp & _ & _). rewrite Hp in Hl.
    unfold selectRound in Hblock.
    destruct sel as [e| |waited env];
      try (injection Hblock as <- <- <-; eauto; fail).
    destruct (poll account env (poller m) (advance waited (world m)))
      as [[o p2] w2] eqn:Hpoll.
    assert (p1 = p2) as -> by (destruct o as [[e|]|msg]; by injection Hblock).
    by eapply poll_sessions.
  - eauto.
  - cbn [poller] in Hl. unfold Stop in Hblock.
    destruct (stopStates env order (accountState (poller m)) (world m))
      as [[o' m1] w2] eqn:Hs.
    injection Hblock as <- <- <-. cbn [accountState] in Hl.
    pose proof (stopStates_frame _ _ _ _ _ _ _ id Hs) as Hf.
    destruct (accountState (poller m) !! id) as [st|] eqn:Hst; [|congruence].
    destruct Hf as (st1 & Hl1 & _ & Hcl & _). rewrite Hl in Hl1.
    injection Hl1 as <-. left. exists st. split; [done|congruence].
Qed.

Lemma run_sessions steps : forall m m',
  run steps m = Some m' ->
  (forall id st c,
     accountState (poller m) !! id = Some st -> client st = Some c ->
     is_Some (email.client c)) ->
  forall id st c,
    accountState (poller m') !! id = Some st -> client st = Some c ->
    is_Some (email.client c).
Proof.
  induction steps as [|s steps IH]; intros m m' H Hinv; cbn in H.
  { by injection H as <-. }
  destruct (step s m) as [m1|] eqn:Hs; [|discriminate].
  apply (IH m1 m' H). intros id st c Hl Hc.
  destruct (step_sessions _ _ _ _ _ _ Hs Hl Hc) as [(st0 & Hl0 & Hc0)|?];
    [by eapply Hinv|done].
Qed.

(** X20. Every session an account holds is connected. In every process
    [Start] has set going on a new poller, at any time, a session stored
    in an account's state has been through a [Connect] that succeeded:
    [poll] stores a session only after connecting and authenticating. So
    on a held session the guard "client not connected" of the client's
    methods never fires: [FetchNewEmails] performs the exchange with the
    server, [ApplyLabel] returns the server's answer to the STORE, and
    the [Close] that [Stop] calls sends the LOGOUT. *)
Theorem stored_sessions_are_connected cfg ctx w steps m id state c :
  run steps (started ctx (NewEmailPoller cfg) w) = Some m ->
  accountState (poller m) !! id = Some state -> client state = Some c ->
  is_Some (email.client c) /\
  (forall fenv since, FetchNewEmails fenv c since = exchange fenv since) /\
  (forall store uid label,
     ApplyLabel store c uid label = errorString <$> store) /\
  (forall logout, Close logout c = errorString <$> logout).
Proof.
  intros Hrun Hl Hc.
  assert (is_Some (email.client c)) as [conn Hconn].
  { apply (run_sessions _ _ _ Hrun) with id state; [|done|done].
    intros id0 st0 c0. cbn [started poller]. rewrite NewEmailPoller_fresh.
    case_bool_decide; [|done]. by intros [= <-]. }
  split; [eauto|]. unfold FetchNewEmails, ApplyLabel, Close.
  by rewrite Hconn.
Qed.

Lemma Start_nil_free cfg ctx w steps m :
  run steps (started ctx (NewEmailPoller cfg) w) = Some m ->
  Forall (fun s => isStop s = false) steps ->
  (forall msg,
     panicked m = Some msg ->
     (msg = "non-positive interval for NewTicker" /\
      Interval (Poll cfg) <= 0) \/
     exists s env,
       s ∈ steps /\ stepEnv s = Some env /\ fetchAnswer env = Panic msg) /\
  (StartResult m = Some (Returns None) -> enabledAccounts cfg = []).
Proof.
  intros Hrun Hns.
  destruct (started_without_Stop _ _ _ _ _ Hrun Hns) as [Hpan Hnil].
  pose proof (run_reported _ _ _ Hrun (started_reported _ _ _)) as Hrep.
  pose proof (run_accounts _ _ _ Hrun) as Hacc.
  rewrite started_accounts in Hacc. cbn [NewEmailPoller config] in Hacc.
  split; [done|].
  intros Hres. rewrite <- Hacc.
  destruct (goroutines m) as [|g gs] eqn:Hgs; [done|]. exfalso.
  destruct (StartResult_nil_all_exited m Hres Hrep g) as [a ->].
  { rewrite Hgs. apply elem_of_cons. by left. }
  apply (Hnil a). rewrite ?Hgs. apply elem_of_cons. by left.
Qed.

Lemma StartResult_cases m :
  StartResult m = None \/
  (exists err, StartResult m = Some (Returns (Some err))) \/
  (StartResult m = Some (Returns None) /\ panicked m = None) \/
  (exists msg, StartResult m = Some (Panics msg) /\ panicked m = Some msg).
Proof.
  unfold StartResult. destruct (panicked m) as [msg|]; [eauto 10|].
  destruct (errChan m); [|eauto 10].
  destruct (forallb exited (goroutines m)); eauto 10.
Qed.

(** X16. Without [Stop], [Start] does not return nil. In a process set
    going on a new poller in which [Stop] is not called, no loop returns
    nil, whatever the polls and a cancellation do, so [Start] returns nil
    only when no account is enabled. A goroutine can panic in two ways
    only: in [time.NewTicker], when the configured interval is not
    positive, and inside a fetch, on a message without envelope or with a
    nil first sender. With a positive interval and no such message
    nothing panics, and with an enabled account [Start] then blocks until
    it has an error to return. *)
Theorem Start_nil_needs_Stop cfg ctx w steps m :
  run steps (started ctx (NewEmailPoller cfg) w) = Some m ->
  Forall (fun s => isStop s = false) steps ->
  (forall i account err,
     goroutines m !! i = Some (Exited account err) -> is_Some err) /\
  (StartResult m = Some (Returns None) -> enabledAccounts cfg = []) /\
  (forall msg,
     panicked m = Some msg ->
     (msg = "non-positive interval for NewTicker" /\
      Interval (Poll cfg) <= 0) \/
     exists s env,
       s ∈ steps /\ stepEnv s = Some env /\ fetchAnswer env = Panic msg) /\
  (0 < Interval (Poll cfg) ->
   Forall (fun s => quietStep s = true) steps ->
   panicked m = None /\
   (enabledAccounts cfg <> [] ->
    StartResult m = None \/
    exists err, StartResult m = Some (Returns (Some err)))).
Proof.
  intros Hrun Hns.
  destruct (started_without_Stop _ _ _ _ _ Hrun Hns) as [_ Hnil].
  destruct (Start_nil_free _ _ _ _ _ Hrun Hns) as [Hpan Hres].
  split; [|split; [done|split; [done|]]].
  - intros i account [err|] Hg; [eauto|]. exfalso.
    apply (Hnil account). by eapply list_elem_of_lookup_2.
  - intros Hpos Hquiet.
    pose proof (quiet_no_panic _ _ _ Hpos Hquiet Hpan) as Hnone.
    split; [done|]. intros Hne.
    destruct (StartResult_cases m) as [?|[?|[[? _]|(msg & _ & ?)]]]; eauto.
    + by destruct Hne, Hres.
    + congruence.
Qed.

(** X17. [main] never exits with status 0. Whenever the process ends,
    under any schedule of its loop and any arrival of a signal, its exit
    status is 1 or 2: [main] never calls [Stop], so its [Start] cannot
    return nil, the cancellation by SIGINT or SIGTERM coming back as an
    error. The status is 2 only when a fetch has panicked, on a message
    without envelope or with a nil first sender; otherwise it is 1. *)
Theorem main_never_exits_with_status_0 steps w status :
  main steps w = Some status ->
  (status = 1 \/ status = 2) /\
  (status = 2 ->
   exists s env msg,
     s ∈ steps /\ stepEnv s = Some env /\ fetchAnswer env = Panic msg) /\
  (Forall (fun s => quietStep s = true) steps -> status = 1).
Proof.
  unfold main, Start. intros H.
  destruct (forallb (fun s => negb (isStop s)) steps) eqn:Hns; [|discriminate].
  destruct (run steps (started None (NewEmailPoller DefaultConfig) w))
    as [m|] eqn:Hrun; [|discriminate].
  cbn [mbind option_bind] in H.
  destruct (StartResult m) as [o|] eqn:HS; [|discriminate].
  cbn [mbind option_bind] in H. injection H as <-.
  assert (Forall (fun s => isStop s = false) steps) as Hns'.
  { apply Forall_forall. intros s Hin.
    pose proof (proj1 (forallb_forall _ _) Hns s) as Hs.
    rewrite <- list_elem_of_In in Hs. specialize (Hs Hin).
    by destruct (isStop s). }
  destruct (Start_nil_free _ _ _ _ _ Hrun Hns') as (Hpan & Hres).
  assert (0 < Interval (Poll DefaultConfig)) as Hpos by (by vm_compute).
  destruct (StartResult_cases m) as [?|[[err ?]|[[? _]|(msg & ? & Hm)]]];
    [congruence| | |].
  - assert (o = Returns (Some err)) as -> by congruence. cbn.
    split; [by left|]. split; [done|]. done.
  - by apply Hres in H.
  - assert (o = Panics msg) as -> by congruence. cbn [exitStatus].
    split; [by right|].
    destruct (Hpan msg Hm) as [[_ ?]|(s & env & ? & ? & ?)]; [lia|].
    split; [eauto 10|]. intros Hquiet.
    by rewrite (quiet_no_panic _ _ _ Hpos Hquiet Hpan) in Hm.
Qed.

End Scheduler.

(** ** The properties at work

    The scheduler over [strings.asciiToLower], on the sample data. *)

Example DefaultConfig_scenario :
  containsIgnoreCase strings.asciiToLower "Job Opportunity at Acme"
    "job opportunity" = true /\
  containsIgnoreCase strings.asciiToLower "Lunch plans" "job opportunity"
    = false /\
  labelRequests
    (trace (poll strings.asciiToLower primary (envOk inbox 5)
              (NewEmailPoller DefaultConfig) world0).2) = [(0%nat, 7%N, "imp")].
Proof. by vm_compute. Qed.

Example activeNoSession_reached :
  (initialPoll strings.asciiToLower primary (envNoDial 5)
     (enter primary (NewEmailPoller DefaultConfig)).2 world0).1.2
  = activeNoSession.
Proof. by vm_compute. Qed.

Example activeWithSession_reached :
  (initialPoll strings.asciiToLower primary (envOk [] 5)
     (enter primary (NewEmailPoller DefaultConfig)).2 world0).1.2
  = activeWithSession.
Proof. by vm_compute. Qed.

(** On ASCII, "case-insensitive substring" has its plain meaning: some
    substring of the subject equals the fragment up to the case of its
    letters. *)
Lemma asciiToLower_app (a b : string) :
  strings.asciiToLower (a +:+ b) =
  strings.asciiToLower a +:+ strings.asciiToLower b.
Proof.
  induction a as [|c a IH]; [done|].
  change (String (strings.lowerByte c) (strings.asciiToLower (a +:+ b)) =
          String (strings.lowerByte c)
            (strings.asciiToLower a +:+ strings.asciiToLower b)).
  by rewrite IH.
Qed.

Lemma asciiToLower_split (s x y : string) :
  strings.asciiToLower s = x +:+ y ->
  exists a b,
    s = a +:+ b /\ strings.asciiToLower a = x /\ strings.asciiToLower b = y.
Proof.
  revert s. induction x as [|c x IH]; intros s H.
  - by exists "", s.
  - change (String c x +:+ y) with (String c (x +:+ y)) in H.
    destruct s as [|d s]; [done|].
    cbn [strings.asciiToLower] in H. injection H as Hc Hs.
    destruct (IH s Hs) as (a & b & -> & Ha & Hb).
    exists (String d a), b. split; [reflexivity|]. split; [|done].
    cbn [strings.asciiToLower]. by rewrite Hc, Ha.
Qed.

Lemma containsIgnoreCase_ascii (s frag : string) :
  containsIgnoreCase strings.asciiToLower s frag = true <->
  exists pre mid suf,
    s = pre +:+ mid +:+ suf /\
    strings.asciiToLower mid = strings.asciiToLower frag.
Proof.
  unfold containsIgnoreCase. rewrite Contains_spec. split.
  - intros (pre' & suf' & H).
    apply asciiToLower_split in H as (pre & rest & -> & _ & H).
    apply asciiToLower_split in H as (mid & suf & -> & Hmid & _).
    by exists pre, mid, suf.
  - intros (pre & mid & suf & -> & Hmid).
    exists (strings.asciiToLower pre), (strings.asciiToLower suf).
    by rewrite !asciiToLower_app, Hmid.
Qed.

(** Proves [l = r], where [r] may have holes, by evaluating [l]. *)
Ltac computed :=
  lazymatch goal with
  | |- ?l = ?r => let v := eval vm_compute in l in unify r v
  end;
  vm_compute; reflexivity.

(** C1, against the claim as stated: three loops run, every poll
    succeeds, the context is cancelled and each loop ends through the
    cancellation case and nothing else; [Start] returns an error. *)
Lemma Start_cancelled_returns_error :
  match
    run strings.asciiToLower cancelThree
      (started None (NewEmailPoller threeAccounts) world0)
  with
  | Some m =>
      goroutines m =
        [ Exited (acct "a" true) (Some Canceled);
          Exited (acct "b" true) (Some Canceled);
          Exited (acct "c" true) (Some Canceled) ] /\
      StartResult m =
        Some (Returns (Some (wrapError "error polling account a" Canceled)))
  | None => False
  end.
Proof. vm_compute. split; reflexivity. Qed.

Lemma Start_cancellation_is_error_witness :
  exists m m',
    run strings.asciiToLower cancelledWaiting
      (started None (NewEmailPoller threeAccounts) world0) = Some m /\
    step strings.asciiToLower (StepSelect 0 (CtxDone Canceled)) m = Some m' /\
    exists e, StartResult m' = Some (Returns (Some e)).
Proof.
  eexists. 
  assert (run strings.asciiToLower cancelledWaiting
            (started None (NewEmailPoller threeAccounts) world0) = Some _)
    as Hrun by computed.
  destruct (Start_cancellation_is_error strings.asciiToLower _ _ _ _ _ Hrun)
    as (Hcancel & _ & _).
  destruct (Hcancel 0%nat (acct "a" true) Canceled)
    as (m' & Hstep & _ & _ & _ & Hres & _); [computed..|].
  exists m'. split; [exact Hrun|]. split; [exact Hstep | exact Hres].
Defined.

Lemma second_start_fails_witness :
  pollAccount strings.asciiToLower primary (envOk inbox 1) [] activeNoSession
    world0 =
  (Exit (Returns (Some (alreadyActive primary))), activeNoSession, world0) /\
  exists m3 m4,
    run strings.asciiToLower (StepEnter 0 :: firstLoopRuns)
      (started None (NewEmailPoller twiceSame) world0) = Some m3 /\
    step strings.asciiToLower (StepEnter 1) m3 = Some m4 /\
    goroutines m4 !! 1%nat =
      Some (Exited (acct "a" true) (Some (alreadyActive (acct "a" true)))) /\
    poller m4 = poller m3 /\ world m4 = world m3.
Proof.
  destruct (second_start_fails strings.asciiToLower) as [Hone Htwo]. split.
  - eapply Hone; computed.
  - edestruct Htwo
      with (m1 := started None (NewEmailPoller twiceSame) world0)
           (i := 0%nat) (j := 1%nat) (a1 := acct "a" true)
           (a2 := acct "a" true) (between := firstLoopRuns)
      as (_ & _ & Hex & Hp & Hw & _).
    + discriminate.
    + computed.
    + computed.
    + reflexivity.
    + computed.
    + reflexivity.
    + computed.
    + computed.
    + repeat constructor.
    + computed.
    + do 2 eexists. split; [computed|]. split; [computed|].
      split; [exact Hex|]. split; [exact Hp | exact Hw].
Defined.

Lemma lastSync_advances_witness :
  exists p' w' state',
    poll strings.asciiToLower primary (envOk [] 5)
      (NewEmailPoller DefaultConfig) world0 = (Returns None, p', w') /\
    accountState p' !! "primary" = Some state' /\
    lastSync state' = 105 /\ clock world0 <= lastSync state'.
Proof.
  edestruct lastSync_advances
    with (ToLower := strings.asciiToLower) (account := primary)
         (env := envOk [] 5) (p := NewEmailPoller DefaultConfig) (w := world0)
    as (p' & w' & state' & Hp & Hl & Hls & Hck & Hge & _).
  - computed.
  - apply NewEmailPoller_timely. unfold world0. cbn. lia.
  - split; reflexivity.
  - reflexivity.
  - exists p', w', state'. split; [exact Hp|]. split; [exact Hl|].
    split; [|exact Hge]. rewrite Hls, Hck. reflexivity.
Defined.

Lemma poll_error_keeps_lastSync_witness :
  exists err p' w' state',
    poll strings.asciiToLower primary (envNoDial 5)
      (NewEmailPoller DefaultConfig) world0 = (Returns (Some err), p', w') /\
    accountState p' !! "primary" = Some state' /\
    lastSync state' = 0.
Proof.
  edestruct poll_error_keeps_lastSync
    with (ToLower := strings.asciiToLower) (account := primary)
         (env := envNoDial 5) (p := NewEmailPoller DefaultConfig) (w := world0)
    as (state' & Hl & Hls & _).
  - computed.
  - computed.
  - do 3 eexists. exists state'. split; [computed|]. split; [exact Hl | exact Hls].
Defined.

Lemma rules_applied_in_order_witness :
  labelRequests
    (trace (poll strings.asciiToLower primary (envNoStore inbox 5)
              (NewEmailPoller demoConfig) world0).2) =
  [(0%nat, 7%N, "imp"); (0%nat, 7%N, "all"); (0%nat, 8%N, "all")].
Proof.
  edestruct rules_applied_in_order
    with (ToLower := strings.asciiToLower) (account := primary)
         (env := envNoStore inbox 5) (p := NewEmailPoller demoConfig)
         (w := world0)
    as (_ & p' & w' & Hp & Hreq).
  - computed.
  - split; reflexivity.
  - reflexivity.
  - rewrite Hp. cbn [snd]. rewrite Hreq. vm_compute. reflexivity.
Defined.

Lemma empty_fragment_matches_all_witness :
  (0%nat, 8%N, "all") ∈
  labelRequests
    (trace (poll strings.asciiToLower primary (envOk inbox 5)
              (NewEmailPoller demoConfig) world0).2).
Proof.
  edestruct empty_fragment_matches_all
    with (ToLower := strings.asciiToLower) (account := primary)
         (env := envOk inbox 5) (p := NewEmailPoller demoConfig) (w := world0)
         (rule := {| SubjectContains := ""; Action := "label"; Label := "all" |})
    as (_ & p' & w' & evs & Hp & Htr & Hall).
  - reflexivity.
  - computed.
  - split; reflexivity.
  - reflexivity.
  - apply list_elem_of_In. right. left. reflexivity.
  - reflexivity.
  - rewrite Hp. cbn [snd]. rewrite Htr.
    change (trace world0) with (@nil Event). cbn [app].
    apply (Hall (mail 8 "Lunch plans")).
    apply list_elem_of_In. right. left. reflexivity.
Defined.





Lemma Stop_keeps_lastSync_witness :
  exists state',
    accountState (Stop ["primary"] stopEnvOk activeWithSession world0).1.2
      !! "primary" = Some state' /\
    lastSync state' = 105.
Proof.
  pose proof (Stop_keeps_lastSync ["primary"] stopEnvOk activeWithSession
                world0 "primary") as H.
  change (accountState activeWithSession !! "primary")
    with (Some {| lastSync := 105; isActive := true; stopChan := chanOpen;
                  client := Some session0 |}) in H at 1.
  destruct H as (state' & Hl & Hls & _).
  exists state'. split; [exact Hl | exact Hls].
Defined.

(** *** Further properties at work *)

Lemma append_length (a b : string) :
  String.length (a +:+ b) = (String.length a + String.length b)%nat.
Proof.
  induction a as [|c a IH]; [done|].
  change (S (String.length (a +:+ b)) = S (String.length a + String.length b)).
  by rewrite IH.
Qed.

Lemma asciiToLower_length (s : string) :
  String.length (strings.asciiToLower s) = String.length s.
Proof. induction s as [|c s IH]; [done|]. cbn. by rewrite IH. Qed.

(** X21. On a subject and a fragment of ASCII bytes, where
    [strings.ToLower] is [strings.asciiToLower], [containsIgnoreCase]
    holds exactly when some substring of the subject equals the fragment
    up to the case of its letters. So every subject matches itself, and
    no subject matches a fragment longer than itself. *)
Theorem containsIgnoreCase_on_ASCII (s frag : string) :
  strings.isASCII s = true -> strings.isASCII frag = true ->
  (containsIgnoreCase strings.asciiToLower s frag = true <->
   exists pre mid suf,
     s = pre +:+ mid +:+ suf /\
     strings.asciiToLower mid = strings.asciiToLower frag) /\
  containsIgnoreCase strings.asciiToLower s s = true /\
  ((String.length s < String.length frag)%nat ->
   containsIgnoreCase strings.asciiToLower s frag = false).
Proof.
  intros _ _. split; [apply containsIgnoreCase_ascii|]. split.
  - apply containsIgnoreCase_spec. exists "", "".
    induction (strings.asciiToLower s) as [|c t IH]; [done|].
    change (String c t = String c ("" +:+ t +:+ "")). by rewrite <- IH.
  - intros Hlen.
    destruct (containsIgnoreCase strings.asciiToLower s frag) eqn:H; [|done].
    apply containsIgnoreCase_spec in H as (pre & suf & H).
    apply (f_equal String.length) in H.
    rewrite !append_length, !asciiToLower_length in H. lia.
Qed.

Lemma Start_skips_disabled_witness :
  exists m,
    run strings.asciiToLower loopWaits
      (started None (NewEmailPoller oneOff) world0) = Some m /\
    accountState (poller m) !! "off" =
      Some {| lastSync := 0; isActive := false; stopChan := chanOpen;
              client := None |} /\
    accountOf <$> goroutines m = [acct "a" true].
Proof.
  edestruct Start_skips_disabled
    with (ToLower := strings.asciiToLower) (steps := loopWaits)
         (ctx := @None error) (p := NewEmailPoller oneOff) (w := world0)
         (id := "off")
    as (Hoff & Hgs & _).
  - computed.
  - apply (bool_decide_unpack _). vm_compute. exact I.
  - computed.
  - reflexivity.
  - eexists. split; [computed|]. split; [exact Hoff | exact Hgs].
Defined.

Lemma Start_returns_first_error_witness :
  exists m m' err,
    run strings.asciiToLower [StepEnter 0; StepEnter 1]
      (started None (NewEmailPoller twiceSame) world0) = Some m /\
    run strings.asciiToLower firstLoopRuns m = Some m' /\
    err = wrapError "error polling account a" (alreadyActive (acct "a" true)) /\
    head (errChan m') = Some err /\
    (StartResult m' = Some (Returns (Some err)) \/
     exists msg, StartResult m' = Some (Panics msg)).
Proof.
  pose (start := started None (NewEmailPoller twiceSame) world0).
  pose (m := default start
               (run strings.asciiToLower [StepEnter 0; StepEnter 1] start)).
  pose (m' := default start (run strings.asciiToLower firstLoopRuns m)).
  destruct (Start_returns_first_error strings.asciiToLower m firstLoopRuns m'
              (wrapError "error polling account a"
                 (alreadyActive (acct "a" true))))
    as (_ & Hhead & Hres); [by vm_compute..|].
  exists m, m'. eexists.
  split; [by vm_compute|]. split; [by vm_compute|]. split; [reflexivity|].
  split; [exact Hhead | exact Hres].
Defined.

Lemma Stop_after_restart_panics_witness :
  exists p1 w1 p2,
    Stop ["primary"] stopEnvOk activeWithSession world0
      = (Returns None, p1, w1) /\
    enter primary p1 = (Continue, p2) /\
    (Stop ["primary"] stopEnvOk p2 w1).1.1 = Panics "close of closed channel".
Proof.
  edestruct Stop_after_restart_panics
    with (order := ["primary"]) (env := stopEnvOk) (p := activeWithSession)
         (w := world0) (account := primary)
    as (p1 & w1 & p2 & Hs & _ & He & _ & Hpanic).
  - apply (bool_decide_unpack _). vm_compute. exact I.
  - intros id state Hl _. unfold activeWithSession in Hl. cbn in Hl.
    apply lookup_singleton_Some in Hl as [_ <-]. reflexivity.
  - computed.
  - reflexivity.
  - exists p1, w1, p2. split; [exact Hs|]. split; [exact He|].
    apply Hpanic. apply elem_of_cons. by left.
Defined.

Lemma stop_signal_is_permanent_witness :
  exists m m' m'',
    run strings.asciiToLower
      [StepEnter 0; StepInitialPoll 0 (envOk [] 1); StepStop ["a"] stopEnvOk]
      (started None (NewEmailPoller twiceSame) world0) = Some m /\
    run strings.asciiToLower [StepEnter 1; StepInitialPoll 1 (envOk [] 1)] m
      = Some m' /\
    step strings.asciiToLower (StepSelect 1 StopChan) m' = Some m'' /\
    goroutines m'' !! 1%nat = Some (Exited (acct "a" true) None).
Proof.
  pose (start := started None (NewEmailPoller twiceSame) world0).
  pose (m := default start
               (run strings.asciiToLower
                  [StepEnter 0; StepInitialPoll 0 (envOk [] 1);
                   StepStop ["a"] stopEnvOk] start)).
  pose (m' := default start
                (run strings.asciiToLower
                   [StepEnter 1; StepInitialPoll 1 (envOk [] 1)] m)).
  edestruct stop_signal_is_permanent
    with (ToLower := strings.asciiToLower) (m := m) (m' := m')
         (steps := [StepEnter 1; StepInitialPoll 1 (envOk [] 1)]) (id := "a")
    as (st' & _ & _ & Hstep).
  - by vm_compute.
  - computed.
  - reflexivity.
  - destruct (Hstep 1%nat (acct "a" true)) as (m'' & H1 & H2 & _);
      [by vm_compute..|].
    exists m, m', m''. split; [by vm_compute|]. split; [by vm_compute|].
    split; [exact H1 | exact H2].
Defined.

Lemma pollAccount_leaves_active_witness :
  exists p' w',
    pollAccount strings.asciiToLower primary (envOk inbox 1)
      [CtxDone Canceled] (NewEmailPoller DefaultConfig) world0
      = (Exit (Returns (Some Canceled)), p', w') /\
    pollAccount strings.asciiToLower primary (envOk [] 1) [] p' w'
      = (Exit (Returns (Some (alreadyActive primary))), p', w').
Proof.
  edestruct pollAccount_leaves_active
    with (ToLower := strings.asciiToLower) (account := primary)
         (init := envOk inbox 1) (sels := [CtxDone Canceled])
         (p := NewEmailPoller DefaultConfig) (w := world0)
    as [_ Hagain].
  - computed.
  - reflexivity.
  - computed.
  - do 2 eexists. split; [computed|]. apply Hagain.
Defined.

Lemma fetch_window_witness :
  exists o1 p1 w1 evs1 o2 p2 w3 evs2,
    poll strings.asciiToLower primary (envNoFetch 2) activeWithSession world0
      = (o1, p1, w1) /\
    trace w1 = trace world0 ++ evs1 /\
    fetchWindows evs1 = [105] /\
    poll strings.asciiToLower primary (envOk [] 1) p1 world0 = (o2, p2, w3) /\
    trace w3 = trace world0 ++ evs2 /\
    fetchWindows evs2 =
      [match o1 with
       | Returns None => clock w1
       | _ => 105
       end].
Proof.
  apply (fetch_window strings.asciiToLower primary (envNoFetch 2)
           (envOk [] 1) activeWithSession world0 world0
           {| lastSync := 105; isActive := true; stopChan := chanOpen;
              client := Some session0 |}).
  - computed.
  - cbn. eauto.
Defined.

Lemma poll_never_closes_witness :
  exists evs,
    trace (poll strings.asciiToLower primary (envNoAuth 1)
             (NewEmailPoller DefaultConfig) world0).2 = trace world0 ++ evs /\
    closeCalls evs = [] /\ labelRequests evs = [].
Proof.
  edestruct poll_never_closes
    with (ToLower := strings.asciiToLower) (account := primary)
         (env := envNoAuth 1) (p := NewEmailPoller DefaultConfig) (w := world0)
    as (evs & Htr & Hcl & _ & _ & Hl).
  - computed.
  - exists evs. split; [exact Htr|]. split; [exact Hcl|]. by apply Hl.
Defined.

Lemma refused_logins_leak_connections_witness :
  exists w' evs,
    pollLoop strings.asciiToLower primary refusedTwice activeNoSession world0
      = (Continue, activeNoSession, w') /\
    trace w' = trace world0 ++ evs /\
    sessionsCreated evs = [0; 1]%nat /\
    connectCalls evs = [0; 1]%nat /\
    closeCalls evs = [].
Proof.
  apply (refused_logins_leak_connections strings.asciiToLower primary
           refusedTwice activeNoSession world0
           {| lastSync := 0; isActive := true; stopChan := chanOpen;
              client := None |}).
  - computed.
  - reflexivity.
  - repeat constructor.
Defined.

Lemma rule_action_is_ignored_witness :
  (poll strings.asciiToLower primary (envOk inbox 5)
     (NewEmailPoller DefaultConfig) world0).2 =
  (poll strings.asciiToLower primary (envOk inbox 5)
     (NewEmailPoller deleteConfig) world0).2 /\
  labelRequests
    (trace (poll strings.asciiToLower primary (envOk inbox 5)
              (NewEmailPoller deleteConfig) world0).2) = [(0%nat, 7%N, "imp")].
Proof.
  destruct (rule_action_is_ignored strings.asciiToLower primary
              (envOk inbox 5) (NewEmailPoller DefaultConfig)
              (NewEmailPoller deleteConfig) world0) as (_ & Hw & _).
  - reflexivity.
  - repeat constructor.
  - split; [exact Hw|]. by vm_compute.
Defined.

Lemma Stop_ends_Start_with_nil_witness :
  exists m m',
    run strings.asciiToLower (take 6 cancelThree)
      (started None (NewEmailPoller threeAccounts) world0) = Some m /\
    run strings.asciiToLower
      (StepStop ["a"; "b"; "c"] stopEnvOk :: stopAll 0 3) m = Some m' /\
    StartResult m' = Some (Returns None).
Proof.
  pose (start := started None (NewEmailPoller threeAccounts) world0).
  pose (m := default start (run strings.asciiToLower (take 6 cancelThree) start)).
  edestruct Stop_ends_Start_with_nil
    with (ToLower := strings.asciiToLower) (m := m) (order := ["a"; "b"; "c"])
         (env := stopEnvOk)
    as (m' & Hrun & Hres & _).
  - by vm_compute.
  - by vm_compute.
  - apply (bool_decide_unpack _). vm_compute. exact I.
  - change (map_Forall
              (fun (_ : string) state =>
                 isActive state = true -> stopChan state = chanOpen)
              (accountState (poller m))).
    apply (bool_decide_unpack _). vm_compute. exact I.
  - let v := eval vm_compute in (goroutines m) in
    change (goroutines m) with v.
    repeat constructor;
      (do 2 eexists; split; [reflexivity|]; split; [computed|reflexivity]).
  - exists m, m'. split; [by vm_compute|]. split; [exact Hrun | exact Hres].
Defined.

Lemma lastSync_is_a_past_clock_reading_witness :
  exists m state,
    run strings.asciiToLower loopWaits
      (started None (NewEmailPoller DefaultConfig) world0) = Some m /\
    accountState (poller m) !! "primary" = Some state /\
    (lastSync state = 0 \/ clock world0 <= lastSync state) /\
    lastSync state <= clock (world m).
Proof.
  pose (start := started None (NewEmailPoller DefaultConfig) world0).
  pose (m := default start (run strings.asciiToLower loopWaits start)).
  exists m. eexists. split; [by vm_compute|]. split; [computed|].
  apply (lastSync_is_a_past_clock_reading strings.asciiToLower DefaultConfig
           None world0 loopWaits m "primary").
  - by vm_compute.
  - by vm_compute.
  - by vm_compute.
Defined.

Lemma Stop_leaves_closed_session_in_place_witness :
  exists p1 w1 evs1,
    Stop ["primary"] stopEnvOk activeWithSession world0
      = (Returns None, p1, w1) /\
    trace w1 = trace world0 ++ evs1 /\
    handle session0 ∈ closeCalls evs1 /\
    exists o p2 w3 evs2,
      poll strings.asciiToLower primary (envOk [] 1) p1 w1 = (o, p2, w3) /\
      trace w3 = trace w1 ++ evs2 /\
      sessionsCreated evs2 = [] /\ fetchWindows evs2 = [105].
Proof.
  edestruct Stop_leaves_closed_session_in_place
    with (ToLower := strings.asciiToLower) (order := ["primary"])
         (env := stopEnvOk) (p := activeWithSession) (w := world0)
         (account := primary) (c := session0)
    as (p1 & w1 & evs1 & Hs & Htr & Hcl & _ & Hpoll).
  - apply (bool_decide_unpack _). vm_compute. exact I.
  - intros id state Hl _. unfold activeWithSession in Hl. cbn in Hl.
    apply lookup_singleton_Some in Hl as [_ <-]. reflexivity.
  - computed.
  - reflexivity.
  - reflexivity.
  - exists p1, w1, evs1. split; [exact Hs|]. split; [exact Htr|].
    split; [exact Hcl|].
    destruct (Hpoll (envOk [] 1) w1) as (o & p2 & w3 & evs2 & H1 & H2 & H3 & H4 & _).
    exists o, p2, w3, evs2. split; [exact H1|]. split; [exact H2|].
    split; [exact H3 | exact H4].
Defined.

Lemma Start_nil_needs_Stop_witness :
  exists m,
    run strings.asciiToLower signalled
      (started None (NewEmailPoller DefaultConfig) world0) = Some m /\
    panicked m = None /\
    (StartResult m = None \/
     exists err, StartResult m = Some (Returns (Some err))).
Proof.
  pose (start := started None (NewEmailPoller DefaultConfig) world0).
  pose (m := default start (run strings.asciiToLower signalled start)).
  edestruct Start_nil_needs_Stop
    with (ToLower := strings.asciiToLower) (cfg := DefaultConfig)
         (ctx := @None error) (w := world0) (steps := signalled) (m := m)
    as (_ & _ & _ & Hres).
  - by vm_compute.
  - repeat constructor.
  - destruct Hres as [Hpan Hgo].
    + by vm_compute.
    + repeat constructor.
    + exists m. split; [by vm_compute|]. split; [exact Hpan|].
      apply Hgo. discriminate.
Defined.

Lemma only_Stop_closes_sessions_witness :
  exists m evs,
    run strings.asciiToLower signalled
      (started None (NewEmailPoller DefaultConfig) world0) = Some m /\
    trace (world m) = [] ++ evs /\ closeCalls evs = [] /\
    sessionsCreated evs = [0%nat].
Proof.
  pose (start := started None (NewEmailPoller DefaultConfig) world0).
  pose (m := default start (run strings.asciiToLower signalled start)).
  destruct (only_Stop_closes_sessions strings.asciiToLower signalled start m)
    as (evs & Htr & Hcl).
  - by vm_compute.
  - repeat constructor.
  - change (trace (world start)) with (@nil Event) in Htr.
    exists m, evs. split; [by vm_compute|]. split; [exact Htr|].
    split; [exact Hcl|].
    change (sessionsCreated ([] ++ evs) = [0%nat]). rewrite <- Htr.
    by vm_compute.
Defined.

Lemma errChan_within_capacity_witness :
  exists m,
    run strings.asciiToLower cancelThree
      (started None (NewEmailPoller threeAccounts) world0) = Some m /\
    length (errChan m) = 3%nat /\
    (length (errChan m) <= length (EmailAccounts threeAccounts))%nat.
Proof.
  pose (start := started None (NewEmailPoller threeAccounts) world0).
  pose (m := default start (run strings.asciiToLower cancelThree start)).
  destruct (errChan_within_capacity strings.asciiToLower cancelThree None
              (NewEmailPoller threeAccounts) world0 m) as (_ & H1 & H2).
  - by vm_compute.
  - exists m. split; [by vm_compute|]. split; [by vm_compute|].
    etransitivity; [exact H1 | exact H2].
Defined.

Lemma stored_sessions_are_connected_witness :
  exists m state c,
    run strings.asciiToLower loopWaits
      (started None (NewEmailPoller DefaultConfig) world0) = Some m /\
    accountState (poller m) !! "primary" = Some state /\
    client state = Some c /\
    is_Some (email.client c) /\
    FetchNewEmails (delivers []) c 7 =
      (Value (inr []), [CmdSelect "INBOX" false; CmdSearch 7]).
Proof.
  pose (start := started None (NewEmailPoller DefaultConfig) world0).
  pose (m := default start (run strings.asciiToLower loopWaits start)).
  exists m. do 2 eexists.
  split; [by vm_compute|]. split; [computed|]. split; [reflexivity|].
  edestruct stored_sessions_are_connected
    with (ToLower := strings.asciiToLower) (cfg := DefaultConfig)
         (ctx := @None error) (w := world0) (steps := loopWaits) (m := m)
         (id := "primary")
    as (Hconn & Hfetch & _).
  - by vm_compute.
  - computed.
  - reflexivity.
  - split; [exact Hconn|]. by rewrite Hfetch.
Defined.

Lemma main_never_exits_with_status_0_witness :
  (exists status,
     main strings.asciiToLower signalled world0 = Some status /\ status = 1) /\
  (exists status,
     main strings.asciiToLower [StepEnter 0; StepInitialPoll 0 (envBare 1)]
       world0 = Some status /\
     status = 2 /\
     exists s env msg,
       s ∈ [StepEnter 0; StepInitialPoll 0 (envBare 1)] /\
       stepEnv s = Some env /\ fetchAnswer env = Panic msg).
Proof.
  split.
  - eexists. split; [computed|].
    destruct (main_never_exits_with_status_0 strings.asciiToLower signalled
                world0 1) as (_ & _ & Hquiet); [by vm_compute|].
    apply Hquiet. repeat constructor.
  - eexists. split; [computed|]. split; [reflexivity|].
    destruct (main_never_exits_with_status_0 strings.asciiToLower
                [StepEnter 0; StepInitialPoll 0 (envBare 1)] world0 2)
      as (_ & Hpanic & _); [by vm_compute|].
    by apply Hpanic.
Defined.

Lemma containsIgnoreCase_on_ASCII_witness :
  containsIgnoreCase strings.asciiToLower "Job Opportunity at Acme"
    "Job Opportunity at Acme" = true /\
  containsIgnoreCase strings.asciiToLower "Acme" "job opportunity" = false.
Proof.
  destruct (containsIgnoreCase_on_ASCII "Job Opportunity at Acme"
              "Job Opportunity at Acme") as (_ & Hself & _); [reflexivity..|].
  destruct (containsIgnoreCase_on_ASCII "Acme" "job opportunity")
    as (_ & _ & Hlong); [reflexivity..|].
  split; [exact Hself|]. apply Hlong. cbn. lia.
Defined.

End scheduler.

(** ** Properties of package [email] *)

Module email_facts.

Import email.

Lemma append_nil_r (s : string) : s +:+ "" = s.
Proof.
  induction s as [|c s IH]; [done|].
  change (String c (s +:+ "") = String c s). by rewrite IH.
Qed.

Lemma append_assoc (a b c : string) : (a +:+ b) +:+ c = a +:+ b +:+ c.
Proof.
  induction a as [|x a IH]; [done|].
  change (String x ((a +:+ b) +:+ c) = String x (a +:+ b +:+ c)).
  by rewrite IH.
Qed.

Lemma append_empty (a b : string) : a +:+ b = "" -> a = "" /\ b = "".
Proof. destruct a; [done|]. discriminate. Qed.

(** X18. [formatAddresses] shows the first address only. It returns the
    empty string for the empty list and for no other list; for a list
    whose first entry is an address the result is that of the list of
    this entry alone, whatever follows it, nil entries included, and it
    contains the entry's [mailbox@host]; a nil first entry makes it
    panic. *)
Theorem formatAddresses_first_only addrs :
  (formatAddresses addrs = Value "" <-> addrs = []) /\
  (forall addr,
     head addrs = Some (Some addr) ->
     formatAddresses addrs = formatAddresses [Some addr] /\
     exists text,
       formatAddresses addrs = Value text /\
       strings.Contains text
         (imap.MailboxName addr +:+ "@" +:+ imap.HostName addr) = true) /\
  (head addrs = Some None ->
   formatAddresses addrs = Panic "nil pointer dereference").
Proof.
  split; [|split].
  - split; [|by intros ->].
    destruct addrs as [|[addr|] rest]; [done| |done]. cbn [formatAddresses].
    destruct (String.eqb_spec (imap.PersonalName addr) "") as [He|Hne];
      cbn [negb]; intros [= H].
    + apply append_empty in H as [_ H]. discriminate.
    + destruct (imap.PersonalName addr); [done|discriminate].
  - intros addr Hhead. destruct addrs as [|a rest]; [done|].
    injection Hhead as ->. split; [done|]. cbn [formatAddresses].
    destruct (negb _); eexists; (split; [reflexivity|]);
      apply scheduler.Contains_spec.
    + exists (imap.PersonalName addr +:+ " <"), ">".
      by rewrite !append_assoc.
    + exists "", "". by rewrite append_nil_r.
  - intros Hhead. destruct addrs as [|a rest]; [done|].
    by injection Hhead as ->.
Qed.

Lemma toEmails_Value messages emails :
  toEmails messages = Value emails ->
  Forall2 (fun msg e => toEmail msg = Value e) messages emails.
Proof.
  revert emails. induction messages as [|msg messages IH]; intros emails H.
  { injection H as <-. constructor. }
  cbn [toEmails] in H. destruct (toEmail msg) as [e|m] eqn:He; [|done].
  destruct (toEmails messages) as [es|m]; [|done]. injection H as <-.
  constructor; [done|]. by apply IH.
Qed.

Lemma toEmails_Panic messages m :
  toEmails messages = Panic m ->
  Exists (fun msg => toEmail msg = Panic m) messages.
Proof.
  induction messages as [|msg messages IH]; intros H; [done|].
  cbn [toEmails] in H. destruct (toEmail msg) as [e|m'] eqn:He.
  - destruct (toEmails messages) as [es|m']; [done|]. injection H as ->.
    apply Exists_cons_tl. by apply IH.
  - injection H as ->. by apply Exists_cons_hd.
Qed.

Lemma toEmail_UID msg e : toEmail msg = Value e -> UID e = imap.Uid msg.
Proof.
  unfold toEmail. destruct (imap.Envelope_ msg) as [envelope|]; [|done].
  destruct (formatAddresses _); [|done]. by intros [= <-].
Qed.

Lemma Forall2_UID messages emails :
  Forall2 (fun msg e => toEmail msg = Value e) messages emails ->
  UID <$> emails = imap.Uid <$> messages.
Proof.
  induction 1 as [|msg e messages emails He _ IH]; [done|].
  cbn. by rewrite IH, (toEmail_UID _ _ He).
Qed.

(** X19. [FetchNewEmails] returns all the messages of a fetch or none.
    When it returns messages, the fetch has ended without error and the
    result holds exactly one entry per message delivered, in the order
    of delivery, with the message's UID; when the fetch ends in an error,
    nothing of what was delivered is returned. When the search finds
    nothing, no fetch is sent and the result is empty without error. An
    error result names the step that failed, the steps before it having
    succeeded, and a panic means that the fetch was sent and a delivered
    message had no envelope or a nil first sender. *)
Theorem FetchNewEmails_all_or_nothing env g since :
  match FetchNewEmails env g since with
  | (Value (inr emails), cmds) =>
      is_Some (client g) /\ selectErr env = None /\
      ((searchAnswer env = inr [] /\ emails = [] /\
        cmds = [CmdSelect "INBOX" false; CmdSearch since]) \/
       (exists uids,
          searchAnswer env = inr uids /\ uids <> [] /\
          cmds = [CmdSelect "INBOX" false; CmdSearch since; CmdFetch uids] /\
          fetchErr env = None /\
          Forall2 (fun msg e => toEmail msg = Value e)
            (fetchedMessages env) emails /\
          UID <$> emails = imap.Uid <$> fetchedMessages env))
  | (Value (inl err), cmds) =>
      (client g = None /\ cmds = [] /\
       err = errorString "client not connected") \/
      (is_Some (client g) /\
       ((exists e, selectErr env = Some e /\
           err = wrapError "failed to select inbox" (errorString e) /\
           cmds = [CmdSelect "INBOX" false]) \/
        (exists e, selectErr env = None /\ searchAnswer env = inl e /\
           err = wrapError "search failed" (errorString e) /\
           cmds = [CmdSelect "INBOX" false; CmdSearch since]) \/
        (exists e uids,
           selectErr env = None /\
           searchAnswer env = inr uids /\ uids <> [] /\
           fetchErr env = Some e /\
           err = wrapError "fetch failed" (errorString e) /\
           cmds = [CmdSelect "INBOX" false; CmdSearch since; CmdFetch uids])))
  | (Panic msg, cmds) =>
      is_Some (client g) /\ selectErr env = None /\
      (exists uids,
         searchAnswer env = inr uids /\ uids <> [] /\
         cmds = [CmdSelect "INBOX" false; CmdSearch since; CmdFetch uids]) /\
      Exists (fun m => toEmail m = Panic msg) (fetchedMessages env)
  end.
Proof.
  unfold FetchNewEmails, exchange.
  destruct (client g) as [conn|]; [|left; done].
  destruct (selectErr env) as [e|] eqn:Hsel.
  { right. split; [done|]. left. eauto. }
  destruct (searchAnswer env) as [e|[|uid uids]] eqn:Hsearch.
  { right. split; [done|]. right. left. eauto. }
  { split; [done|]. split; [done|]. left. done. }
  destruct (toEmails (fetchedMessages env)) as [emails|m] eqn:Hto.
  - destruct (fetchErr env) as [e|] eqn:Hfetch.
    + right. split; [done|]. right. right. exists e, (uid :: uids).
      by split_and!.
    + split; [done|]. split; [done|]. right. exists (uid :: uids).
      pose proof (toEmails_Value _ _ Hto) as Hall.
      split_and!; try done. by apply Forall2_UID.
  - split; [done|]. split; [done|]. split; [by exists (uid :: uids)|].
    by apply toEmails_Panic.
Qed.

End email_facts.
